(** * BrainRot: tokenizer, recursive-descent parser and tree-walking evaluator

    A shallow embedding of the interpreter of the BrainRot language
    (`brainrot-interpreter.ts`): [BrainRotTokenizer], [BrainRotParser],
    [BrainRotInterpreter] and the entry point [executeBrainRot].

    - Source text is a sequence of 8-bit code units ([ascii]).
    - Runtime values are the JavaScript primitives the interpreter can
      produce; numbers are IEEE-754 binary64 ([float]).
    - A JavaScript exception is an explicit [Throw] outcome; a loop or a
      recursion that is not structural takes a fuel argument and answers
      [OutOfFuel] when it is exhausted.  Exhaustion of the host's call
      stack is not modelled. *)

From Stdlib Require Import ZArith String Ascii List Bool Lia Sorted.
From Stdlib Require Import PrimFloat SpecFloat FloatOps DecimalString.
From stdpp Require Import gmap strings.

Import ListNotations.
Local Open Scope string_scope.
Local Open Scope list_scope.

(** ** The host: ECMAScript primitives used by the interpreter *)

Module Host.

(** Runtime values: what a [Literal] holds and what [evaluate] and
    [execute] return. [VNull] is the [null] returned by the statement
    cases of [execute]; [VUndefined] is an unset [result] or a missing
    argument. *)
Inductive Value : Type :=
| VNumber (n : float)
| VString (s : string)
| VBoolean (b : bool)
| VNull
| VUndefined.

Definition code (c : ascii) : nat := nat_of_ascii c.

Definition char_between (lo hi c : ascii) : bool :=
  (code lo <=? code c)%nat && (code c <=? code hi)%nat.

Definition is_digit (c : ascii) : bool := char_between "0" "9" c.

Definition digit_value (c : ascii) : Z := Z.of_nat (code c) - 48.

Definition string_of_Z (z : Z) : string := NilZero.string_of_int (Z.to_int z).

Definition string_of_nat (n : nat) : string := string_of_Z (Z.of_nat n).

(** The double nearest to the integer [z] (ties to even). *)
Definition round_int (z : Z) : float :=
  SF2Prim (binary_normalize prec emax z 0 false).

(** The double nearest to [m * 10^p] for [0 <= m] (ties to even). *)
Definition decimal_to_number (m p : Z) : float :=
  match m with
  | Zpos pm =>
      if (0 <=? p)%Z then round_int (m * 10 ^ p)
      else SF2Prim (SFdiv prec emax (S754_finite false pm 0)
                          (S754_finite false (Z.to_pos (10 ^ (- p))) 0))
  | _ => zero
  end.

(** *** Number::toString (radix 10) *)

(** [x * 10^q] as a fraction, for [x = m * 2^e]. *)
Definition scaled (m e q : Z) : Z * Z :=
  ((m * 2 ^ Z.max e 0 * 10 ^ Z.max q 0)%Z,
   (2 ^ Z.max (- e) 0 * 10 ^ Z.max (- q) 0)%Z).

(** The least [n' >= n] with [m * 2^e < 10^n']. *)
Fixpoint decimal_exponent (fuel : nat) (m e n : Z) : Z :=
  match fuel with
  | O => n
  | S fuel' =>
      let '(num, den) := scaled m e (- n) in
      if (num <? den)%Z then n else decimal_exponent fuel' m e (n + 1)
  end.

(** A lower bound of the decimal exponent of [m * 2^e], which lies in
    [2^b, 2^(b+1)) for [b = Zdigits2 m + e - 1]: [0.30102 < log10 2 < 0.30103]. *)
Definition exponent_lower_bound (m e : Z) : Z :=
  let b := (Zdigits2 m + e - 1)%Z in
  if (0 <=? b)%Z then (b * 30102 / 100000)%Z else (b * 30103 / 100000)%Z.

(** A [k]-digit decimal [s * 10^(n-k)] that converts back to [x], the one
    closest to [x] when both neighbours do. *)
Definition shortest_candidate (x : float) (m e n k : Z) : option (Z * Z) :=
  let '(num, den) := scaled m e (k - n) in
  let lo := (num / den)%Z in
  let r := (num mod den)%Z in
  let hi := if (lo + 1 =? 10 ^ k)%Z then (10 ^ (k - 1), n + 1)%Z else (lo + 1, n)%Z in
  let ok (c : Z * Z) :=
    (10 ^ (k - 1) <=? fst c)%Z && (fst c <? 10 ^ k)%Z &&
    PrimFloat.eqb (decimal_to_number (fst c) (snd c - k)) x in
  match ok (lo, n), ok hi with
  | true, true => if (2 * r <=? den)%Z then Some (lo, n) else Some hi
  | true, false => Some (lo, n)
  | false, true => Some hi
  | false, false => None
  end.

Fixpoint shortest_digits (fuel : nat) (x : float) (m e n k : Z) : Z * Z * Z :=
  match fuel with
  | O => (m, k, n)
  | S fuel' =>
      match shortest_candidate x m e n k with
      | Some (s, n') => (s, k, n')
      | None => shortest_digits fuel' x m e n (k + 1)
      end
  end.

Definition zeros (n : Z) : string := string_of_list_ascii (repeat "0"%char (Z.to_nat n)).

Definition format_digits (s k n : Z) : string :=
  let ds := string_of_Z s in
  if (k <=? n)%Z && (n <=? 21)%Z then ds +:+ zeros (n - k)
  else if (0 <? n)%Z && (n <=? 21)%Z then
    substring 0 (Z.to_nat n) ds +:+ "." +:+ substring (Z.to_nat n) (Z.to_nat (k - n)) ds
  else if (-6 <? n)%Z && (n <=? 0)%Z then "0." +:+ zeros (- n) +:+ ds
  else
    let e := (n - 1)%Z in
    let es := (if (e <? 0)%Z then "-" else "+") +:+ string_of_Z (Z.abs e) in
    if (k =? 1)%Z then ds +:+ "e" +:+ es
    else substring 0 1 ds +:+ "." +:+ substring 1 (Z.to_nat (k - 1)) ds +:+ "e" +:+ es.

Definition positive_to_string (x : float) : string :=
  match Prim2SF x with
  | S754_finite _ m e =>
      let n := decimal_exponent 8 (Zpos m) e (exponent_lower_bound (Zpos m) e) in
      let '(s, k, n') := shortest_digits 17 x (Zpos m) e n 1 in
      format_digits s k n'
  | S754_infinity _ => "Infinity"
  | S754_zero _ => "0"
  | S754_nan => "NaN"
  end.

Definition NumberToString (x : float) : string :=
  if is_nan x then "NaN"
  else if PrimFloat.eqb x zero then "0"
  else if PrimFloat.ltb x zero then "-" +:+ positive_to_string (PrimFloat.opp x)
  else positive_to_string x.

(** *** StringToNumber: ToNumber applied to a String *)

Definition is_str_whitespace (c : ascii) : bool :=
  match code c with
  | 9 | 10 | 11 | 12 | 13 | 32 | 160 => true
  | _ => false
  end%nat.

Fixpoint trim_start (l : list ascii) : list ascii :=
  match l with
  | c :: r => if is_str_whitespace c then trim_start r else l
  | [] => []
  end.

Definition trim (l : list ascii) : list ascii :=
  rev (trim_start (rev (trim_start l))).

(** Reads a run of decimal digits onto [acc]; returns the value, the number
    of digits read and the rest. *)
Fixpoint read_digits (l : list ascii) (acc : Z) (count : Z) : Z * Z * list ascii :=
  match l with
  | c :: r =>
      if is_digit c then read_digits r (acc * 10 + digit_value c)%Z (count + 1)%Z
      else (acc, count, l)
  | [] => (acc, count, [])
  end.

Definition radix_digit (radix : Z) (c : ascii) : option Z :=
  let v :=
    if is_digit c then digit_value c
    else if char_between "a" "f" c then (Z.of_nat (code c) - 87)%Z
    else if char_between "A" "F" c then (Z.of_nat (code c) - 55)%Z
    else radix in
  if (v <? radix)%Z then Some v else None.

(** The digits of a non-decimal integer literal: at least one, and nothing
    else. *)
Fixpoint read_radix (radix : Z) (l : list ascii) (acc : Z) (count : Z) : option Z :=
  match l with
  | c :: r =>
      match radix_digit radix c with
      | Some v => read_radix radix r (acc * radix + v)%Z (count + 1)%Z
      | None => None
      end
  | [] => if (0 <? count)%Z then Some acc else None
  end.

Definition exponent_part (l : list ascii) : option Z :=
  let '(negative, digits) :=
    match l with
    | "+"%char :: r => (false, r)
    | "-"%char :: r => (true, r)
    | _ => (false, l)
    end in
  match read_digits digits 0 0 with
  | (v, count, []) =>
      if (0 <? count)%Z then Some (if negative then (- v)%Z else v) else None
  | _ => None
  end.

Definition unsigned_decimal (l : list ascii) : option float :=
  if String.eqb (string_of_list_ascii l) "Infinity" then Some infinity
  else
    let '(ip, ic, r1) := read_digits l 0 0 in
    let '(m, fc, r2) :=
      match r1 with
      | "."%char :: r => let '(fp, fc, r2) := read_digits r ip 0 in (fp, fc, r2)
      | _ => (ip, 0%Z, r1)
      end in
    if (ic + fc =? 0)%Z then None
    else
      match r2 with
      | [] => Some (decimal_to_number m (- fc))
      | c :: r =>
          if Ascii.eqb c "e" || Ascii.eqb c "E" then
            match exponent_part r with
            | Some ex => Some (decimal_to_number m (ex - fc))
            | None => None
            end
          else None
      end.

Definition or_nan (o : option float) : float :=
  match o with Some x => x | None => nan end.

Definition StringToNumber (s : string) : float :=
  match trim (list_ascii_of_string s) with
  | [] => zero
  | "+"%char :: r => or_nan (unsigned_decimal r)
  | "-"%char :: r => PrimFloat.opp (or_nan (unsigned_decimal r))
  | "0"%char :: c :: r =>
      if Ascii.eqb c "x" || Ascii.eqb c "X" then or_nan (option_map round_int (read_radix 16 r 0 0))
      else if Ascii.eqb c "o" || Ascii.eqb c "O" then or_nan (option_map round_int (read_radix 8 r 0 0))
      else if Ascii.eqb c "b" || Ascii.eqb c "B" then or_nan (option_map round_int (read_radix 2 r 0 0))
      else or_nan (unsigned_decimal ("0"%char :: c :: r))
  | l => or_nan (unsigned_decimal l)
  end.

(** *** parseInt (radix 10 or a [0x] prefix) and parseFloat *)

Definition strip_sign (l : list ascii) : bool * list ascii :=
  match l with
  | "+"%char :: r => (false, r)
  | "-"%char :: r => (true, r)
  | _ => (false, l)
  end.

Definition apply_sign (negative : bool) (x : float) : float :=
  if negative then PrimFloat.opp x else x.

(** The longest run of digits of [radix] at the front of [l]. *)
Fixpoint read_radix_prefix (radix : Z) (l : list ascii) (acc : Z) (count : Z) : Z * Z :=
  match l with
  | c :: r =>
      match radix_digit radix c with
      | Some v => read_radix_prefix radix r (acc * radix + v)%Z (count + 1)%Z
      | None => (acc, count)
      end
  | [] => (acc, count)
  end.

Definition parseInt (s : string) : float :=
  let '(negative, l) := strip_sign (trim_start (list_ascii_of_string s)) in
  let '(radix, digits) :=
    match l with
    | "0"%char :: c :: r =>
        if Ascii.eqb c "x" || Ascii.eqb c "X" then (16%Z, r) else (10%Z, l)
    | _ => (10%Z, l)
    end in
  let '(v, count) := read_radix_prefix radix digits 0 0 in
  if (count =? 0)%Z then nan
  else if (v =? 0)%Z then apply_sign negative zero
  else apply_sign negative (round_int v).

Fixpoint starts_with (prefix l : list ascii) : bool :=
  match prefix, l with
  | [], _ => true
  | p :: prefix', c :: l' => Ascii.eqb p c && starts_with prefix' l'
  | _ :: _, [] => false
  end.

(** The exponent part at the front of [l], when there is a complete one. *)
Definition exponent_prefix (l : list ascii) : Z :=
  match l with
  | c :: r =>
      if Ascii.eqb c "e" || Ascii.eqb c "E" then
        let '(negative, digits) := strip_sign r in
        let '(v, count, _) := read_digits digits 0 0 in
        if (count =? 0)%Z then 0%Z else if negative then (- v)%Z else v
      else 0%Z
  | [] => 0%Z
  end.

Definition parseFloat (s : string) : float :=
  let '(negative, l) := strip_sign (trim_start (list_ascii_of_string s)) in
  if starts_with (list_ascii_of_string "Infinity") l then apply_sign negative infinity
  else
    let '(ip, ic, r1) := read_digits l 0 0 in
    let '(m, fc, r2) :=
      match r1 with
      | "."%char :: r => let '(fp, fc, r2) := read_digits r ip 0 in (fp, fc, r2)
      | _ => (ip, 0%Z, r1)
      end in
    if (ic + fc =? 0)%Z then nan
    else apply_sign negative (decimal_to_number m (exponent_prefix r2 - fc)).

(** *** Conversions and operators on values *)

Definition ToNumber (v : Value) : float :=
  match v with
  | VNumber n => n
  | VString s => StringToNumber s
  | VBoolean b => if b then one else zero
  | VNull => zero
  | VUndefined => nan
  end.

(** [String(v)] and the [${v}] of a template literal. *)
Definition ToString (v : Value) : string :=
  match v with
  | VNumber n => NumberToString n
  | VString s => s
  | VBoolean b => if b then "true" else "false"
  | VNull => "null"
  | VUndefined => "undefined"
  end.

Definition is_string (v : Value) : bool :=
  match v with VString _ => true | _ => false end.

(** [left + right] *)
Definition js_add (l r : Value) : Value :=
  if is_string l || is_string r then VString (ToString l +:+ ToString r)
  else VNumber (ToNumber l + ToNumber r)%float.

(** [left - right], [left * right], [left / right] *)
Definition js_sub (l r : Value) : Value := VNumber (ToNumber l - ToNumber r)%float.
Definition js_mul (l r : Value) : Value := VNumber (ToNumber l * ToNumber r)%float.
Definition js_div (l r : Value) : Value := VNumber (ToNumber l / ToNumber r)%float.

(** Code-unit order on strings: a proper prefix comes first. *)
Fixpoint string_ltb (a b : string) : bool :=
  match a, b with
  | EmptyString, EmptyString => false
  | EmptyString, String _ _ => true
  | String _ _, EmptyString => false
  | String x a', String y b' =>
      if (code x <? code y)%nat then true
      else if (code y <? code x)%nat then false
      else string_ltb a' b'
  end.

(** [left < right] *)
Definition js_lt (l r : Value) : Value :=
  match l, r with
  | VString a, VString b => VBoolean (string_ltb a b)
  | _, _ => VBoolean (PrimFloat.ltb (ToNumber l) (ToNumber r))
  end.

(** [left > right] *)
Definition js_gt (l r : Value) : Value := js_lt r l.

(** [left === right] *)
Definition strict_equals (l r : Value) : bool :=
  match l, r with
  | VNumber a, VNumber b => PrimFloat.eqb a b
  | VString a, VString b => String.eqb a b
  | VBoolean a, VBoolean b => Bool.eqb a b
  | VNull, VNull => true
  | VUndefined, VUndefined => true
  | _, _ => false
  end.

End Host.

(** ** Tokens and syntax trees *)

Inductive TokenType : Type :=
| KEYWORD | IDENTIFIER | NUMBER | STRING | OPERATOR | DELIMITER | EOF.

Definition TokenType_eqb (a b : TokenType) : bool :=
  match a, b with
  | KEYWORD, KEYWORD | IDENTIFIER, IDENTIFIER | NUMBER, NUMBER | STRING, STRING
  | OPERATOR, OPERATOR | DELIMITER, DELIMITER | EOF, EOF => true
  | _, _ => false
  end.

Record Token : Type := mkToken {
  type : TokenType;
  value : string;
  line : nat;
  column : nat
}.

(** [ASTNode]: statements and expressions are one type, as [execute] takes
    any node and hands what is not a statement to [evaluate]. The [name] of
    a [CallExpression] is absent when the callee had no [name] field. *)
#[warnings="-register-all"]
Inductive ASTNode : Type :=
| Literal (value : Host.Value)
| Identifier (name : string)
| UnaryExpression (operator : string) (operand : ASTNode)
| BinaryExpression (operator : string) (left right : ASTNode)
| CallExpression (name : option string) (arguments : list ASTNode)
| VariableDeclaration (name : string) (value : ASTNode)
| PrintStatement (expression : ASTNode)
| WhileLoop (condition : ASTNode) (body : list ASTNode)
| IfStatement (condition : ASTNode) (thenBody : list ASTNode) (elseBody : option (list ASTNode))
| FunctionDeclaration (name : string) (parameters : list string) (body : list ASTNode).

(** [node.type] *)
Definition node_type (node : ASTNode) : string :=
  match node with
  | Literal _ => "Literal"
  | Identifier _ => "Identifier"
  | UnaryExpression _ _ => "UnaryExpression"
  | BinaryExpression _ _ _ => "BinaryExpression"
  | CallExpression _ _ => "CallExpression"
  | VariableDeclaration _ _ => "VariableDeclaration"
  | PrintStatement _ => "PrintStatement"
  | WhileLoop _ _ => "WhileLoop"
  | IfStatement _ _ _ => "IfStatement"
  | FunctionDeclaration _ _ _ => "FunctionDeclaration"
  end.

(** ** BrainRotTokenizer *)

Module BrainRotTokenizer.
Import Host.

(** The tokenizer's fields: [rest] is [input] from [position] on. *)
Record State : Type := mkState {
  rest : list ascii;
  cur_line : nat;
  cur_column : nat
}.

Definition keywords : list (string * string) :=
  [ ("mold", "MOLD"); ("rott", "ROTT"); ("spin", "SPIN"); ("ifrot", "IFROT");
    ("elsed", "ELSED"); ("fnrot", "FNROT"); ("androt", "ANDROT"); ("orrot", "ORROT");
    ("notrot", "NOTROT"); ("retrot", "RETROT") ].

Definition operators : list (ascii * string) :=
  [ ("+"%char, "PLUS");
    ("-"%char, "MINUS");
    ("*"%char, "MULTIPLY");
    ("/"%char, "DIVIDE");
    ("="%char, "ASSIGN");
    (">"%char, "GT");
    ("<"%char, "LT");
    ("!"%char, "NOT");
    ("("%char, "LPAREN");
    (")"%char, "RPAREN");
    ("{"%char, "LBRACE");
    ("}"%char, "RBRACE");
    (";"%char, "SEMICOLON");
    (","%char, "COMMA") ].

Fixpoint keywords_get (table : list (string * string)) (key : string) : option string :=
  match table with
  | (k, v) :: table' => if String.eqb k key then Some v else keywords_get table' key
  | [] => None
  end.

Fixpoint operators_get (table : list (ascii * string)) (key : ascii) : option string :=
  match table with
  | (k, v) :: table' => if Ascii.eqb k key then Some v else operators_get table' key
  | [] => None
  end.

(** [peek(offset)]: [None] is the empty string returned past the end. *)
Definition peek (offset : nat) (st : State) : option ascii := nth_error (rest st) offset.

Definition peek_is (offset : nat) (c : ascii) (st : State) : bool :=
  match peek offset st with
  | Some c' => Ascii.eqb c' c
  | None => false
  end.

Definition double_quote : ascii := "034"%char.
Definition newline : ascii := "010"%char.
Definition tab : ascii := "009"%char.
Definition carriage_return : ascii := "013"%char.

(** The line and column after consuming [c]. *)
Definition advance_position (c : ascii) (ln col : nat) : nat * nat :=
  if Ascii.eqb c newline then (S ln, 1) else (ln, S col).

Definition advance (st : State) : State :=
  match rest st with
  | c :: r =>
      let '(ln, col) := advance_position c (cur_line st) (cur_column st) in
      mkState r ln col
  | [] => st
  end.

Definition is_whitespace (c : ascii) : bool :=
  Ascii.eqb c " " || Ascii.eqb c tab || Ascii.eqb c newline || Ascii.eqb c carriage_return.

Fixpoint skipWhitespace_loop (l : list ascii) (ln col : nat) : State :=
  match l with
  | c :: r =>
      if is_whitespace c then
        let '(ln', col') := advance_position c ln col in skipWhitespace_loop r ln' col'
      else mkState l ln col
  | [] => mkState [] ln col
  end.

Definition skipWhitespace (st : State) : State :=
  skipWhitespace_loop (rest st) (cur_line st) (cur_column st).

Fixpoint skipComment_loop (l : list ascii) (ln col : nat) : State :=
  match l with
  | c :: r =>
      if negb (Ascii.eqb c newline) then
        let '(ln', col') := advance_position c ln col in skipComment_loop r ln' col'
      else mkState l ln col
  | [] => mkState [] ln col
  end.

Definition skipComment (st : State) : State :=
  skipComment_loop (rest st) (cur_line st) (cur_column st).

Definition push_char (s : string) (c : ascii) : string := s +:+ String c EmptyString.

Fixpoint readNumber_loop (l : list ascii) (ln col : nat) (val : string) (hasDot : bool)
  : string * State :=
  match l with
  | c :: r =>
      let '(ln', col') := advance_position c ln col in
      if is_digit c then readNumber_loop r ln' col' (push_char val c) hasDot
      else if Ascii.eqb c "." && negb hasDot then readNumber_loop r ln' col' (push_char val c) true
      else (val, mkState l ln col)
  | [] => (val, mkState [] ln col)
  end.

Definition readNumber (ln col : nat) (st : State) : Token * State :=
  let '(val, st') := readNumber_loop (rest st) (cur_line st) (cur_column st) "" false in
  (mkToken NUMBER val ln col, st').

(** The [switch (escaped)] of [readString]. *)
Definition escape (quote escaped : ascii) : ascii :=
  if Ascii.eqb escaped "n" then newline
  else if Ascii.eqb escaped "t" then tab
  else if Ascii.eqb escaped "r" then carriage_return
  else if Ascii.eqb escaped "\" then "\"%char
  else if Ascii.eqb escaped quote then quote
  else escaped.

Fixpoint readString_loop (quote : ascii) (l : list ascii) (ln col : nat) (val : string)
  : string * State :=
  match l with
  | c :: r =>
      if Ascii.eqb c quote then (val, mkState l ln col)
      else
        let '(ln1, col1) := advance_position c ln col in
        if Ascii.eqb c "\" then
          match r with
          | escaped :: r' =>
              let '(ln2, col2) := advance_position escaped ln1 col1 in
              readString_loop quote r' ln2 col2 (push_char val (escape quote escaped))
          | [] => (val, mkState [] ln1 col1)
          end
        else readString_loop quote r ln1 col1 (push_char val c)
  | [] => (val, mkState [] ln col)
  end.

Definition readString (ln col : nat) (st : State) : Token * State :=
  match rest st with
  | quote :: _ =>
      let st1 := advance st in
      let '(val, st2) := readString_loop quote (rest st1) (cur_line st1) (cur_column st1) "" in
      let st3 := if peek_is 0 quote st2 then advance st2 else st2 in
      (mkToken STRING val ln col, st3)
  | [] => (mkToken STRING "" ln col, st)
  end.

Definition is_identifier_start (c : ascii) : bool :=
  char_between "a" "z" c || char_between "A" "Z" c || Ascii.eqb c "_".

Definition is_identifier_part (c : ascii) : bool :=
  char_between "a" "z" c || char_between "A" "Z" c || is_digit c || Ascii.eqb c "_".

Fixpoint readIdentifier_loop (l : list ascii) (ln col : nat) (val : string) : string * State :=
  match l with
  | c :: r =>
      if is_identifier_part c then
        let '(ln', col') := advance_position c ln col in
        readIdentifier_loop r ln' col' (push_char val c)
      else (val, mkState l ln col)
  | [] => (val, mkState [] ln col)
  end.

(** [toLowerCase] on the characters an identifier is made of. *)
Definition lower_char (c : ascii) : ascii :=
  if char_between "A" "Z" c then ascii_of_nat (code c + 32) else c.

Fixpoint toLowerCase (s : string) : string :=
  match s with
  | String c s' => String (lower_char c) (toLowerCase s')
  | EmptyString => EmptyString
  end.

Definition readIdentifier (ln col : nat) (st : State) : Token * State :=
  let '(val, st') := readIdentifier_loop (rest st) (cur_line st) (cur_column st) "" in
  match keywords_get keywords (toLowerCase val) with
  | Some keyword => (mkToken KEYWORD keyword ln col, st')
  | None => (mkToken IDENTIFIER val ln col, st')
  end.

Definition includes (needle hay : string) : bool :=
  match index 0 needle hay with Some _ => true | None => false end.

Definition operator_type (name : string) : TokenType :=
  if includes "PAREN" name || includes "BRACE" name
     || String.eqb name "SEMICOLON" || String.eqb name "COMMA"
  then DELIMITER else OPERATOR.

Definition nextToken (st : State) : option Token * State :=
  let ln := cur_line st in
  let col := cur_column st in
  match rest st with
  | [] => (None, st)
  | char :: _ =>
      if is_digit char then
        let '(t, st') := readNumber ln col st in (Some t, st')
      else if Ascii.eqb char double_quote || Ascii.eqb char "'" then
        let '(t, st') := readString ln col st in (Some t, st')
      else if is_identifier_start char then
        let '(t, st') := readIdentifier ln col st in (Some t, st')
      else if Ascii.eqb char "=" && peek_is 1 "=" st then
        (Some (mkToken OPERATOR "EQ" ln col), advance (advance st))
      else if Ascii.eqb char "!" && peek_is 1 "=" st then
        (Some (mkToken OPERATOR "NEQ" ln col), advance (advance st))
      else
        match operators_get operators char with
        | Some name => (Some (mkToken (operator_type name) name ln col), advance st)
        | None => (None, advance st)
        end
  end.

Definition at_comment (st : State) : bool :=
  peek_is 0 "#" st && peek_is 1 "r" st && peek_is 2 "o" st && peek_is 3 "t" st.

(** The [while] loop of [tokenize]; every round consumes a character, so
    [fuel] beyond the length of the input is never used up. *)
Fixpoint tokenize_loop (fuel : nat) (st : State) (tokens : list Token)
  : option (list Token * State) :=
  match fuel with
  | O => None
  | S fuel' =>
      match rest st with
      | [] => Some (tokens, st)
      | _ :: _ =>
          let st1 := skipWhitespace st in
          match rest st1 with
          | [] => Some (tokens, st1)
          | _ :: _ =>
              if at_comment st1 then tokenize_loop fuel' (skipComment st1) tokens
              else
                match nextToken st1 with
                | (Some token, st2) => tokenize_loop fuel' st2 (tokens ++ [token])
                | (None, st2) => tokenize_loop fuel' st2 tokens
                end
          end
      end
  end.

Definition tokenize (input : string) : option (list Token) :=
  let chars := list_ascii_of_string input in
  match tokenize_loop (S (List.length chars)) (mkState chars 1 1) [] with
  | Some (tokens, st) => Some (tokens ++ [mkToken EOF "" (cur_line st) (cur_column st)])
  | None => None
  end.

End BrainRotTokenizer.

(** ** BrainRotParser *)

Module BrainRotParser.
Import Host.

(** A parser method run from a [position]: it returns, or throws, and
    either way leaves the parser at a position. *)
Inductive Result (A : Type) : Type :=
| Ok (a : A) (position : nat)
| Throw (message : string) (position : nat)
| OutOfFuel.

Arguments Ok {A} a position.
Arguments Throw {A} message position.
Arguments OutOfFuel {A}.

Definition Parser (A : Type) : Type := nat -> Result A.

Definition ret {A : Type} (a : A) : Parser A := fun position => Ok a position.

Definition throw {A : Type} (message : string) : Parser A :=
  fun position => Throw message position.

Definition out_of_fuel {A : Type} : Parser A := fun _ => OutOfFuel.

Definition bind {A B : Type} (m : Parser A) (k : A -> Parser B) : Parser B :=
  fun position =>
    match m position with
    | Ok a position' => k a position'
    | Throw message position' => Throw message position'
    | OutOfFuel => OutOfFuel
    end.

#[local] Notation "x <- m ;; k" := (bind m (fun x => k))
  (at level 100, m at next level, right associativity).
#[local] Notation "m ;;; k" := (bind m (fun _ => k))
  (at level 100, right associativity).

(** [a || b] on two calls: [b] runs only when [a] returned false. *)
Definition orelse (a b : Parser bool) : Parser bool :=
  x <- a ;; if x then ret true else b.

Section Tokens.

Variable tokens : list Token.

(** The host's TypeError for a property read on [undefined]. *)
Definition reading_undefined (property : string) : string :=
  "Cannot read properties of undefined (reading '" +:+ property +:+ "')".

(** [this.peek()] followed by the read of [property]. *)
Definition peek (property : string) : Parser Token :=
  fun position =>
    match nth_error tokens position with
    | Some token => Ok token position
    | None => Throw (reading_undefined property) position
    end.

Definition previous : Parser (option Token) :=
  fun position =>
    Ok (match position with
        | O => None
        | S p => nth_error tokens p
        end) position.

(** [token.value] for a token that may be [undefined]. *)
Definition value_of (token : option Token) : Parser string :=
  match token with
  | Some t => ret (value t)
  | None => throw (reading_undefined "value")
  end.

Definition isAtEnd : Parser bool :=
  token <- peek "type" ;; ret (TokenType_eqb (type token) EOF).

Definition advance : Parser (option Token) :=
  atEnd <- isAtEnd ;;
  (if atEnd then ret tt else fun position => Ok tt (S position)) ;;;
  previous.

Definition check (ty : TokenType) (val : option string) : Parser bool :=
  atEnd <- isAtEnd ;;
  if atEnd then ret false
  else
    token <- peek "type" ;;
    ret (TokenType_eqb (type token) ty
         && match val with
            | None => true
            | Some v => String.eqb (value token) v
            end).

(** [this.match(type, value)] *)
Definition match_ (ty : TokenType) (val : option string) : Parser bool :=
  found <- check ty val ;;
  if found then advance ;;; ret true else ret false.

Definition consume (ty : TokenType) (val : string) (message : string) : Parser (option Token) :=
  found <- (if String.eqb val "" then
              token <- peek "type" ;; ret (TokenType_eqb (type token) ty)
            else check ty (Some val)) ;;
  if found then advance
  else
    current <- peek "line" ;;
    throw (message +:+ " at line " +:+ string_of_nat (line current)
           +:+ ", column " +:+ string_of_nat (column current)).

(** [(callee as Identifier).name] *)
Definition callee_name (callee : ASTNode) : option string :=
  match callee with
  | Identifier name => Some name
  | CallExpression name _ => name
  | VariableDeclaration name _ => Some name
  | FunctionDeclaration name _ _ => Some name
  | _ => None
  end.

(** The loop shared by the six binary levels: while one of [operators]
    matches, parse a right operand and fold to the left. *)
Fixpoint binary_loop (fuel : nat) (operators : Parser bool) (operand : Parser ASTNode)
  (expr : ASTNode) : Parser ASTNode :=
  match fuel with
  | O => out_of_fuel
  | S fuel' =>
      found <- operators ;;
      if found then
        operator <- (token <- previous ;; value_of token) ;;
        right <- operand ;;
        binary_loop fuel' operators operand (BinaryExpression operator expr right)
      else ret expr
  end.

(** The [do ... while (match(COMMA))] of [functionDeclaration]. *)
Fixpoint parameters_loop (fuel : nat) (parameters : list string) : Parser (list string) :=
  match fuel with
  | O => out_of_fuel
  | S fuel' =>
      param <- consume IDENTIFIER "" "Expected parameter name" ;;
      name <- value_of param ;;
      more <- match_ DELIMITER (Some "COMMA") ;;
      if more then parameters_loop fuel' (parameters ++ [name])
      else ret (parameters ++ [name])
  end.

#[warnings="-non-full-mutual"]
Fixpoint statement (fuel : nat) : Parser ASTNode :=
  match fuel with
  | O => out_of_fuel
  | S fuel' =>
      isMold <- match_ KEYWORD (Some "MOLD") ;;
      if isMold then variableDeclaration fuel' else
      isRott <- match_ KEYWORD (Some "ROTT") ;;
      if isRott then printStatement fuel' else
      isSpin <- match_ KEYWORD (Some "SPIN") ;;
      if isSpin then whileLoop fuel' else
      isIfrot <- match_ KEYWORD (Some "IFROT") ;;
      if isIfrot then ifStatement fuel' else
      isFnrot <- match_ KEYWORD (Some "FNROT") ;;
      if isFnrot then functionDeclaration fuel' else
      expr <- expression fuel' ;;
      consume DELIMITER "SEMICOLON" "Expected ; after expression" ;;;
      ret expr
  end

with variableDeclaration (fuel : nat) : Parser ASTNode :=
  match fuel with
  | O => out_of_fuel
  | S fuel' =>
      name <- consume IDENTIFIER "" "Expected variable name" ;;
      consume OPERATOR "ASSIGN" "Expected = after variable name" ;;;
      val <- expression fuel' ;;
      consume DELIMITER "SEMICOLON" "Expected ; after variable declaration" ;;;
      name_value <- value_of name ;;
      ret (VariableDeclaration name_value val)
  end

with printStatement (fuel : nat) : Parser ASTNode :=
  match fuel with
  | O => out_of_fuel
  | S fuel' =>
      expr <- expression fuel' ;;
      consume DELIMITER "SEMICOLON" "Expected ; after print statement" ;;;
      ret (PrintStatement expr)
  end

with whileLoop (fuel : nat) : Parser ASTNode :=
  match fuel with
  | O => out_of_fuel
  | S fuel' =>
      condition <- expression fuel' ;;
      consume DELIMITER "LBRACE" "Expected { after while condition" ;;;
      body <- block fuel' [] ;;
      consume DELIMITER "RBRACE" "Expected } after while body" ;;;
      ret (WhileLoop condition body)
  end

with ifStatement (fuel : nat) : Parser ASTNode :=
  match fuel with
  | O => out_of_fuel
  | S fuel' =>
      condition <- expression fuel' ;;
      consume DELIMITER "LBRACE" "Expected { after if condition" ;;;
      thenBody <- block fuel' [] ;;
      consume DELIMITER "RBRACE" "Expected } after if body" ;;;
      hasElse <- match_ KEYWORD (Some "ELSED") ;;
      if hasElse then
        consume DELIMITER "LBRACE" "Expected { after else" ;;;
        elseBody <- block fuel' [] ;;
        consume DELIMITER "RBRACE" "Expected } after else body" ;;;
        ret (IfStatement condition thenBody (Some elseBody))
      else ret (IfStatement condition thenBody None)
  end

with functionDeclaration (fuel : nat) : Parser ASTNode :=
  match fuel with
  | O => out_of_fuel
  | S fuel' =>
      name <- consume IDENTIFIER "" "Expected function name" ;;
      consume DELIMITER "LPAREN" "Expected ( after function name" ;;;
      empty <- check DELIMITER (Some "RPAREN") ;;
      parameters <- (if empty then ret [] else parameters_loop fuel' []) ;;
      consume DELIMITER "RPAREN" "Expected ) after parameters" ;;;
      consume DELIMITER "LBRACE" "Expected { before function body" ;;;
      body <- block fuel' [] ;;
      consume DELIMITER "RBRACE" "Expected } after function body" ;;;
      name_value <- value_of name ;;
      ret (FunctionDeclaration name_value parameters body)
  end

(** [while (!check(RBRACE) && !isAtEnd()) body.push(statement())] *)
with block (fuel : nat) (body : list ASTNode) : Parser (list ASTNode) :=
  match fuel with
  | O => out_of_fuel
  | S fuel' =>
      closing <- check DELIMITER (Some "RBRACE") ;;
      atEnd <- (if closing then ret true else isAtEnd) ;;
      if atEnd then ret body
      else
        stmt <- statement fuel' ;;
        block fuel' (body ++ [stmt])
  end

with expression (fuel : nat) : Parser ASTNode :=
  match fuel with
  | O => out_of_fuel
  | S fuel' => logicalOr fuel'
  end

with logicalOr (fuel : nat) : Parser ASTNode :=
  match fuel with
  | O => out_of_fuel
  | S fuel' =>
      expr <- logicalAnd fuel' ;;
      binary_loop fuel' (match_ KEYWORD (Some "ORROT")) (logicalAnd fuel') expr
  end

with logicalAnd (fuel : nat) : Parser ASTNode :=
  match fuel with
  | O => out_of_fuel
  | S fuel' =>
      expr <- equality fuel' ;;
      binary_loop fuel' (match_ KEYWORD (Some "ANDROT")) (equality fuel') expr
  end

with equality (fuel : nat) : Parser ASTNode :=
  match fuel with
  | O => out_of_fuel
  | S fuel' =>
      expr <- comparison fuel' ;;
      binary_loop fuel'
        (orelse (match_ OPERATOR (Some "EQ")) (match_ OPERATOR (Some "NEQ")))
        (comparison fuel') expr
  end

with comparison (fuel : nat) : Parser ASTNode :=
  match fuel with
  | O => out_of_fuel
  | S fuel' =>
      expr <- term fuel' ;;
      binary_loop fuel'
        (orelse (match_ OPERATOR (Some "GT")) (match_ OPERATOR (Some "LT")))
        (term fuel') expr
  end

with term (fuel : nat) : Parser ASTNode :=
  match fuel with
  | O => out_of_fuel
  | S fuel' =>
      expr <- factor fuel' ;;
      binary_loop fuel'
        (orelse (match_ OPERATOR (Some "PLUS")) (match_ OPERATOR (Some "MINUS")))
        (factor fuel') expr
  end

with factor (fuel : nat) : Parser ASTNode :=
  match fuel with
  | O => out_of_fuel
  | S fuel' =>
      expr <- unary fuel' ;;
      binary_loop fuel'
        (orelse (match_ OPERATOR (Some "MULTIPLY")) (match_ OPERATOR (Some "DIVIDE")))
        (unary fuel') expr
  end

with unary (fuel : nat) : Parser ASTNode :=
  match fuel with
  | O => out_of_fuel
  | S fuel' =>
      found <- orelse (match_ OPERATOR (Some "NOT"))
                 (orelse (match_ KEYWORD (Some "NOTROT")) (match_ OPERATOR (Some "MINUS"))) ;;
      if found then
        operator <- (token <- previous ;; value_of token) ;;
        right <- unary fuel' ;;
        ret (UnaryExpression operator right)
      else call fuel'
  end

with call (fuel : nat) : Parser ASTNode :=
  match fuel with
  | O => out_of_fuel
  | S fuel' =>
      expr <- primary fuel' ;;
      call_loop fuel' expr
  end

(** [while (match(LPAREN)) expr = finishCall(expr)] *)
with call_loop (fuel : nat) (expr : ASTNode) : Parser ASTNode :=
  match fuel with
  | O => out_of_fuel
  | S fuel' =>
      found <- match_ DELIMITER (Some "LPAREN") ;;
      if found then
        expr' <- finishCall fuel' expr ;;
        call_loop fuel' expr'
      else ret expr
  end

with finishCall (fuel : nat) (callee : ASTNode) : Parser ASTNode :=
  match fuel with
  | O => out_of_fuel
  | S fuel' =>
      empty <- check DELIMITER (Some "RPAREN") ;;
      args <- (if empty then ret [] else arguments_loop fuel' []) ;;
      consume DELIMITER "RPAREN" "Expected ) after arguments" ;;;
      ret (CallExpression (callee_name callee) args)
  end

(** [do args.push(expression()) while (match(COMMA))] *)
with arguments_loop (fuel : nat) (args : list ASTNode) : Parser (list ASTNode) :=
  match fuel with
  | O => out_of_fuel
  | S fuel' =>
      arg <- expression fuel' ;;
      more <- match_ DELIMITER (Some "COMMA") ;;
      if more then arguments_loop fuel' (args ++ [arg])
      else ret (args ++ [arg])
  end

with primary (fuel : nat) : Parser ASTNode :=
  match fuel with
  | O => out_of_fuel
  | S fuel' =>
      isNumber <- match_ NUMBER None ;;
      if isNumber then
        val <- (token <- previous ;; value_of token) ;;
        ret (Literal (VNumber (if BrainRotTokenizer.includes "." val
                               then parseFloat val else parseInt val)))
      else
      isString <- match_ STRING None ;;
      if isString then
        val <- (token <- previous ;; value_of token) ;;
        ret (Literal (VString val))
      else
      isIdentifier <- match_ IDENTIFIER None ;;
      if isIdentifier then
        name <- (token <- previous ;; value_of token) ;;
        ret (Identifier name)
      else
      isParen <- match_ DELIMITER (Some "LPAREN") ;;
      if isParen then
        expr <- expression fuel' ;;
        consume DELIMITER "RPAREN" "Expected ) after expression" ;;;
        ret expr
      else
        token <- peek "value" ;;
        throw ("Unexpected token: " +:+ value token)
  end.

Definition statement_keywords : list string := ["MOLD"; "ROTT"; "SPIN"; "IFROT"; "FNROT"].

Definition list_includes (l : list string) (s : string) : bool :=
  existsb (String.eqb s) l.

(** The [while (!isAtEnd())] loop of [synchronize]. *)
Fixpoint synchronize_loop (fuel : nat) : Parser unit :=
  match fuel with
  | O => out_of_fuel
  | S fuel' =>
      atEnd <- isAtEnd ;;
      if atEnd then ret tt
      else
        prev <- (token <- previous ;; value_of token) ;;
        if String.eqb prev "SEMICOLON" then ret tt
        else
          next <- peek "value" ;;
          if list_includes statement_keywords (value next) then ret tt
          else advance ;;; synchronize_loop fuel'
  end.

Definition synchronize (fuel : nat) : Parser unit :=
  advance ;;; synchronize_loop fuel.

(** The loop of [parse]: a statement that throws is dropped, with its
    error, and parsing resumes where [synchronize] stops. *)
Fixpoint parse_loop (fuel : nat) (statements : list ASTNode) : Parser (list ASTNode) :=
  match fuel with
  | O => out_of_fuel
  | S fuel' =>
      atEnd <- isAtEnd ;;
      if atEnd then ret statements
      else
        fun position =>
          match statement fuel' position with
          | Ok stmt position' => parse_loop fuel' (statements ++ [stmt]) position'
          | Throw _ position' =>
              (synchronize fuel' ;;; parse_loop fuel' statements) position'
          | OutOfFuel => OutOfFuel
          end
  end.

Definition parse (fuel : nat) : Result (list ASTNode) := parse_loop fuel [] 0.

End Tokens.

End BrainRotParser.

(** ** BrainRotInterpreter *)

Module BrainRotError.

Inductive Kind : Type := SYNTAX | RUNTIME | TYPE.

Record t : Type := mk {
  message : string;
  line : nat;
  column : nat;
  type : Kind
}.

End BrainRotError.

(** What [interpret] and [executeBrainRot] return. *)
Module ExecutionResult.

Record t : Type := mk {
  output : list string;
  error : option BrainRotError.t
}.

End ExecutionResult.

(** How a call of an entry point ends: it returns, an exception escapes
    it, or the fuel given to the model ran out first. *)
Inductive Completion (A : Type) : Type :=
| Normal (a : A)
| Abrupt (message : string)
| Unfinished.

Arguments Normal {A} a.
Arguments Abrupt {A} message.
Arguments Unfinished {A}.

Module BrainRotInterpreter.
Import Host.

(** The interpreter's fields. A function is stored with its parameters
    and its body. *)
Record State : Type := mkState {
  variables : gmap string Value;
  functions : gmap string (list string * list ASTNode);
  output : list string
}.

Inductive Outcome (A : Type) : Type :=
| Return (a : A) (st : State)
| Throw (message : string) (st : State)
| OutOfFuel.

Arguments Return {A} a st.
Arguments Throw {A} message st.
Arguments OutOfFuel {A}.

Definition Interp (A : Type) : Type := State -> Outcome A.

Definition ret {A : Type} (a : A) : Interp A := fun st => Return a st.

Definition throw {A : Type} (message : string) : Interp A := fun st => Throw message st.

Definition out_of_fuel {A : Type} : Interp A := fun _ => OutOfFuel.

Definition bind {A B : Type} (m : Interp A) (k : A -> Interp B) : Interp B :=
  fun st =>
    match m st with
    | Return a st' => k a st'
    | Throw message st' => Throw message st'
    | OutOfFuel => OutOfFuel
    end.

#[local] Notation "x <- m ;; k" := (bind m (fun x => k))
  (at level 100, m at next level, right associativity).
#[local] Notation "m ;;; k" := (bind m (fun _ => k))
  (at level 100, right associativity).

Definition get_variables : Interp (gmap string Value) := fun st => Return (variables st) st.

(** [this.variables = vars] *)
Definition set_variables (vars : gmap string Value) : Interp unit :=
  fun st => Return tt (mkState vars (functions st) (output st)).

(** [this.variables.set(name, v)] *)
Definition variables_set (name : string) (v : Value) : Interp unit :=
  fun st => Return tt (mkState (<[name := v]> (variables st)) (functions st) (output st)).

(** [this.functions.set(name, decl)] *)
Definition functions_set (name : string) (decl : list string * list ASTNode) : Interp unit :=
  fun st => Return tt (mkState (variables st) (<[name := decl]> (functions st)) (output st)).

(** [this.output.push(text)] *)
Definition output_push (text : string) : Interp unit :=
  fun st => Return tt (mkState (variables st) (functions st) (output st ++ [text])).

Definition isTruthy (v : Value) : bool :=
  match v with
  | VNull | VUndefined => false
  | VBoolean b => b
  | VNumber n => negb (PrimFloat.eqb n zero)
  | VString s => negb (String.eqb s "")
  end.

(** The [switch (binExpr.operator)] of [evaluate]; [None] is its [default]. *)
Definition binary_operator (operator : string) (l r : Value) : option Value :=
  if String.eqb operator "PLUS" then Some (js_add l r)
  else if String.eqb operator "MINUS" then Some (js_sub l r)
  else if String.eqb operator "MULTIPLY" then Some (js_mul l r)
  else if String.eqb operator "DIVIDE" then Some (js_div l r)
  else if String.eqb operator "GT" then Some (js_gt l r)
  else if String.eqb operator "LT" then Some (js_lt l r)
  else if String.eqb operator "EQ" then Some (VBoolean (strict_equals l r))
  else if String.eqb operator "NEQ" then Some (VBoolean (negb (strict_equals l r)))
  else if String.eqb operator "ANDROT" then Some (VBoolean (isTruthy l && isTruthy r))
  else if String.eqb operator "ORROT" then Some (VBoolean (isTruthy l || isTruthy r))
  else None.

(** [for (const stmt of stmts) result = exec(stmt)], from a first [result]. *)
Fixpoint run_statements (exec : ASTNode -> Interp Value) (stmts : list ASTNode)
  (result : Value) : Interp Value :=
  match stmts with
  | [] => ret result
  | stmt :: stmts' => r <- exec stmt ;; run_statements exec stmts' r
  end.

(** The parameter loop of a call: parameter [i] is bound to the value of
    argument [i], evaluated then, or to [undefined] when there is none. *)
Fixpoint bind_parameters (eval : ASTNode -> Interp Value) (parameters : list string)
  (arguments : list ASTNode) : Interp unit :=
  match parameters with
  | [] => ret tt
  | parameter :: parameters' =>
      match arguments with
      | argument :: arguments' =>
          paramValue <- eval argument ;;
          variables_set parameter paramValue ;;;
          bind_parameters eval parameters' arguments'
      | [] =>
          variables_set parameter VUndefined ;;;
          bind_parameters eval parameters' []
      end
  end.

(** [${callExpr.name}] *)
Definition name_text (name : option string) : string :=
  match name with
  | Some n => n
  | None => "undefined"
  end.

Definition functions_get (name : option string) (st : State)
  : option (list string * list ASTNode) :=
  match name with
  | Some n => functions st !! n
  | None => None
  end.

Fixpoint execute (fuel : nat) (node : ASTNode) : Interp Value :=
  match fuel with
  | O => out_of_fuel
  | S fuel' =>
      match node with
      | VariableDeclaration name val =>
          v <- evaluate fuel' val ;;
          variables_set name v ;;;
          ret v
      | PrintStatement expression =>
          result <- evaluate fuel' expression ;;
          output_push (ToString result) ;;;
          ret result
      | WhileLoop condition body =>
          while_loop fuel' condition body ;;;
          ret VNull
      | IfStatement condition thenBody elseBody =>
          c <- evaluate fuel' condition ;;
          if isTruthy c then
            run_statements (execute fuel') thenBody VUndefined ;;; ret VNull
          else
            match elseBody with
            | Some stmts => run_statements (execute fuel') stmts VUndefined ;;; ret VNull
            | None => ret VNull
            end
      | FunctionDeclaration name parameters body =>
          functions_set name (parameters, body) ;;;
          ret VNull
      | _ => evaluate fuel' node
      end
  end

with evaluate (fuel : nat) (expr : ASTNode) : Interp Value :=
  match fuel with
  | O => out_of_fuel
  | S fuel' =>
      match expr with
      | Literal v => ret v
      | Identifier name =>
          fun st =>
            match variables st !! name with
            | Some v => Return v st
            | None => Throw ("Undefined variable: " +:+ name) st
            end
      | BinaryExpression operator l r =>
          lv <- evaluate fuel' l ;;
          rv <- evaluate fuel' r ;;
          match binary_operator operator lv rv with
          | Some v => ret v
          | None => throw ("Unknown operator: " +:+ operator)
          end
      | CallExpression name arguments =>
          fun st =>
            match functions_get name st with
            | None => Throw ("Undefined function: " +:+ name_text name) st
            | Some (parameters, body) =>
                (prevVars <- get_variables ;;
                 bind_parameters (evaluate fuel') parameters arguments ;;;
                 result <- run_statements (execute fuel') body VUndefined ;;
                 set_variables prevVars ;;;
                 ret result) st
            end
      | _ => throw ("Unknown expression type: " +:+ node_type expr)
      end
  end

(** [while (isTruthy(evaluate(condition))) for (stmt of body) execute(stmt)] *)
with while_loop (fuel : nat) (condition : ASTNode) (body : list ASTNode) : Interp unit :=
  match fuel with
  | O => out_of_fuel
  | S fuel' =>
      c <- evaluate fuel' condition ;;
      if isTruthy c then
        run_statements (execute fuel') body VUndefined ;;;
        while_loop fuel' condition body
      else ret tt
  end.

(** A fresh interpreter. *)
Definition initial : State := mkState ∅ ∅ [].

Definition runtime_error (message : string) : BrainRotError.t :=
  BrainRotError.mk ("Brain rot detected: " +:+ message) 0 0 BrainRotError.RUNTIME.

(** [interpret(ast)] on an interpreter in state [st]: the [try] around the
    statement loop turns every exception into the RUNTIME descriptor. *)
Definition interpret (fuel : nat) (ast : list ASTNode) (st : State)
  : Completion ExecutionResult.t :=
  match run_statements (execute fuel) ast VUndefined
          (mkState (variables st) (functions st) []) with
  | Return _ st' => Normal (ExecutionResult.mk (output st') None)
  | Throw message st' =>
      Normal (ExecutionResult.mk (output st') (Some (runtime_error message)))
  | OutOfFuel => Unfinished
  end.

End BrainRotInterpreter.

(** ** The entry point *)

Definition syntax_error (message : string) : BrainRotError.t :=
  BrainRotError.mk ("Syntax rotted too hard: " +:+ message) 0 0 BrainRotError.SYNTAX.

(** The body of the [try] of [executeBrainRot]. *)
Definition run_pipeline (fuel : nat) (code : string) : Completion ExecutionResult.t :=
  match BrainRotTokenizer.tokenize code with
  | None => Unfinished
  | Some tokens =>
      match BrainRotParser.parse tokens fuel with
      | BrainRotParser.Ok ast _ =>
          BrainRotInterpreter.interpret fuel ast BrainRotInterpreter.initial
      | BrainRotParser.Throw message _ => Abrupt message
      | BrainRotParser.OutOfFuel => Unfinished
      end
  end.

(** [try { body } catch (error) { handler(error.message) }] *)
Definition try_catch {A : Type} (body : Completion A) (handler : string -> Completion A)
  : Completion A :=
  match body with
  | Abrupt message => handler message
  | _ => body
  end.

Definition executeBrainRot (fuel : nat) (code : string) : Completion ExecutionResult.t :=
  try_catch (run_pipeline fuel code)
    (fun message => Normal (ExecutionResult.mk [] (Some (syntax_error message)))).

(** * The vocabulary of the properties *)

(** ** Runs and fuel *)

(** [o1] is [o2], unless the run behind [o1] was cut short. *)
Definition below {A : Type} (o1 o2 : BrainRotInterpreter.Outcome A) : Prop :=
  o1 = BrainRotInterpreter.OutOfFuel \/ o1 = o2.

(** The same for a result of the parser. *)
Definition result_below {A : Type} (r1 r2 : BrainRotParser.Result A) : Prop :=
  r1 = BrainRotParser.OutOfFuel \/ r1 = r2.

(** Every method of the grammar, at fuel [n] and at fuel [m]. *)
Definition grammar_below (tokens : list Token) (n m : nat) : Prop :=
  (forall position,
      result_below (BrainRotParser.statement tokens n position)
                   (BrainRotParser.statement tokens m position))
  /\ (forall position,
         result_below (BrainRotParser.variableDeclaration tokens n position)
                      (BrainRotParser.variableDeclaration tokens m position))
  /\ (forall position,
         result_below (BrainRotParser.printStatement tokens n position)
                      (BrainRotParser.printStatement tokens m position))
  /\ (forall position,
         result_below (BrainRotParser.whileLoop tokens n position)
                      (BrainRotParser.whileLoop tokens m position))
  /\ (forall position,
         result_below (BrainRotParser.ifStatement tokens n position)
                      (BrainRotParser.ifStatement tokens m position))
  /\ (forall position,
         result_below (BrainRotParser.functionDeclaration tokens n position)
                      (BrainRotParser.functionDeclaration tokens m position))
  /\ (forall body position,
         result_below (BrainRotParser.block tokens n body position)
                      (BrainRotParser.block tokens m body position))
  /\ (forall position,
         result_below (BrainRotParser.expression tokens n position)
                      (BrainRotParser.expression tokens m position))
  /\ (forall position,
         result_below (BrainRotParser.logicalOr tokens n position)
                      (BrainRotParser.logicalOr tokens m position))
  /\ (forall position,
         result_below (BrainRotParser.logicalAnd tokens n position)
                      (BrainRotParser.logicalAnd tokens m position))
  /\ (forall position,
         result_below (BrainRotParser.equality tokens n position)
                      (BrainRotParser.equality tokens m position))
  /\ (forall position,
         result_below (BrainRotParser.comparison tokens n position)
                      (BrainRotParser.comparison tokens m position))
  /\ (forall position,
         result_below (BrainRotParser.term tokens n position)
                      (BrainRotParser.term tokens m position))
  /\ (forall position,
         result_below (BrainRotParser.factor tokens n position)
                      (BrainRotParser.factor tokens m position))
  /\ (forall position,
         result_below (BrainRotParser.unary tokens n position)
                      (BrainRotParser.unary tokens m position))
  /\ (forall position,
         result_below (BrainRotParser.call tokens n position)
                      (BrainRotParser.call tokens m position))
  /\ (forall expr position,
         result_below (BrainRotParser.call_loop tokens n expr position)
                      (BrainRotParser.call_loop tokens m expr position))
  /\ (forall callee position,
         result_below (BrainRotParser.finishCall tokens n callee position)
                      (BrainRotParser.finishCall tokens m callee position))
  /\ (forall args position,
         result_below (BrainRotParser.arguments_loop tokens n args position)
                      (BrainRotParser.arguments_loop tokens m args position))
  /\ (forall position,
         result_below (BrainRotParser.primary tokens n position)
                      (BrainRotParser.primary tokens m position)).

(** Runs of the evaluator that finish, whatever fuel it takes. *)
Definition evaluates (expr : ASTNode) (st : BrainRotInterpreter.State)
  (out : BrainRotInterpreter.Outcome Host.Value) : Prop :=
  exists fuel,
    BrainRotInterpreter.evaluate fuel expr st = out /\ out <> BrainRotInterpreter.OutOfFuel.

Definition executes (node : ASTNode) (st : BrainRotInterpreter.State)
  (out : BrainRotInterpreter.Outcome Host.Value) : Prop :=
  exists fuel,
    BrainRotInterpreter.execute fuel node st = out /\ out <> BrainRotInterpreter.OutOfFuel.

(** The statements [stmts] run in order from [st], [result] being the value
    of the last one. *)
Definition runs (stmts : list ASTNode) (result : Host.Value) (st : BrainRotInterpreter.State)
  (out : BrainRotInterpreter.Outcome Host.Value) : Prop :=
  exists fuel,
    BrainRotInterpreter.run_statements (BrainRotInterpreter.execute fuel) stmts result st = out
    /\ out <> BrainRotInterpreter.OutOfFuel.

(** The parameter loop of a call of a function with [parameters]. *)
Definition binds (parameters : list string) (arguments : list ASTNode)
  (st : BrainRotInterpreter.State) (out : BrainRotInterpreter.Outcome unit) : Prop :=
  exists fuel,
    BrainRotInterpreter.bind_parameters (BrainRotInterpreter.evaluate fuel)
      parameters arguments st = out
    /\ out <> BrainRotInterpreter.OutOfFuel.

(** [executeBrainRot(code)] returns [r]: it does with enough fuel, and
    with any more. *)
Definition returns (code : string) (r : ExecutionResult.t) : Prop :=
  exists n, forall m, n <= m -> executeBrainRot m code = Normal r.

(** The lines of a run without an error. *)
Definition prints (code : string) (lines : list string) : Prop :=
  returns code (ExecutionResult.mk lines None).

(** A run that ended with a runtime error. *)
Definition failed (lines : list string) (message : string) : ExecutionResult.t :=
  ExecutionResult.mk lines (Some (BrainRotInterpreter.runtime_error message)).

(** ** Tokens *)

Definition not_EOF (t : Token) : Prop := type t <> EOF.

(** The characters [nextToken] has a rule for. *)
Definition recognized (c : ascii) : bool :=
  Host.is_digit c || Ascii.eqb c BrainRotTokenizer.double_quote || Ascii.eqb c "'"
  || BrainRotTokenizer.is_identifier_start c
  || match BrainRotTokenizer.operators_get BrainRotTokenizer.operators c with
     | Some _ => true
     | None => false
     end.

Definition tokens_of (code : string) : list Token :=
  match BrainRotTokenizer.tokenize code with
  | Some tokens => tokens
  | None => []
  end.

(** The token before position [i]. *)
Definition token_before (tokens : list Token) (i : nat) : option Token :=
  match i with
  | O => None
  | S p => nth_error tokens p
  end.

(** [synchronize] steps over position [i]: the token there is not the end
    of the input, the token before is not [;] and the token is not a
    statement keyword. *)
Definition skipped (tokens : list Token) (i : nat) : bool :=
  match nth_error tokens i, token_before tokens i with
  | Some t, Some p =>
      negb (TokenType_eqb (type t) EOF)
      && negb (String.eqb (value p) "SEMICOLON")
      && negb (BrainRotParser.list_includes BrainRotParser.statement_keywords (value t))
  | _, _ => false
  end.

(** [synchronize] stops at position [i]. *)
Definition at_boundary (tokens : list Token) (i : nat) : bool :=
  match nth_error tokens i, token_before tokens i with
  | Some t, Some p =>
      TokenType_eqb (type t) EOF
      || String.eqb (value p) "SEMICOLON"
      || BrainRotParser.list_includes BrainRotParser.statement_keywords (value t)
  | _, _ => false
  end.

(** ** The parser on a token array of the tokenizer *)

(** The token test of [check(type, value)] on a token. *)
Definition accepts (ty : TokenType) (val : option string) (t : Token) : bool :=
  negb (TokenType_eqb (type t) EOF)
  && (TokenType_eqb (type t) ty
      && match val with
         | None => true
         | Some v => String.eqb (value t) v
         end).

(** A token array as [tokenize] builds it: an EOF token at index [last],
    and no EOF token before it. *)
Definition well_formed (tokens : list Token) (last : nat) : Prop :=
  (exists t, nth_error tokens last = Some t /\ type t = EOF)
  /\ (forall i, i < last -> exists t, nth_error tokens i = Some t /\ type t <> EOF).

(** Fuel that every token is worth, and the rank of each method: a method
    asks for fuel below [fuel_per_token * remaining + rank]. *)
Definition fuel_per_token : nat := 32.

(** What a parser method does from a position up to [last], run with
    [fuel]: it ends at a position up to [last], further on when [strict],
    and it gives up only when the fuel is short. *)
Definition within (tokens : list Token) (last : nat) (strict : bool) (fuel rank : nat)
  {A : Type} (m : BrainRotParser.Parser A) : Prop :=
  forall pos, pos <= last ->
    match m pos with
    | BrainRotParser.Ok _ pos' => (if strict then pos < pos' else pos <= pos') /\ pos' <= last
    | BrainRotParser.Throw _ pos' => pos <= pos' /\ pos' <= last
    | BrainRotParser.OutOfFuel => fuel < fuel_per_token * (last - pos) + rank
    end.

(** A token test: it consumes the token it accepts. *)
Definition token_test (last : nat) (test : BrainRotParser.Parser bool) : Prop :=
  forall pos, pos <= last ->
    (test pos = BrainRotParser.Ok true (S pos) /\ pos < last)
    \/ test pos = BrainRotParser.Ok false pos.

(** The rank of every method of the grammar. *)
Definition grammar_within (tokens : list Token) (last n : nat) : Prop :=
  within tokens last true n 15 (BrainRotParser.statement tokens n)
  /\ within tokens last true n 14 (BrainRotParser.variableDeclaration tokens n)
  /\ within tokens last true n 14 (BrainRotParser.printStatement tokens n)
  /\ within tokens last true n 14 (BrainRotParser.whileLoop tokens n)
  /\ within tokens last true n 14 (BrainRotParser.ifStatement tokens n)
  /\ within tokens last true n 14 (BrainRotParser.functionDeclaration tokens n)
  /\ (forall body, within tokens last false n 16 (BrainRotParser.block tokens n body))
  /\ within tokens last true n 10 (BrainRotParser.expression tokens n)
  /\ within tokens last true n 9 (BrainRotParser.logicalOr tokens n)
  /\ within tokens last true n 8 (BrainRotParser.logicalAnd tokens n)
  /\ within tokens last true n 7 (BrainRotParser.equality tokens n)
  /\ within tokens last true n 6 (BrainRotParser.comparison tokens n)
  /\ within tokens last true n 5 (BrainRotParser.term tokens n)
  /\ within tokens last true n 4 (BrainRotParser.factor tokens n)
  /\ within tokens last true n 3 (BrainRotParser.unary tokens n)
  /\ within tokens last true n 2 (BrainRotParser.call tokens n)
  /\ (forall expr, within tokens last false n 13 (BrainRotParser.call_loop tokens n expr))
  /\ (forall callee, within tokens last true n 12 (BrainRotParser.finishCall tokens n callee))
  /\ (forall args, within tokens last true n 11 (BrainRotParser.arguments_loop tokens n args))
  /\ within tokens last true n 1 (BrainRotParser.primary tokens n).

(** ** Results and values *)

Definition descriptor_ok (e : BrainRotError.t) : Prop :=
  BrainRotError.line e = 0 /\ BrainRotError.column e = 0
  /\ (BrainRotError.type e = BrainRotError.SYNTAX
      \/ BrainRotError.type e = BrainRotError.RUNTIME).

Definition result_ok (r : ExecutionResult.t) : Prop :=
  match ExecutionResult.error r with
  | None => True
  | Some e => descriptor_ok e
  end.

(** AND for [ANDROT], OR for [ORROT]. *)
Definition logical (operator : string) (a b : bool) : bool :=
  if String.eqb operator "ANDROT" then a && b else a || b.

(** What [execute] returns for each kind of statement. *)
Definition statement_value (node : ASTNode) (st : BrainRotInterpreter.State)
  (v : Host.Value) (st' : BrainRotInterpreter.State) : Prop :=
  match node with
  | VariableDeclaration _ e | PrintStatement e =>
      exists st1, evaluates e st (BrainRotInterpreter.Return v st1)
  | WhileLoop _ _ | IfStatement _ _ _ | FunctionDeclaration _ _ _ => v = Host.VNull
  | _ => evaluates node st (BrainRotInterpreter.Return v st')
  end.

(** Every function of [st] is still a function of [st']. *)
Definition functions_kept (st st' : BrainRotInterpreter.State) : Prop :=
  forall g,
    is_Some (BrainRotInterpreter.functions st !! g) ->
    is_Some (BrainRotInterpreter.functions st' !! g).

Definition keeps {A : Type} (m : BrainRotInterpreter.Interp A) : Prop :=
  forall st a st', m st = BrainRotInterpreter.Return a st' -> functions_kept st st'.

(** ** Programs and states *)

(** Source text: a double-quoted string literal, and lines joined by
    newlines. *)
Definition quoted (s : string) : string :=
  String BrainRotTokenizer.double_quote (s +:+ String BrainRotTokenizer.double_quote "").

Fixpoint unlines (lines : list string) : string :=
  match lines with
  | [] => ""
  | [l] => l
  | l :: lines' => l +:+ String BrainRotTokenizer.newline (unlines lines')
  end.

(** The program of the scope rollback property. *)
Definition scope_rollback : string :=
  "mold a = 1; fnrot f() { mold a = 99; } f(); rott a;".

(** A state in which [f] is declared and [a] is 1, and the state a call of
    [f] leaves: [a] is 1 again, the line printed by the body stays. *)
Definition before_call_of_f : BrainRotInterpreter.State :=
  BrainRotInterpreter.mkState
    (<["a" := Host.VNumber 1]> ∅)
    (<["f" := ([], [VariableDeclaration "a" (Literal (Host.VNumber 99));
                    PrintStatement (Identifier "a")])]> ∅)
    [].

Definition after_call_of_f : BrainRotInterpreter.State :=
  BrainRotInterpreter.mkState
    (BrainRotInterpreter.variables before_call_of_f)
    (BrainRotInterpreter.functions before_call_of_f)
    ["99"].

(** [ifrot notrot <operand> { rott "yes"; }] *)
Definition truthiness_program (operand : string) : string :=
  "ifrot notrot " +:+ operand +:+ " { rott " +:+ quoted "yes" +:+ "; }".

(** [EXAMPLE_PROGRAMS.fibonacci] of the IDE. *)
Definition fibonacci : string :=
  unlines
    [ "#rot Fibonacci madness";
      "fnrot fib(n) {";
      "  ifrot n < 2 {";
      "    rott n;";
      "  }";
      "  elsed {";
      "    rott fib(n - 1) + fib(n - 2);";
      "  }";
      "}";
      "";
      "mold i = 0;";
      "spin i < 8 {";
      "  fib(i);";
      "  mold i = i + 1;";
      "}" ].

(** The lines one call [fib(n)] prints: the body is an if statement, so the
    call returns [null]; for [2 <= n] the two inner calls print their own
    lines and the sum printed is [null + null], that is 0. *)
Fixpoint fib_lines (n : nat) : list string :=
  match n with
  | O => ["0"]
  | S p =>
      match p with
      | O => ["1"]
      | S k => fib_lines p ++ fib_lines k ++ ["0"]
      end
  end.

(** [fnrot f() { mold a = 99; } rott f();] *)
Definition declaration_result : string := "fnrot f() { mold a = 99; } rott f();".

(** A state in which the body of [f] is the one declaration [mold a = 99;]. *)
Definition f_declares : BrainRotInterpreter.State :=
  BrainRotInterpreter.mkState
    (<["a" := Host.VNumber 1]> ∅)
    (<["f" := ([], [VariableDeclaration "a" (Literal (Host.VNumber 99))])]> ∅)
    [].

(** [g] declares [b]; [f] calls [g] and then reads [b]. *)
Definition inner_call_program : string :=
  "fnrot g() { mold b = 2; } fnrot f() { g(); rott b; } f();".

(** [f] declares [a] and calls [g], which reads [a]. *)
Definition shared_environment_program : string :=
  "fnrot g() { rott a; } fnrot f() { mold a = 7; g(); } f();".

(** The state in which the body of [f] of [inner_call_program] runs: [g]
    is declared and there is no variable. *)
Definition g_declared : BrainRotInterpreter.State :=
  BrainRotInterpreter.mkState
    ∅
    (<["g" := ([], [VariableDeclaration "b" (Literal (Host.VNumber 2))])]> ∅)
    [].

(** The state in which the body of [f] of [shared_environment_program]
    calls [g]: [a] is 7 and the body of [g] prints [a]. *)
Definition g_reads_a : BrainRotInterpreter.State :=
  BrainRotInterpreter.mkState
    (<["a" := Host.VNumber 7]> ∅)
    (<["g" := ([], [PrintStatement (Identifier "a")])]> ∅)
    [].

(** What a call made in [st] ends with, when its parameter loop has
    returned and its body has ended with [out_body]: a body that returns
    hands over its value with the variables of [st] put back; a body that
    throws hands over its exception, and nothing is put back. *)
Definition after_call (st : BrainRotInterpreter.State)
  (out_body : BrainRotInterpreter.Outcome Host.Value)
  : BrainRotInterpreter.Outcome Host.Value :=
  match out_body with
  | BrainRotInterpreter.Return v st2 =>
      BrainRotInterpreter.Return v
        (BrainRotInterpreter.mkState (BrainRotInterpreter.variables st)
           (BrainRotInterpreter.functions st2) (BrainRotInterpreter.output st2))
  | other => other
  end.

(** [f] declares [g]; [g] is called after [f()] has returned. *)
Definition declared_in_call : string :=
  "fnrot f() { fnrot g() { rott " +:+ quoted "g" +:+ "; } } f(); g();".

(** The body of [g], and a state in which the body of [f] is the
    declaration of [g]; then the state a call of [f] leaves. *)
Definition body_of_g : list ASTNode := [PrintStatement (Literal (Host.VString "g"))].

Definition f_declares_g : BrainRotInterpreter.State :=
  BrainRotInterpreter.mkState
    (<["a" := Host.VNumber 1]> ∅)
    (<["f" := ([], [FunctionDeclaration "g" [] body_of_g])]> ∅)
    [].

Definition f_declares_g_called : BrainRotInterpreter.State :=
  BrainRotInterpreter.mkState
    (BrainRotInterpreter.variables f_declares_g)
    (<["g" := ([], body_of_g)]> (BrainRotInterpreter.functions f_declares_g))
    [].

(** [EXAMPLE_PROGRAMS.logic] of the IDE. *)
Definition logic : string :=
  unlines
    [ "#rot Logic rotting";
      "mold a = 5;";
      "mold b = 10;";
      "";
      "ifrot a > b orrot b == 10 {";
      "  rott " +:+ quoted "Brain rot detected!" +:+ ";";
      "}";
      "";
      "ifrot a < b androt b > 8 {";
      "  rott " +:+ quoted "Double brain rot!" +:+ ";";
      "}";
      "";
      "ifrot notrot a == b {";
      "  rott " +:+ quoted "Not equal rot!" +:+ ";";
      "}" ].

(** [EXAMPLE_PROGRAMS.countdown] of the IDE. *)
Definition countdown : string :=
  unlines
    [ "#rot Countdown chaos";
      "mold x = 5;";
      "spin x > 0 {";
      "  rott " +:+ quoted "Countdown: " +:+ " + x;";
      "  mold x = x - 1;";
      "}";
      "rott " +:+ quoted "BRAIN ROT COMPLETE!" +:+ ";" ].

(** A declaration without its terminating semicolon, then [rott "ok";]. *)
Definition missing_semicolon : string := "mold x = 1 rott " +:+ quoted "ok" +:+ ";".

(** A declaration without its variable name, then [rott "ok";]. *)
Definition missing_name : string := "mold = 5; rott " +:+ quoted "ok" +:+ ";".

(** ** Runs of the evaluator: output, variables and arguments *)

(** The state an outcome of the evaluator ends in. *)
Definition final_state {A : Type} (out : BrainRotInterpreter.Outcome A)
  : option BrainRotInterpreter.State :=
  match out with
  | BrainRotInterpreter.Return _ st | BrainRotInterpreter.Throw _ st => Some st
  | BrainRotInterpreter.OutOfFuel => None
  end.

(** The lines of [st'] are those of [st], and more after them. *)
Definition output_extends (st st' : BrainRotInterpreter.State) : Prop :=
  exists more,
    BrainRotInterpreter.output st' = BrainRotInterpreter.output st ++ more.

Definition grows {A : Type} (m : BrainRotInterpreter.Interp A) : Prop :=
  forall st st', final_state (m st) = Some st' -> output_extends st st'.

(** A computation that returns with the variables it started from. *)
Definition frames {A : Type} (m : BrainRotInterpreter.Interp A) : Prop :=
  forall st a st',
    m st = BrainRotInterpreter.Return a st' ->
    BrainRotInterpreter.variables st' = BrainRotInterpreter.variables st.

(** [n] arguments that are the literal [undefined]. *)
Definition undefined_arguments (n : nat) : list ASTNode :=
  repeat (Literal Host.VUndefined) n.

(** The state [interpret] starts from: [this.output = []]. *)
Definition fresh_output (st : BrainRotInterpreter.State) : BrainRotInterpreter.State :=
  BrainRotInterpreter.mkState (BrainRotInterpreter.variables st)
    (BrainRotInterpreter.functions st) [].

(** [rott "a";] and [rott y;], and the state after the first. *)
Definition prints_a : ASTNode := PrintStatement (Literal (Host.VString "a")).

Definition reads_y : ASTNode := PrintStatement (Identifier "y").

Definition printed_a : BrainRotInterpreter.State :=
  BrainRotInterpreter.mkState ∅ ∅ ["a"].

(** A state in which [pair(a, b)] prints its two parameters and [a] is 1;
    the state a call of [pair] leaves when it has printed [first] and
    [second]. *)
Definition pair_declared : BrainRotInterpreter.State :=
  BrainRotInterpreter.mkState
    (<["a" := Host.VNumber 1]> ∅)
    (<["pair" := (["a"; "b"], [PrintStatement (Identifier "a");
                               PrintStatement (Identifier "b")])]> ∅)
    [].

Definition pair_called (first second : string) : BrainRotInterpreter.State :=
  BrainRotInterpreter.mkState
    (BrainRotInterpreter.variables pair_declared)
    (BrainRotInterpreter.functions pair_declared)
    [first; second].

(** ** The trees of the parser and the errors of a run *)

(** The operators [evaluate] has a case for, and those [unary] reads. *)
Definition binary_operators : list string :=
  ["PLUS"; "MINUS"; "MULTIPLY"; "DIVIDE"; "GT"; "LT"; "EQ"; "NEQ"; "ANDROT"; "ORROT"].

Definition unary_operators : list string := ["NOT"; "NOTROT"; "MINUS"].

(** The nodes of the [Expression] interface, with expressions below them;
    a literal is a number or a string. *)
Fixpoint is_expression (node : ASTNode) : bool :=
  match node with
  | Literal (Host.VNumber _) | Literal (Host.VString _) => true
  | Identifier _ => true
  | UnaryExpression operator operand =>
      BrainRotParser.list_includes unary_operators operator && is_expression operand
  | BinaryExpression operator l r =>
      BrainRotParser.list_includes binary_operators operator
      && is_expression l && is_expression r
  | CallExpression _ arguments => forallb is_expression arguments
  | _ => false
  end.

(** The nodes [statement] returns: the five statements, with expressions
    and statements where their interfaces have them, or an expression. *)
Fixpoint is_statement (node : ASTNode) : bool :=
  match node with
  | VariableDeclaration _ e | PrintStatement e => is_expression e
  | WhileLoop condition body => is_expression condition && forallb is_statement body
  | IfStatement condition thenBody elseBody =>
      is_expression condition && forallb is_statement thenBody
      && match elseBody with
         | Some stmts => forallb is_statement stmts
         | None => true
         end
  | FunctionDeclaration _ _ body => forallb is_statement body
  | _ => is_expression node
  end.

(** What a parser method returns, when it returns. *)
Definition yields {A : Type} (P : A -> Prop) (m : BrainRotParser.Parser A) : Prop :=
  forall pos a pos', m pos = BrainRotParser.Ok a pos' -> P a.

(** A token test that, when it succeeds, has stepped over a token whose
    value is one of [names]. *)
Definition selects (tokens : list Token) (names : list string)
  (test : BrainRotParser.Parser bool) : Prop :=
  forall pos pos',
    test pos = BrainRotParser.Ok true pos' ->
    exists t, token_before tokens pos' = Some t /\ In (value t) names.

Definition expression_node (node : ASTNode) : Prop := is_expression node = true.

Definition statement_node (node : ASTNode) : Prop := is_statement node = true.

Definition statement_nodes (nodes : list ASTNode) : Prop :=
  forallb is_statement nodes = true.

Definition expression_nodes (nodes : list ASTNode) : Prop :=
  forallb is_expression nodes = true.

(** What every method of the grammar returns. *)
Definition grammar_typed (tokens : list Token) (n : nat) : Prop :=
  yields statement_node (BrainRotParser.statement tokens n)
  /\ yields statement_node (BrainRotParser.variableDeclaration tokens n)
  /\ yields statement_node (BrainRotParser.printStatement tokens n)
  /\ yields statement_node (BrainRotParser.whileLoop tokens n)
  /\ yields statement_node (BrainRotParser.ifStatement tokens n)
  /\ yields statement_node (BrainRotParser.functionDeclaration tokens n)
  /\ (forall body, statement_nodes body ->
        yields statement_nodes (BrainRotParser.block tokens n body))
  /\ yields expression_node (BrainRotParser.expression tokens n)
  /\ yields expression_node (BrainRotParser.logicalOr tokens n)
  /\ yields expression_node (BrainRotParser.logicalAnd tokens n)
  /\ yields expression_node (BrainRotParser.equality tokens n)
  /\ yields expression_node (BrainRotParser.comparison tokens n)
  /\ yields expression_node (BrainRotParser.term tokens n)
  /\ yields expression_node (BrainRotParser.factor tokens n)
  /\ yields expression_node (BrainRotParser.unary tokens n)
  /\ yields expression_node (BrainRotParser.call tokens n)
  /\ (forall expr, expression_node expr ->
        yields expression_node (BrainRotParser.call_loop tokens n expr))
  /\ (forall callee, yields expression_node (BrainRotParser.finishCall tokens n callee))
  /\ (forall args, expression_nodes args ->
        yields expression_nodes (BrainRotParser.arguments_loop tokens n args))
  /\ yields expression_node (BrainRotParser.primary tokens n).

(** Every function of the table has a body of statements. *)
Definition typed_state (st : BrainRotInterpreter.State) : Prop :=
  forall name parameters body,
    BrainRotInterpreter.functions st !! name = Some (parameters, body) ->
    statement_nodes body.

(** The messages of the three failures a program can run into. *)
Definition expected_error (message : string) : Prop :=
  (exists name, message = "Undefined variable: " +:+ name)
  \/ (exists name, message = "Undefined function: " +:+ name)
  \/ message = "Unknown expression type: UnaryExpression".

(** A computation that keeps the function table typed, and throws only
    the expected errors. *)
Definition sound {A : Type} (m : BrainRotInterpreter.Interp A) : Prop :=
  forall st, typed_state st ->
    match m st with
    | BrainRotInterpreter.Return _ st' => typed_state st'
    | BrainRotInterpreter.Throw message _ => expected_error message
    | BrainRotInterpreter.OutOfFuel => True
    end.

(** A loop, and the tree [parse] builds for it. *)
Definition count_down_loop : string := "spin x > 0 { mold x = x - 1; }".

Definition count_down_tree : list ASTNode :=
  [ WhileLoop
      (BinaryExpression "GT" (Identifier "x") (Literal (Host.VNumber 0)))
      [ VariableDeclaration "x"
          (BinaryExpression "MINUS" (Identifier "x") (Literal (Host.VNumber 1))) ] ].

(** ** The places of the tokens *)

(** The line and the column of the character that follows the text
    [before]: one more than the newlines of [before], and one more than the
    characters of [before] after its last newline. *)
Definition line_of (before : list ascii) : nat :=
  S (count_occ ascii_dec before BrainRotTokenizer.newline).

Fixpoint run_length (p : ascii -> bool) (l : list ascii) : nat :=
  match l with
  | c :: r => if p c then S (run_length p r) else 0
  | [] => 0
  end.

Definition column_of (before : list ascii) : nat :=
  S (run_length (fun c => negb (Ascii.eqb c BrainRotTokenizer.newline)) (rev before)).

(** The token [t] carries the line and the column of the character at
    [offset] of [input]. *)
Definition placed (input : list ascii) (t : Token) (offset : nat) : Prop :=
  offset <= List.length input
  /\ line t = line_of (firstn offset input)
  /\ column t = column_of (firstn offset input).

(** The tokenizer in state [st] has read [input] up to [rest st], and its
    line and column are those of that place. *)
Definition located (input : list ascii) (st : BrainRotTokenizer.State) : Prop :=
  exists before,
    input = before ++ BrainRotTokenizer.rest st
    /\ BrainRotTokenizer.cur_line st = line_of before
    /\ BrainRotTokenizer.cur_column st = column_of before.

Definition offset_of (input : list ascii) (st : BrainRotTokenizer.State) : nat :=
  List.length input - List.length (BrainRotTokenizer.rest st).

(** ** The values of the tokens *)

(** The values of the keyword, operator and delimiter tokens. *)
Definition keyword_names : list string :=
  ["MOLD"; "ROTT"; "SPIN"; "IFROT"; "ELSED"; "FNROT"; "ANDROT"; "ORROT"; "NOTROT"; "RETROT"].

Definition operator_names : list string :=
  ["PLUS"; "MINUS"; "MULTIPLY"; "DIVIDE"; "ASSIGN"; "GT"; "LT"; "NOT"; "EQ"; "NEQ"].

Definition delimiter_names : list string :=
  ["LPAREN"; "RPAREN"; "LBRACE"; "RBRACE"; "SEMICOLON"; "COMMA"].

Fixpoint all_chars (p : ascii -> bool) (s : string) : bool :=
  match s with
  | String c s' => p c && all_chars p s'
  | EmptyString => true
  end.

Fixpoint count_char (c : ascii) (s : string) : nat :=
  match s with
  | String c' s' => (if Ascii.eqb c' c then 1 else 0) + count_char c s'
  | EmptyString => 0
  end.

Definition is_number_part (c : ascii) : bool := Host.is_digit c || Ascii.eqb c ".".

(** A digit, then digits with at most one dot among them. *)
Definition number_text (s : string) : bool :=
  match s with
  | String c s' =>
      Host.is_digit c && all_chars is_number_part s' && Nat.leb (count_char "." s') 1
  | EmptyString => false
  end.

(** A letter or an underscore, then letters, digits and underscores. *)
Definition identifier_text (s : string) : bool :=
  match s with
  | String c s' =>
      BrainRotTokenizer.is_identifier_start c
      && all_chars BrainRotTokenizer.is_identifier_part s'
  | EmptyString => false
  end.

Definition is_keyword (s : string) : bool :=
  match BrainRotTokenizer.keywords_get BrainRotTokenizer.keywords
          (BrainRotTokenizer.toLowerCase s) with
  | Some _ => true
  | None => false
  end.

(** What the value of a token of each type is. *)
Definition token_shape (t : Token) : bool :=
  match type t with
  | KEYWORD => BrainRotParser.list_includes keyword_names (value t)
  | IDENTIFIER => identifier_text (value t) && negb (is_keyword (value t))
  | NUMBER => number_text (value t)
  | STRING => true
  | OPERATOR => BrainRotParser.list_includes operator_names (value t)
  | DELIMITER => BrainRotParser.list_includes delimiter_names (value t)
  | EOF => String.eqb (value t) ""
  end.

(** ** String literals and text with nothing to run *)

(** The text [s] as it is written inside a literal delimited by [quote]:
    a backslash before every backslash and every [quote]. *)
Fixpoint escaped (quote : ascii) (s : string) : string :=
  match s with
  | String c s' =>
      if Ascii.eqb c "\" || Ascii.eqb c quote
      then String "\" (String c (escaped quote s'))
      else String c (escaped quote s')
  | EmptyString => EmptyString
  end.

Definition is_quote (c : ascii) : bool :=
  Ascii.eqb c BrainRotTokenizer.double_quote || Ascii.eqb c "'".

(** Source text with nothing to run: whitespace, characters the tokenizer
    has no rule for, and comments, each up to the end of its line. *)
Inductive inert : list ascii -> Prop :=
| inert_end : inert []
| inert_character c l :
    BrainRotTokenizer.is_whitespace c || negb (recognized c) = true ->
    inert l -> inert (c :: l)
| inert_comment text l :
    forallb (fun c => negb (Ascii.eqb c BrainRotTokenizer.newline)) text = true ->
    l = [] \/ (exists l', l = BrainRotTokenizer.newline :: l') ->
    inert l ->
    inert ("#"%char :: "r"%char :: "o"%char :: "t"%char :: text ++ l).

(** A comment after two spaces, then a line of characters without a rule. *)
Definition only_comments : string := unlines ["  #rot nothing to see"; "@ ~"].

(** ** The grammar of the parser *)

(** A token without its place. *)
Definition TokenKind : Type := TokenType * string.

Definition kind_of (t : Token) : TokenKind := (type t, value t).

Definition kind_eqb (a b : TokenKind) : bool :=
  TokenType_eqb (fst a) (fst b) && String.eqb (snd a) (snd b).

Definition keyword_token (name : string) : TokenKind := (KEYWORD, name).
Definition operator_token (name : string) : TokenKind := (OPERATOR, name).
Definition delimiter_token (name : string) : TokenKind := (DELIMITER, name).

(** The binary operators of each level of the grammar, from the loosest:
    [logicalOr], [logicalAnd], [equality], [comparison], [term], [factor]. *)
Definition level_operators (level : nat) : list TokenKind :=
  match level with
  | 0 => [keyword_token "ORROT"]
  | 1 => [keyword_token "ANDROT"]
  | 2 => [operator_token "EQ"; operator_token "NEQ"]
  | 3 => [operator_token "GT"; operator_token "LT"]
  | 4 => [operator_token "PLUS"; operator_token "MINUS"]
  | 5 => [operator_token "MULTIPLY"; operator_token "DIVIDE"]
  | _ => []
  end.

Definition is_operator_at (level : nat) (k : TokenKind) : bool :=
  existsb (kind_eqb k) (level_operators level).

Definition is_unary_operator (k : TokenKind) : bool :=
  existsb (kind_eqb k) [operator_token "NOT"; keyword_token "NOTROT"; operator_token "MINUS"].

(** The token [k] does not go on an expression of [level]: it is no binary
    operator of that level or of a tighter one, and no opening parenthesis
    of a call. *)
Definition stops (level : nat) (k : TokenKind) : bool :=
  negb (existsb (fun l => Nat.leb level l && is_operator_at l k) [0; 1; 2; 3; 4; 5])
  && (negb (kind_eqb k (delimiter_token "LPAREN")) || Nat.leb 8 level).

(** The method of the parser for each level: the six binary levels, then
    [unary], [call] and [primary]. *)
Definition level_method (tokens : list Token) (level : nat) (fuel : nat)
  : BrainRotParser.Parser ASTNode :=
  match level with
  | 0 => BrainRotParser.logicalOr tokens fuel
  | 1 => BrainRotParser.logicalAnd tokens fuel
  | 2 => BrainRotParser.equality tokens fuel
  | 3 => BrainRotParser.comparison tokens fuel
  | 4 => BrainRotParser.term tokens fuel
  | 5 => BrainRotParser.factor tokens fuel
  | 6 => BrainRotParser.unary tokens fuel
  | 7 => BrainRotParser.call tokens fuel
  | _ => BrainRotParser.primary tokens fuel
  end.

(** The token test of the loop of each binary level. *)
Definition level_test (tokens : list Token) (level : nat) : BrainRotParser.Parser bool :=
  match level with
  | 0 => BrainRotParser.match_ tokens KEYWORD (Some "ORROT")
  | 1 => BrainRotParser.match_ tokens KEYWORD (Some "ANDROT")
  | 2 => BrainRotParser.orelse (BrainRotParser.match_ tokens OPERATOR (Some "EQ"))
           (BrainRotParser.match_ tokens OPERATOR (Some "NEQ"))
  | 3 => BrainRotParser.orelse (BrainRotParser.match_ tokens OPERATOR (Some "GT"))
           (BrainRotParser.match_ tokens OPERATOR (Some "LT"))
  | 4 => BrainRotParser.orelse (BrainRotParser.match_ tokens OPERATOR (Some "PLUS"))
           (BrainRotParser.match_ tokens OPERATOR (Some "MINUS"))
  | _ => BrainRotParser.orelse (BrainRotParser.match_ tokens OPERATOR (Some "MULTIPLY"))
           (BrainRotParser.match_ tokens OPERATOR (Some "DIVIDE"))
  end.

(** The grammar of expressions, with the tree of each phrase. Level 0 is
    an expression; a phrase of a level is a phrase of every looser level;
    the binary operators of a level associate to the left. *)
Inductive expr_at : nat -> list TokenKind -> ASTNode -> Prop :=
| at_tighter level ts e :
    level < 8 -> expr_at (S level) ts e -> expr_at level ts e
| at_binary level op tl l tr r :
    is_operator_at level op = true ->
    expr_at level tl l -> expr_at (S level) tr r ->
    expr_at level (tl ++ op :: tr) (BinaryExpression (snd op) l r)
| at_unary op ts e :
    is_unary_operator op = true ->
    expr_at 6 ts e ->
    expr_at 6 (op :: ts) (UnaryExpression (snd op) e)
| at_call tc callee tas args :
    expr_at 7 tc callee -> args_at tas args ->
    expr_at 7 (tc ++ delimiter_token "LPAREN" :: tas ++ [delimiter_token "RPAREN"])
      (CallExpression (BrainRotParser.callee_name callee) args)
| at_number text :
    expr_at 8 [(NUMBER, text)]
      (Literal (Host.VNumber (if BrainRotTokenizer.includes "." text
                              then Host.parseFloat text else Host.parseInt text)))
| at_string s : expr_at 8 [(STRING, s)] (Literal (Host.VString s))
| at_identifier name : expr_at 8 [(IDENTIFIER, name)] (Identifier name)
| at_parenthesized ts e :
    expr_at 0 ts e ->
    expr_at 8 (delimiter_token "LPAREN" :: ts ++ [delimiter_token "RPAREN"]) e

with args_at : list TokenKind -> list ASTNode -> Prop :=
| no_argument : args_at [] []
| first_argument ts e more rest :
    expr_at 0 ts e -> more_args_at more rest -> args_at (ts ++ more) (e :: rest)

with more_args_at : list TokenKind -> list ASTNode -> Prop :=
| last_argument : more_args_at [] []
| next_argument ts e more rest :
    expr_at 0 ts e -> more_args_at more rest ->
    more_args_at (delimiter_token "COMMA" :: ts ++ more) (e :: rest).

Scheme expr_at_mutual := Minimality for expr_at Sort Prop
  with args_at_mutual := Minimality for args_at Sort Prop
  with more_args_at_mutual := Minimality for more_args_at Sort Prop.

Combined Scheme grammar_induction
  from expr_at_mutual, args_at_mutual, more_args_at_mutual.

(** The parameters of a function declaration. *)
Fixpoint parameters_tokens (parameters : list string) : list TokenKind :=
  match parameters with
  | [] => []
  | [p] => [(IDENTIFIER, p)]
  | p :: ps => (IDENTIFIER, p) :: delimiter_token "COMMA" :: parameters_tokens ps
  end.

(** The grammar of statements and of statement lists. *)
Inductive stmt_at : list TokenKind -> ASTNode -> Prop :=
| at_declaration name ts e :
    expr_at 0 ts e ->
    stmt_at (keyword_token "MOLD" :: (IDENTIFIER, name) :: operator_token "ASSIGN"
             :: ts ++ [delimiter_token "SEMICOLON"])
      (VariableDeclaration name e)
| at_print ts e :
    expr_at 0 ts e ->
    stmt_at (keyword_token "ROTT" :: ts ++ [delimiter_token "SEMICOLON"]) (PrintStatement e)
| at_while tc c tb body :
    expr_at 0 tc c -> block_at tb body ->
    stmt_at (keyword_token "SPIN" :: tc ++ delimiter_token "LBRACE" :: tb ++ [delimiter_token "RBRACE"])
      (WhileLoop c body)
| at_if tc c tb body :
    expr_at 0 tc c -> block_at tb body ->
    stmt_at (keyword_token "IFROT" :: tc ++ delimiter_token "LBRACE" :: tb ++ [delimiter_token "RBRACE"])
      (IfStatement c body None)
| at_if_else tc c tb body te elseBody :
    expr_at 0 tc c -> block_at tb body -> block_at te elseBody ->
    stmt_at (keyword_token "IFROT" :: tc ++ delimiter_token "LBRACE" :: tb
             ++ delimiter_token "RBRACE" :: keyword_token "ELSED" :: delimiter_token "LBRACE"
             :: te ++ [delimiter_token "RBRACE"])
      (IfStatement c body (Some elseBody))
| at_function name parameters tb body :
    block_at tb body ->
    stmt_at (keyword_token "FNROT" :: (IDENTIFIER, name) :: delimiter_token "LPAREN"
             :: parameters_tokens parameters
             ++ delimiter_token "RPAREN" :: delimiter_token "LBRACE" :: tb ++ [delimiter_token "RBRACE"])
      (FunctionDeclaration name parameters body)
| at_expression_statement ts e :
    expr_at 0 ts e -> stmt_at (ts ++ [delimiter_token "SEMICOLON"]) e

with block_at : list TokenKind -> list ASTNode -> Prop :=
| no_statement : block_at [] []
| first_statement ts s tb rest :
    stmt_at ts s -> block_at tb rest -> block_at (ts ++ tb) (s :: rest).

Scheme stmt_at_mutual := Minimality for stmt_at Sort Prop
  with block_at_mutual := Minimality for block_at Sort Prop.

Combined Scheme statements_induction from stmt_at_mutual, block_at_mutual.

(** The token at [position] is of kind [k]; the tokens from [position] on
    are of the kinds [ks]. *)
Definition kind_at (tokens : list Token) (position : nat) (k : TokenKind) : Prop :=
  exists t, nth_error tokens position = Some t /\ kind_of t = k.

Fixpoint reads (tokens : list Token) (position : nat) (ks : list TokenKind) : Prop :=
  match ks with
  | [] => True
  | k :: ks' => kind_at tokens position k /\ reads tokens (S position) ks'
  end.

(** The method [m] returns [r] from [position], with enough fuel. *)
Definition finishes {A : Type} (m : nat -> BrainRotParser.Parser A) (position : nat)
  (r : BrainRotParser.Result A) : Prop :=
  exists n, forall fuel, n <= fuel -> m fuel position = r.


(** The token test of [check], on the kind of a token. *)
Definition accepts_kind (ty : TokenType) (val : option string) (k : TokenKind) : bool :=
  negb (TokenType_eqb (fst k) EOF)
  && (TokenType_eqb (fst k) ty
      && match val with
         | None => true
         | Some v => String.eqb (snd k) v
         end).

Definition starts_primary (k : TokenKind) : bool :=
  match fst k with
  | NUMBER | STRING | IDENTIFIER => true
  | _ => kind_eqb k (delimiter_token "LPAREN")
  end.

Definition starts_expression (k : TokenKind) : bool := starts_primary k || is_unary_operator k.

Definition starts_statement (k : TokenKind) : bool :=
  existsb (kind_eqb k)
    [keyword_token "MOLD"; keyword_token "ROTT"; keyword_token "SPIN"; keyword_token "IFROT"; keyword_token "FNROT"]
  || starts_expression k.

(** The loop of a binary level, and the loop of [call], return [r] from
    [position] with enough fuel. *)
Definition loops (tokens : list Token) (level : nat) (e : ASTNode) (position : nat)
  (r : BrainRotParser.Result ASTNode) : Prop :=
  exists N, forall n f, N <= n -> N <= f ->
    BrainRotParser.binary_loop tokens n (level_test tokens level)
      (level_method tokens (S level) f) e position = r.

Definition call_loops (tokens : list Token) (e : ASTNode) (position : nat)
  (r : BrainRotParser.Result ASTNode) : Prop :=
  finishes (fun fuel => BrainRotParser.call_loop tokens fuel e) position r.

(** What the parser does on a phrase of the grammar that is followed by
    the token [next]: the method of the level returns the tree of the
    phrase when [next] stops the level, and otherwise goes on as the loop
    of the level does from that tree. *)
Definition parses (tokens : list Token) (level : nat) (ts : list TokenKind) (e : ASTNode)
  : Prop :=
  forall pos next,
    reads tokens pos ts -> kind_at tokens (pos + List.length ts) next ->
    (stops level next = true ->
     finishes (level_method tokens level) pos (BrainRotParser.Ok e (pos + List.length ts)))
    /\ (level <= 5 -> stops (S level) next = true ->
        forall r, loops tokens level e (pos + List.length ts) r ->
                  finishes (level_method tokens level) pos r)
    /\ (level = 7 ->
        forall r, call_loops tokens e (pos + List.length ts) r ->
                  finishes (level_method tokens 7) pos r).

(** [finishCall] on the arguments of a call and its closing parenthesis. *)
Definition parses_arguments (tokens : list Token) (tas : list TokenKind) (args : list ASTNode)
  : Prop :=
  forall pos callee,
    reads tokens pos (tas ++ [delimiter_token "RPAREN"]) ->
    finishes (fun fuel => BrainRotParser.finishCall tokens fuel callee) pos
      (BrainRotParser.Ok (CallExpression (BrainRotParser.callee_name callee) args)
         (pos + List.length tas + 1)).

(** The loop of [finishCall] after an argument: [args] holds the arguments
    read so far. *)
Definition parses_more_arguments (tokens : list Token) (more : list TokenKind)
  (rest : list ASTNode) : Prop :=
  forall pos args,
    reads tokens pos (more ++ [delimiter_token "RPAREN"]) ->
    finishes
      (fun fuel =>
         BrainRotParser.bind (BrainRotParser.match_ tokens DELIMITER (Some "COMMA"))
           (fun found =>
              if found then BrainRotParser.arguments_loop tokens fuel args
              else BrainRotParser.ret args))
      pos (BrainRotParser.Ok (args ++ rest) (pos + List.length more)).

(** [statement] on a statement of the grammar. The token after it is not
    the keyword of an else branch. *)
Definition parses_statement (tokens : list Token) (ts : list TokenKind) (s : ASTNode) : Prop :=
  forall pos next,
    reads tokens pos ts -> kind_at tokens (pos + List.length ts) next ->
    kind_eqb next (keyword_token "ELSED") = false ->
    finishes (BrainRotParser.statement tokens) pos
      (BrainRotParser.Ok s (pos + List.length ts)).

(** [block] on the statements of a block up to its closing brace, and the
    loop of [parse] on the statements of a program up to the last token. *)
Definition parses_block (tokens : list Token) (ts : list TokenKind) (body : list ASTNode)
  : Prop :=
  forall pos closer,
    reads tokens pos ts -> kind_at tokens (pos + List.length ts) closer ->
    (closer = delimiter_token "RBRACE" ->
     forall acc,
       finishes (fun fuel => BrainRotParser.block tokens fuel acc) pos
         (BrainRotParser.Ok (acc ++ body) (pos + List.length ts)))
    /\ (fst closer = EOF ->
        forall acc,
          finishes (fun fuel => BrainRotParser.parse_loop tokens fuel acc) pos
            (BrainRotParser.Ok (acc ++ body) (pos + List.length ts))).

(** The tokens of the example loop, without the end token. *)
Definition count_down_body : list Token := removelast (tokens_of count_down_loop).

(** * Properties *)

(** ** The tokenizer always finishes *)

Module TokenizerFacts.
Import Host BrainRotTokenizer.

#[local] Notation "'remaining' st" := (List.length (rest st)) (at level 10, st at level 9).

Lemma skipWhitespace_loop_remaining l ln col :
  remaining (skipWhitespace_loop l ln col) <= List.length l.
Proof.
  revert ln col. induction l as [|c r IH]; intros ln col; simpl; [lia|].
  destruct (is_whitespace c); simpl; [|lia].
  destruct (advance_position c ln col) as [ln' col'].
  specialize (IH ln' col'). lia.
Qed.

Lemma skipComment_loop_remaining l ln col :
  remaining (skipComment_loop l ln col) <= List.length l.
Proof.
  revert ln col. induction l as [|c r IH]; intros ln col; simpl; [lia|].
  destruct (negb (Ascii.eqb c newline)); simpl; [|lia].
  destruct (advance_position c ln col) as [ln' col'].
  specialize (IH ln' col'). lia.
Qed.

Lemma readNumber_loop_remaining l ln col val hasDot :
  remaining (snd (readNumber_loop l ln col val hasDot)) <= List.length l.
Proof.
  revert ln col val hasDot.
  induction l as [|c r IH]; intros ln col val hasDot; simpl; [lia|].
  destruct (advance_position c ln col) as [ln' col'].
  destruct (is_digit c).
  - specialize (IH ln' col' (push_char val c) hasDot). lia.
  - destruct (Ascii.eqb c "." && negb hasDot).
    + specialize (IH ln' col' (push_char val c) true). lia.
    + simpl. lia.
Qed.

Lemma readIdentifier_loop_remaining l ln col val :
  remaining (snd (readIdentifier_loop l ln col val)) <= List.length l.
Proof.
  revert ln col val. induction l as [|c r IH]; intros ln col val; simpl; [lia|].
  destruct (is_identifier_part c); [|simpl; lia].
  destruct (advance_position c ln col) as [ln' col'].
  specialize (IH ln' col' (push_char val c)). lia.
Qed.

(** [readString_loop] steps over one or two characters a round, so the
    induction is on a bound of the length. *)
Lemma readString_loop_remaining quote l ln col val :
  remaining (snd (readString_loop quote l ln col val)) <= List.length l.
Proof.
  remember (List.length l) as n eqn:Hn.
  assert (Hle : List.length l <= n) by lia. clear Hn.
  revert l ln col val Hle.
  induction n as [|n IH]; intros l ln col val Hle.
  - destruct l; simpl in *; lia.
  - destruct l as [|c r]; simpl in *; [lia|].
    destruct (Ascii.eqb c quote); [simpl; lia|].
    destruct (advance_position c ln col) as [ln1 col1].
    destruct (Ascii.eqb c "\").
    + destruct r as [|escaped r']; [simpl; lia|].
      destruct (advance_position escaped ln1 col1) as [ln2 col2].
      simpl in Hle.
      specialize (IH r' ln2 col2 (push_char val (escape quote escaped))). lia.
    + specialize (IH r ln1 col1 (push_char val c)). lia.
Qed.

Lemma advance_remaining st :
  rest st <> [] -> S (remaining (advance st)) = remaining st.
Proof.
  unfold advance. destruct (rest st) as [|c r]; [congruence|]. intros _.
  destruct (advance_position c (cur_line st) (cur_column st)). reflexivity.
Qed.

Lemma advance_remaining_le st : remaining (advance st) <= remaining st.
Proof.
  unfold advance. destruct (rest st) as [|c r] eqn:E; [rewrite E; lia|].
  destruct (advance_position c (cur_line st) (cur_column st)). simpl. lia.
Qed.

Lemma readNumber_remaining ln col st c r :
  rest st = c :: r -> is_digit c = true ->
  remaining (snd (readNumber ln col st)) < remaining st.
Proof.
  intros E Hd. unfold readNumber. rewrite E. simpl. rewrite Hd.
  destruct (advance_position c (cur_line st) (cur_column st)) as [ln' col'].
  pose proof (readNumber_loop_remaining r ln' col' (push_char "" c) false) as H.
  destruct (readNumber_loop r ln' col' (push_char "" c) false). simpl in *. lia.
Qed.

Lemma readIdentifier_remaining ln col st c r :
  rest st = c :: r -> is_identifier_start c = true ->
  remaining (snd (readIdentifier ln col st)) < remaining st.
Proof.
  intros E Hs. unfold readIdentifier. rewrite E. cbn [readIdentifier_loop].
  assert (Hp : is_identifier_part c = true).
  { unfold is_identifier_start in Hs. unfold is_identifier_part.
    destruct (char_between "a" "z" c), (char_between "A" "Z" c), (Ascii.eqb c "_");
      simpl in *; try reflexivity; try discriminate; apply orb_true_r. }
  rewrite Hp.
  destruct (advance_position c (cur_line st) (cur_column st)) as [ln' col'].
  pose proof (readIdentifier_loop_remaining r ln' col' (push_char "" c)) as H.
  destruct (readIdentifier_loop r ln' col' (push_char "" c)) as [val st'].
  destruct (keywords_get keywords (toLowerCase val)); simpl in *; lia.
Qed.

Lemma readString_remaining ln col st :
  rest st <> [] -> remaining (snd (readString ln col st)) < remaining st.
Proof.
  intros Hne. unfold readString.
  destruct (rest st) as [|quote r] eqn:E; [congruence|].
  pose proof (advance_remaining st) as Ha. rewrite E in Ha. specialize (Ha Hne).
  pose proof (readString_loop_remaining quote (rest (advance st))
                (cur_line (advance st)) (cur_column (advance st)) "") as Hl.
  destruct (readString_loop quote (rest (advance st)) (cur_line (advance st))
              (cur_column (advance st)) "") as [val st2].
  simpl in Hl.
  pose proof (advance_remaining_le st2) as H2.
  destruct (peek_is 0 quote st2); simpl in *; lia.
Qed.

(** A token of [nextToken] is never EOF, and [nextToken] consumes input. *)
Lemma nextToken_progress st :
  rest st <> [] ->
  remaining (snd (nextToken st)) < remaining st /\
  (forall t, fst (nextToken st) = Some t -> not_EOF t).
Proof.
  intros Hne. unfold nextToken.
  destruct (rest st) as [|char r] eqn:E; [congruence|].
  pose proof (advance_remaining st) as Ha. rewrite E in Ha. specialize (Ha Hne).
  pose proof (advance_remaining_le (advance st)) as Ha2.
  simpl in Ha.
  destruct (is_digit char) eqn:Hd.
  { pose proof (readNumber_remaining (cur_line st) (cur_column st) st char r E Hd) as H.
    unfold readNumber in *.
    destruct (readNumber_loop (rest st) (cur_line st) (cur_column st) "" false).
    rewrite E in H. simpl in *. split; [lia|]. intros t [= <-]. discriminate. }
  destruct (Ascii.eqb char double_quote || Ascii.eqb char "'").
  { pose proof (readString_remaining (cur_line st) (cur_column st) st) as H.
    rewrite E in H. specialize (H Hne).
    unfold readString in *. rewrite E in *.
    destruct (readString_loop char (rest (advance st)) (cur_line (advance st))
                (cur_column (advance st)) "").
    simpl in *. split; [lia|]. intros t [= <-]. discriminate. }
  destruct (is_identifier_start char) eqn:Hs.
  { pose proof (readIdentifier_remaining (cur_line st) (cur_column st) st char r E Hs) as H.
    unfold readIdentifier in *.
    destruct (readIdentifier_loop (rest st) (cur_line st) (cur_column st) "") as [val st'].
    rewrite E in H.
    destruct (keywords_get keywords (toLowerCase val)); simpl in *;
      (split; [lia|]; intros t [= <-]; discriminate). }
  destruct (Ascii.eqb char "=" && peek_is 1 "=" st).
  { simpl. split; [lia|]. intros t [= <-]. discriminate. }
  destruct (Ascii.eqb char "!" && peek_is 1 "=" st).
  { simpl. split; [lia|]. intros t [= <-]. discriminate. }
  destruct (operators_get operators char) as [name|]; simpl.
  - split; [lia|]. intros t [= <-]. unfold not_EOF, operator_type. simpl.
    destruct (_ || _); discriminate.
  - split; [lia|]. discriminate.
Qed.

Lemma at_comment_progress st :
  at_comment st = true -> remaining (skipComment st) < remaining st.
Proof.
  unfold at_comment. intros H.
  repeat (apply andb_true_iff in H; destruct H as [H _]).
  unfold peek_is, peek in H. unfold skipComment.
  destruct (rest st) as [|c r]; simpl in H; [discriminate|].
  apply Ascii.eqb_eq in H. subst c. cbn [skipComment_loop].
  change (negb (Ascii.eqb "#" newline)) with true. cbv iota.
  destruct (advance_position "#" (cur_line st) (cur_column st)) as [ln' col'].
  pose proof (skipComment_loop_remaining r ln' col'). simpl. lia.
Qed.

Lemma skipWhitespace_remaining st : remaining (skipWhitespace st) <= remaining st.
Proof. apply skipWhitespace_loop_remaining. Qed.

(** With more fuel than characters left, the loop of [tokenize] ends at the
    end of the input, having added only tokens that are not EOF. *)
Lemma tokenize_loop_total fuel st tokens :
  remaining st < fuel ->
  exists more st',
    tokenize_loop fuel st tokens = Some (tokens ++ more, st')
    /\ List.Forall not_EOF more /\ rest st' = [].
Proof.
  revert st tokens. induction fuel as [|fuel IH]; intros st tokens Hlt; [lia|].
  simpl. destruct (rest st) as [|c r] eqn:E.
  { exists [], st. rewrite app_nil_r. auto. }
  pose proof (skipWhitespace_remaining st) as Hw. rewrite E in Hw.
  destruct (rest (skipWhitespace st)) as [|c1 r1] eqn:E1.
  { exists [], (skipWhitespace st). rewrite app_nil_r. auto. }
  destruct (at_comment (skipWhitespace st)) eqn:Hc.
  { apply at_comment_progress in Hc. rewrite E1 in Hc. apply IH. simpl in *. lia. }
  assert (Hne : rest (skipWhitespace st) <> []) by (rewrite E1; discriminate).
  destruct (nextToken_progress _ Hne) as [Hp Ht]. rewrite E1 in Hp.
  destruct (nextToken (skipWhitespace st)) as [[token|] st2]; simpl in Hp, Ht.
  - destruct (IH st2 (tokens ++ [token])) as (more & st' & Heq & Hall & Hend).
    { simpl in *. lia. }
    exists (token :: more), st'. rewrite Heq, <- app_assoc. simpl.
    repeat split; auto.
  - apply IH. simpl in *. lia.
Qed.

Lemma tokenize_ends_with_EOF input :
  exists tokens ln col,
    tokenize input = Some (tokens ++ [mkToken EOF "" ln col])
    /\ List.Forall not_EOF tokens.
Proof.
  unfold tokenize.
  destruct (tokenize_loop_total (S (List.length (list_ascii_of_string input)))
              (mkState (list_ascii_of_string input) 1 1) [])
    as (more & st' & Heq & Hall & _).
  { simpl. lia. }
  rewrite Heq. simpl. exists more, (cur_line st'), (cur_column st').
  split; [reflexivity|exact Hall].
Qed.

End TokenizerFacts.

(** ** Fuel: more of it never changes a finished run of the evaluator *)

Module InterpreterFacts.
Import Host BrainRotInterpreter.

Lemma below_refl {A : Type} (o : Outcome A) : below o o.
Proof. right. reflexivity. Qed.

Lemma below_out_of_fuel {A : Type} (o : Outcome A) : below OutOfFuel o.
Proof. left. reflexivity. Qed.

Lemma below_finished {A : Type} (o1 o2 : Outcome A) :
  below o1 o2 -> o1 <> OutOfFuel -> o1 = o2.
Proof. intros [H|H] Hne; [contradiction|assumption]. Qed.

Lemma bind_below {A B : Type} (m1 m2 : Interp A) (k1 k2 : A -> Interp B) st :
  below (m1 st) (m2 st) ->
  (forall a st', below (k1 a st') (k2 a st')) ->
  below (bind m1 k1 st) (bind m2 k2 st).
Proof.
  unfold bind. intros [H|H] Hk; rewrite H.
  - apply below_out_of_fuel.
  - destruct (m2 st); auto using below_refl.
Qed.

Create HintDb fuel.
#[local] Hint Resolve below_refl below_out_of_fuel : fuel.

Lemma run_statements_below (exec1 exec2 : ASTNode -> Interp Value) :
  (forall node st, below (exec1 node st) (exec2 node st)) ->
  forall stmts result st,
    below (run_statements exec1 stmts result st) (run_statements exec2 stmts result st).
Proof.
  intros Hexec stmts. induction stmts as [|stmt stmts IH]; intros result st; simpl.
  - apply below_refl.
  - apply bind_below; auto.
Qed.

Lemma bind_parameters_below (eval1 eval2 : ASTNode -> Interp Value) :
  (forall node st, below (eval1 node st) (eval2 node st)) ->
  forall parameters arguments st,
    below (bind_parameters eval1 parameters arguments st)
          (bind_parameters eval2 parameters arguments st).
Proof.
  intros Heval parameters.
  induction parameters as [|p ps IH]; intros arguments st; simpl.
  - apply below_refl.
  - destruct arguments as [|a args].
    + apply bind_below; auto with fuel.
    + apply bind_below; auto. intros v st'. apply bind_below; auto with fuel.
Qed.

Ltac below_step :=
  first
    [ apply below_refl
    | apply below_out_of_fuel
    | apply bind_below; [|intros ? ?]
    | apply run_statements_below; intros ? ?
    | apply bind_parameters_below; intros ? ? ].

Lemma fuel_below n :
  forall m, n <= m ->
    (forall node st, below (execute n node st) (execute m node st))
    /\ (forall expr st, below (evaluate n expr st) (evaluate m expr st))
    /\ (forall c body st, below (while_loop n c body st) (while_loop m c body st)).
Proof.
  induction n as [|n IH]; intros m Hle.
  - repeat split; intros; apply below_out_of_fuel.
  - destruct m as [|m]; [lia|].
    destruct (IH m ltac:(lia)) as (IHx & IHe & IHw).
    repeat split.
    + intros node st. destruct node; cbn [execute]; auto;
        try (repeat below_step; auto; fail).
      apply bind_below; auto. intros c st'.
      destruct (isTruthy c); [|destruct elseBody]; repeat below_step; auto.
    + intros expr st. destruct expr; cbn [evaluate]; auto with fuel.
      * repeat below_step; auto.
      * destruct (functions_get name st) as [[parameters body]|]; [|apply below_refl].
        repeat below_step; auto.
    + intros c body st. cbn [while_loop].
      apply bind_below; auto. intros v st'.
      destruct (isTruthy v); repeat below_step; auto.
Qed.

Lemma evaluate_more_fuel n m expr st out :
  evaluate n expr st = out -> out <> OutOfFuel -> n <= m -> evaluate m expr st = out.
Proof.
  intros H Hne Hle. destruct (fuel_below n m Hle) as (_ & He & _).
  specialize (He expr st). rewrite H in He. symmetry. apply below_finished; auto.
Qed.

Lemma execute_more_fuel n m node st out :
  execute n node st = out -> out <> OutOfFuel -> n <= m -> execute m node st = out.
Proof.
  intros H Hne Hle. destruct (fuel_below n m Hle) as (Hx & _ & _).
  specialize (Hx node st). rewrite H in Hx. symmetry. apply below_finished; auto.
Qed.

Lemma run_statements_more_fuel n m stmts result st out :
  run_statements (execute n) stmts result st = out -> out <> OutOfFuel -> n <= m ->
  run_statements (execute m) stmts result st = out.
Proof.
  intros H Hne Hle.
  pose proof (run_statements_below (execute n) (execute m)
                (proj1 (fuel_below n m Hle)) stmts result st) as Hb.
  rewrite H in Hb. symmetry. apply below_finished; auto.
Qed.

Lemma bind_parameters_more_fuel n m parameters arguments st out :
  bind_parameters (evaluate n) parameters arguments st = out -> out <> OutOfFuel -> n <= m ->
  bind_parameters (evaluate m) parameters arguments st = out.
Proof.
  intros H Hne Hle.
  pose proof (bind_parameters_below (evaluate n) (evaluate m)
                (proj1 (proj2 (fuel_below n m Hle))) parameters arguments st) as Hb.
  rewrite H in Hb. symmetry. apply below_finished; auto.
Qed.

Lemma evaluates_deterministic expr st out1 out2 :
  evaluates expr st out1 -> evaluates expr st out2 -> out1 = out2.
Proof.
  intros (n1 & H1 & Hne1) (n2 & H2 & Hne2).
  apply (evaluate_more_fuel _ (Nat.max n1 n2)) in H1; [|assumption|lia].
  apply (evaluate_more_fuel _ (Nat.max n1 n2)) in H2; [|assumption|lia].
  congruence.
Qed.

Lemma executes_deterministic node st out1 out2 :
  executes node st out1 -> executes node st out2 -> out1 = out2.
Proof.
  intros (n1 & H1 & Hne1) (n2 & H2 & Hne2).
  apply (execute_more_fuel _ (Nat.max n1 n2)) in H1; [|assumption|lia].
  apply (execute_more_fuel _ (Nat.max n1 n2)) in H2; [|assumption|lia].
  congruence.
Qed.

End InterpreterFacts.

(** ** Fuel: more of it never changes a finished run of the parser *)

Module ParserFacts.
Import Host BrainRotParser.

Lemma result_below_refl {A : Type} (r : Result A) : result_below r r.
Proof. right. reflexivity. Qed.

Lemma result_below_out_of_fuel {A : Type} (r : Result A) : result_below OutOfFuel r.
Proof. left. reflexivity. Qed.

Lemma result_below_finished {A : Type} (r1 r2 : Result A) :
  result_below r1 r2 -> r1 <> OutOfFuel -> r1 = r2.
Proof. intros [H|H] Hne; [contradiction|assumption]. Qed.

Lemma result_bind_below {A B : Type} (m1 m2 : Parser A) (k1 k2 : A -> Parser B) position :
  result_below (m1 position) (m2 position) ->
  (forall a position', result_below (k1 a position') (k2 a position')) ->
  result_below (bind m1 k1 position) (bind m2 k2 position).
Proof.
  unfold bind. intros [H|H] Hk; rewrite H.
  - apply result_below_out_of_fuel.
  - destruct (m2 position); auto using result_below_refl.
Qed.

Section Tokens.

Variable tokens : list Token.

Lemma binary_loop_below n :
  forall m operators (operand1 operand2 : Parser ASTNode),
    n <= m ->
    (forall position, result_below (operand1 position) (operand2 position)) ->
    forall expr position,
      result_below (binary_loop tokens n operators operand1 expr position)
            (binary_loop tokens m operators operand2 expr position).
Proof.
  induction n as [|n IH]; intros m operators operand1 operand2 Hle Hop expr position.
  - apply result_below_out_of_fuel.
  - destruct m as [|m]; [lia|]. cbn [binary_loop].
    apply result_bind_below; [apply result_below_refl|]. intros found position1.
    destruct found; [|apply result_below_refl].
    apply result_bind_below; [apply result_below_refl|]. intros operator position2.
    apply result_bind_below; [apply Hop|]. intros right position3.
    apply IH; [lia|assumption].
Qed.

Lemma parameters_loop_below n :
  forall m, n <= m ->
    forall parameters position,
      result_below (parameters_loop tokens n parameters position)
            (parameters_loop tokens m parameters position).
Proof.
  induction n as [|n IH]; intros m Hle parameters position.
  - apply result_below_out_of_fuel.
  - destruct m as [|m]; [lia|]. cbn [parameters_loop].
    apply result_bind_below; [apply result_below_refl|]. intros param position1.
    apply result_bind_below; [apply result_below_refl|]. intros name position2.
    apply result_bind_below; [apply result_below_refl|]. intros more position3.
    destruct more; [|apply result_below_refl]. apply IH. lia.
Qed.

Lemma synchronize_loop_below n :
  forall m, n <= m ->
    forall position,
      result_below (synchronize_loop tokens n position) (synchronize_loop tokens m position).
Proof.
  induction n as [|n IH]; intros m Hle position.
  - apply result_below_out_of_fuel.
  - destruct m as [|m]; [lia|]. cbn [synchronize_loop].
    apply result_bind_below; [apply result_below_refl|]. intros atEnd position1.
    destruct atEnd; [apply result_below_refl|].
    apply result_bind_below; [apply result_below_refl|]. intros prev position2.
    destruct (String.eqb prev "SEMICOLON"); [apply result_below_refl|].
    apply result_bind_below; [apply result_below_refl|]. intros next position3.
    destruct (list_includes statement_keywords (value next)); [apply result_below_refl|].
    apply result_bind_below; [apply result_below_refl|]. intros _ position4.
    apply IH. lia.
Qed.

Ltac grammar_step Hle :=
  match goal with
  | |- result_below (bind _ _ _) (bind _ _ _) => apply result_bind_below; [|intros ? ?]
  | |- result_below ((if ?b then _ else _) _) ((if ?b then _ else _) _) => destruct b
  | |- result_below (binary_loop _ _ _ _ _ _) (binary_loop _ _ _ _ _ _) =>
      apply binary_loop_below; [exact Hle|intros ?]
  | |- result_below (parameters_loop _ _ _ _) (parameters_loop _ _ _ _) =>
      apply parameters_loop_below; exact Hle
  | |- result_below ?r ?r => apply result_below_refl
  | |- _ => solve [auto]
  end.

Lemma grammar_fuel_below n : forall m, n <= m -> grammar_below tokens n m.
Proof.
  induction n as [|n IH]; intros m Hle.
  - unfold grammar_below. repeat split; intros; apply result_below_out_of_fuel.
  - destruct m as [|m]; [lia|].
    assert (Hle' : n <= m) by lia.
    destruct (IH m Hle')
      as (Hstatement & HvariableDeclaration & HprintStatement & HwhileLoop & HifStatement
          & HfunctionDeclaration & Hblock & Hexpression & HlogicalOr & HlogicalAnd
          & Hequality & Hcomparison & Hterm & Hfactor & Hunary & Hcall & Hcall_loop
          & HfinishCall & Harguments_loop & Hprimary).
    unfold grammar_below. repeat split; intros.
    + cbn [statement]. repeat grammar_step Hle'.
    + cbn [variableDeclaration]. repeat grammar_step Hle'.
    + cbn [printStatement]. repeat grammar_step Hle'.
    + cbn [whileLoop]. repeat grammar_step Hle'.
    + cbn [ifStatement]. repeat grammar_step Hle'.
    + cbn [functionDeclaration]. repeat grammar_step Hle'.
    + cbn [block]. repeat grammar_step Hle'.
    + cbn [expression]. repeat grammar_step Hle'.
    + cbn [logicalOr]. repeat grammar_step Hle'.
    + cbn [logicalAnd]. repeat grammar_step Hle'.
    + cbn [equality]. repeat grammar_step Hle'.
    + cbn [comparison]. repeat grammar_step Hle'.
    + cbn [term]. repeat grammar_step Hle'.
    + cbn [factor]. repeat grammar_step Hle'.
    + cbn [unary]. repeat grammar_step Hle'.
    + cbn [call]. repeat grammar_step Hle'.
    + cbn [call_loop]. repeat grammar_step Hle'.
    + cbn [finishCall]. repeat grammar_step Hle'.
    + cbn [arguments_loop]. repeat grammar_step Hle'.
    + cbn [primary]. repeat grammar_step Hle'.
Qed.

Lemma synchronize_below n m position :
  n <= m -> result_below (synchronize tokens n position) (synchronize tokens m position).
Proof.
  intros Hle. unfold synchronize.
  apply result_bind_below; [apply result_below_refl|]. intros _ position'.
  apply synchronize_loop_below. exact Hle.
Qed.

Lemma parse_loop_below n :
  forall m, n <= m ->
    forall statements position,
      result_below (parse_loop tokens n statements position)
            (parse_loop tokens m statements position).
Proof.
  induction n as [|n IH]; intros m Hle statements position.
  - apply result_below_out_of_fuel.
  - destruct m as [|m]; [lia|]. assert (Hle' : n <= m) by lia.
    cbn [parse_loop].
    apply result_bind_below; [apply result_below_refl|]. intros atEnd position1.
    destruct atEnd; [apply result_below_refl|].
    destruct (proj1 (grammar_fuel_below n m Hle') position1) as [H|H]; rewrite H.
    + apply result_below_out_of_fuel.
    + destruct (statement tokens m position1) as [stmt position2|message position2|].
      * apply IH. exact Hle'.
      * apply result_bind_below; [apply synchronize_below; exact Hle'|].
        intros _ position3. apply IH. exact Hle'.
      * apply result_below_refl.
Qed.

Lemma parse_more_fuel n m r :
  parse tokens n = r -> r <> OutOfFuel -> n <= m -> parse tokens m = r.
Proof.
  intros H Hne Hle. pose proof (parse_loop_below n m Hle [] 0) as Hb.
  unfold parse in *. rewrite H in Hb. symmetry. apply result_below_finished; auto.
Qed.

End Tokens.

End ParserFacts.

(** ** The parser finishes, and never throws, on the tokens of the tokenizer *)

Module ParserTermination.
Import BrainRotParser.

Section WellFormed.

Variable tokens : list Token.
Variable last : nat.
Hypothesis Hwf : well_formed tokens last.

(** *** The token methods in closed form, for any token array *)

Lemma check_eq ty val pos :
  check tokens ty val pos
  = match nth_error tokens pos with
    | Some t => Ok (accepts ty val t) pos
    | None => Throw (reading_undefined "type") pos
    end.
Proof.
  unfold check, isAtEnd, peek, bind, ret, accepts.
  destruct (nth_error tokens pos) as [t|] eqn:Et; [|reflexivity].
  destruct (TokenType_eqb (type t) EOF); [reflexivity|]. rewrite Et. reflexivity.
Qed.

Lemma match_eq ty val pos :
  match_ tokens ty val pos
  = match nth_error tokens pos with
    | Some t => if accepts ty val t then Ok true (S pos) else Ok false pos
    | None => Throw (reading_undefined "type") pos
    end.
Proof.
  unfold match_. unfold bind at 1. rewrite check_eq.
  destruct (nth_error tokens pos) as [t|] eqn:Et; [|reflexivity].
  destruct (accepts ty val t) eqn:Ea; [|reflexivity].
  unfold accepts in Ea. apply andb_true_iff in Ea as [Hne _]. apply negb_true_iff in Hne.
  unfold advance, isAtEnd, peek, previous, bind, ret. rewrite Et, Hne. reflexivity.
Qed.

Lemma consume_eq ty val message pos :
  ty <> EOF ->
  consume tokens ty val message pos
  = match nth_error tokens pos with
    | Some t =>
        if (if String.eqb val "" then TokenType_eqb (type t) ty else accepts ty (Some val) t)
        then Ok (Some t) (S pos)
        else Throw (message +:+ " at line " +:+ Host.string_of_nat (line t)
                    +:+ ", column " +:+ Host.string_of_nat (column t)) pos
    | None => Throw (reading_undefined "type") pos
    end.
Proof.
  intros Hty. unfold consume. unfold bind at 1.
  assert (Hmove : forall t, nth_error tokens pos = Some t ->
                            TokenType_eqb (type t) EOF = false ->
                            advance tokens pos = Ok (Some t) (S pos)).
  { intros t Et Hne. unfold advance, isAtEnd, peek, previous, bind, ret.
    rewrite Et, Hne. rewrite Et. reflexivity. }
  destruct (String.eqb val "").
  - unfold bind at 1. unfold peek at 1. unfold ret.
    destruct (nth_error tokens pos) as [t|] eqn:Et; [|reflexivity].
    destruct (TokenType_eqb (type t) ty) eqn:E.
    + apply Hmove; [reflexivity|]. destruct (type t), ty; try reflexivity; try discriminate.
      contradiction.
    + unfold bind, peek, throw. rewrite Et. reflexivity.
  - rewrite check_eq. destruct (nth_error tokens pos) as [t|] eqn:Et; [|reflexivity].
    destruct (accepts ty (Some val) t) eqn:Ea.
    + apply Hmove; [reflexivity|]. unfold accepts in Ea.
      apply andb_true_iff in Ea as [Hne _]. apply negb_true_iff in Hne. exact Hne.
    + unfold bind, peek, throw. rewrite Et. reflexivity.
Qed.

Lemma previous_value_at pos :
  (exists v, bind (previous tokens) (fun token => value_of token) pos = Ok v pos)
  \/ (exists m, bind (previous tokens) (fun token => value_of token) pos = Throw m pos).
Proof.
  unfold bind, previous, value_of.
  destruct (match pos with 0 => None | S p => nth_error tokens p end); [left|right];
    eexists; reflexivity.
Qed.

(** *** On a well-formed token array *)

Lemma token_at pos :
  pos <= last ->
  exists t, nth_error tokens pos = Some t
            /\ TokenType_eqb (type t) EOF = Nat.eqb pos last.
Proof.
  intros Hle. destruct Hwf as [(e & He & Hty) Hbefore].
  destruct (Nat.eq_dec pos last) as [->|Hne].
  - exists e. rewrite Nat.eqb_refl, Hty. auto.
  - destruct (Hbefore pos ltac:(lia)) as (t & Ht & Hnot). exists t. split; [exact Ht|].
    apply Nat.eqb_neq in Hne. rewrite Hne. destruct (type t); try reflexivity. contradiction.
Qed.

Lemma accepts_before_last ty val pos t :
  pos <= last -> nth_error tokens pos = Some t -> accepts ty val t = true -> pos < last.
Proof.
  intros Hle Et Ha. destruct (token_at pos Hle) as (t' & Et' & Heof).
  rewrite Et in Et'. injection Et' as <-.
  unfold accepts in Ha. apply andb_true_iff in Ha as [Hne _]. apply negb_true_iff in Hne.
  rewrite Hne in Heof. symmetry in Heof. apply Nat.eqb_neq in Heof. lia.
Qed.

Lemma isAtEnd_at pos : pos <= last -> isAtEnd tokens pos = Ok (Nat.eqb pos last) pos.
Proof.
  intros Hle. destruct (token_at pos Hle) as (t & Ht & Heof).
  unfold isAtEnd, bind, peek, ret. rewrite Ht, Heof. reflexivity.
Qed.

Lemma advance_at pos :
  pos <= last ->
  advance tokens pos
  = if Nat.eqb pos last then Ok (token_before tokens pos) pos
    else Ok (nth_error tokens pos) (S pos).
Proof.
  intros Hle. unfold advance. unfold bind at 1. rewrite (isAtEnd_at pos Hle).
  destruct (Nat.eqb pos last); reflexivity.
Qed.

Lemma check_at ty val pos :
  pos <= last ->
  exists b, check tokens ty val pos = Ok b pos /\ (b = true -> pos < last).
Proof.
  intros Hle. rewrite check_eq. destruct (token_at pos Hle) as (t & Et & _). rewrite Et.
  eexists. split; [reflexivity|]. apply (accepts_before_last ty val pos t); assumption.
Qed.

Lemma match_at ty val : token_test last (match_ tokens ty val).
Proof.
  intros pos Hle. rewrite match_eq. destruct (token_at pos Hle) as (t & Et & _). rewrite Et.
  destruct (accepts ty val t) eqn:Ea; [left|right; reflexivity].
  split; [reflexivity|]. apply (accepts_before_last ty val pos t); assumption.
Qed.

Lemma orelse_at a b : token_test last a -> token_test last b -> token_test last (orelse a b).
Proof.
  intros Ha Hb pos Hle. unfold orelse, bind.
  destruct (Ha pos Hle) as [[-> ?]| ->]; [left; auto|]. apply Hb. exact Hle.
Qed.

Lemma consume_at ty val message pos :
  pos <= last -> ty <> EOF ->
  (pos < last /\ exists t, consume tokens ty val message pos = Ok (Some t) (S pos))
  \/ (exists m, consume tokens ty val message pos = Throw m pos).
Proof.
  intros Hle Hty. rewrite (consume_eq ty val message pos Hty).
  destruct (token_at pos Hle) as (t & Et & Heof). rewrite Et.
  destruct (if String.eqb val "" then _ else _) eqn:E; [left|right; eauto].
  split; [|eauto].
  destruct (String.eqb val "").
  - destruct (Nat.eqb_spec pos last) as [->|Hne]; [|lia].
    destruct (type t), ty; try discriminate; contradiction.
  - apply (accepts_before_last ty (Some val) pos t); assumption.
Qed.

Lemma peek_at property pos :
  pos <= last -> exists t, peek tokens property pos = Ok t pos.
Proof.
  intros Hle. destruct (token_at pos Hle) as (t & Ht & _).
  exists t. unfold peek. rewrite Ht. reflexivity.
Qed.

(** *** The loops with a fuel of their own *)

Lemma within_unfold strict fuel rank {A : Type} (m : Parser A) pos :
  within tokens last strict fuel rank m -> pos <= last ->
  match m pos with
  | Ok _ pos' => (if strict then pos < pos' else pos <= pos') /\ pos' <= last
  | Throw _ pos' => pos <= pos' /\ pos' <= last
  | OutOfFuel => fuel < fuel_per_token * (last - pos) + rank
  end.
Proof. intros H Hle. apply H. exact Hle. Qed.

Lemma binary_loop_within n :
  forall operators operand fuel rank,
    token_test last operators ->
    within tokens last true fuel rank operand ->
    forall expr pos, pos <= last ->
      match binary_loop tokens n operators operand expr pos with
      | Ok _ pos' => pos <= pos' /\ pos' <= last
      | Throw _ pos' => pos <= pos' /\ pos' <= last
      | OutOfFuel =>
          n < (last - pos) + 1
          \/ (pos < last /\ fuel < fuel_per_token * (last - pos - 1) + rank)
      end.
Proof.
  induction n as [|n IH]; intros operators operand fuel rank Hops Hoperand expr pos Hle.
  - left. lia.
  - cbn [binary_loop]. unfold bind at 1.
    destruct (Hops pos Hle) as [[-> Hlt]| ->]; [|cbn; lia].
    unfold bind at 1.
    destruct (previous_value_at (S pos)) as [(v & ->)|(m & ->)]; [|lia].
    unfold bind at 1.
    pose proof (Hoperand (S pos) ltac:(lia)) as Hop.
    destruct (operand (S pos)) as [right pos2|m pos2|]; [|lia|].
    + specialize (IH operators operand fuel rank Hops Hoperand
                    (BinaryExpression v expr right) pos2 ltac:(lia)).
      destruct (binary_loop tokens n operators operand _ pos2) as [e pos3|m pos3|];
        [lia|lia|].
      destruct IH as [IH|[IH1 IH2]]; [left; lia|right].
      split; [lia|]. unfold fuel_per_token in *. lia.
    + right. split; [lia|]. replace (last - pos - 1) with (last - S pos) by lia. exact Hop.
Qed.

Lemma parameters_loop_within n :
  forall parameters pos, pos <= last ->
    match parameters_loop tokens n parameters pos with
    | Ok _ pos' => pos < pos' /\ pos' <= last
    | Throw _ pos' => pos <= pos' /\ pos' <= last
    | OutOfFuel => n < (last - pos) + 1
    end.
Proof.
  induction n as [|n IH]; intros parameters pos Hle.
  - cbn. lia.
  - cbn [parameters_loop]. unfold bind at 1.
    destruct (consume_at IDENTIFIER "" "Expected parameter name" pos Hle ltac:(discriminate))
      as [[Hlt (t & ->)]|(m & ->)]; [|lia].
    unfold bind at 1. cbn [value_of ret]. unfold bind at 1.
    destruct (match_at DELIMITER (Some "COMMA") (S pos) ltac:(lia)) as [[-> Hlt2]| ->].
    + specialize (IH (parameters ++ [value t]) (S (S pos)) ltac:(lia)).
      destruct (parameters_loop tokens n _ (S (S pos))); lia.
    + cbn. lia.
Qed.

(** *** The methods of the grammar *)

(** Settles what the computation [m] does from [p], by the fact known of it. *)
Ltac resolve m p :=
  first
    [ let H := fresh "Htest" in
      assert (H : token_test last m) by (repeat apply orelse_at; apply match_at);
      destruct (H p ltac:(lia)) as [[-> ?]| ->]; clear H
    | lazymatch m with
      | ret _ => unfold ret
      | throw _ => unfold throw
      | check _ ?ty ?v =>
          let b := fresh "b" in
          destruct (check_at ty v p ltac:(lia)) as (b & -> & ?); destruct b
      | consume _ ?ty ?v ?msg =>
          destruct (consume_at ty v msg p ltac:(lia) ltac:(discriminate))
            as [[? (? & ->)]|(? & ->)]
      | isAtEnd _ => rewrite (isAtEnd_at p ltac:(lia)); destruct (Nat.eqb_spec p last)
      | peek _ ?property => destruct (peek_at property p ltac:(lia)) as (? & ->)
      | bind (previous _) _ => destruct (previous_value_at p) as [(? & ->)|(? & ->)]
      | value_of (Some _) => cbn [value_of]; unfold ret
      | (if ?b then _ else _) => destruct b
      | parameters_loop _ ?n ?ps =>
          pose proof (parameters_loop_within n ps p ltac:(lia));
          destruct (parameters_loop tokens n ps p)
      | binary_loop _ ?n ?ops ?operand ?e =>
          let Hops := fresh "Hops" in
          assert (Hops : token_test last ops) by (repeat apply orelse_at; apply match_at);
          match goal with
          | Hop : within _ _ true ?f ?r operand |- _ =>
              pose proof (binary_loop_within n ops operand f r Hops Hop e p ltac:(lia));
              destruct (binary_loop tokens n ops operand e p)
          end
      | block _ ?n ?body =>
          match goal with
          | H : forall b, within _ _ _ _ _ (block _ n b) |- _ =>
              pose proof (within_unfold _ _ _ _ p (H body) ltac:(lia));
              destruct (block tokens n body p)
          end
      | call_loop _ ?n ?e =>
          match goal with
          | H : forall b, within _ _ _ _ _ (call_loop _ n b) |- _ =>
              pose proof (within_unfold _ _ _ _ p (H e) ltac:(lia));
              destruct (call_loop tokens n e p)
          end
      | finishCall _ ?n ?e =>
          match goal with
          | H : forall b, within _ _ _ _ _ (finishCall _ n b) |- _ =>
              pose proof (within_unfold _ _ _ _ p (H e) ltac:(lia));
              destruct (finishCall tokens n e p)
          end
      | arguments_loop _ ?n ?e =>
          match goal with
          | H : forall b, within _ _ _ _ _ (arguments_loop _ n b) |- _ =>
              pose proof (within_unfold _ _ _ _ p (H e) ltac:(lia));
              destruct (arguments_loop tokens n e p)
          end
      | _ =>
          match goal with
          | H : within _ _ _ _ _ m |- _ =>
              pose proof (within_unfold _ _ _ _ p H ltac:(lia));
              destruct (m p)
          end
      end ].

Ltac run_method :=
  repeat
    (cbv beta iota;
     match goal with
     | |- match bind ?m ?k ?p with _ => _ end =>
         change (bind m k p)
           with (match m p with
                 | Ok a p' => k a p'
                 | Throw message p' => Throw message p'
                 | OutOfFuel => OutOfFuel
                 end);
         resolve m p
     | |- match ?m ?p with _ => _ end => resolve m p
     end);
  cbv beta iota; unfold fuel_per_token in *; try lia.

Lemma grammar_within_all n : grammar_within tokens last n.
Proof.
  induction n as [|n IH].
  - unfold grammar_within, within. repeat split; intros; cbn; lia.
  - destruct IH
      as (Hstatement & HvariableDeclaration & HprintStatement & HwhileLoop & HifStatement
          & HfunctionDeclaration & Hblock & Hexpression & HlogicalOr & HlogicalAnd
          & Hequality & Hcomparison & Hterm & Hfactor & Hunary & Hcall & Hcall_loop
          & HfinishCall & Harguments_loop & Hprimary).
    unfold grammar_within.
    repeat split;
      repeat match goal with |- forall _, within _ _ _ _ _ _ => intro end;
      intros pos Hpos.
    + cbn [statement]. run_method.
    + cbn [variableDeclaration]. run_method.
    + cbn [printStatement]. run_method.
    + cbn [whileLoop]. run_method.
    + cbn [ifStatement]. run_method.
    + cbn [functionDeclaration]. run_method.
    + cbn [block]. run_method.
    + cbn [expression]. run_method.
    + cbn [logicalOr]. run_method.
    + cbn [logicalAnd]. run_method.
    + cbn [equality]. run_method.
    + cbn [comparison]. run_method.
    + cbn [term]. run_method.
    + cbn [factor]. run_method.
    + cbn [unary]. run_method.
    + cbn [call]. run_method.
    + cbn [call_loop]. run_method.
    + cbn [finishCall]. run_method.
    + cbn [arguments_loop]. run_method.
    + cbn [primary]. run_method.
Qed.

(** *** Recovery and the loop of [parse] *)

Lemma synchronize_loop_within n :
  forall pos, pos <= last -> pos = last \/ 1 <= pos ->
    match synchronize_loop tokens n pos with
    | Ok _ pos' => pos <= pos' /\ pos' <= last
    | Throw _ _ => False
    | OutOfFuel => n < (last - pos) + 1
    end.
Proof.
  induction n as [|n IH]; intros pos Hle Hpos.
  - cbn. lia.
  - cbn [synchronize_loop]. unfold bind at 1. rewrite (isAtEnd_at pos Hle).
    destruct (Nat.eqb_spec pos last) as [->|Hne]; [cbn; lia|].
    destruct pos as [|p]; [lia|].
    destruct (token_at p ltac:(lia)) as (b & Eb & _).
    unfold bind at 1. unfold bind at 1. unfold previous. rewrite Eb. cbn [value_of]. unfold ret at 1.
    destruct (String.eqb (value b) "SEMICOLON"); [cbn; lia|].
    unfold bind at 1. destruct (peek_at "value" (S p) Hle) as (t & ->).
    destruct (list_includes statement_keywords (value t)); [cbn; lia|].
    unfold bind at 1. rewrite (advance_at (S p) Hle).
    destruct (Nat.eqb_spec (S p) last) as [Heq|_]; [contradiction|].
    specialize (IH (S (S p)) ltac:(lia) ltac:(lia)).
    destruct (synchronize_loop tokens n (S (S p))); [lia|exact IH|lia].
Qed.

Lemma synchronize_within n pos :
  pos <= last ->
  match synchronize tokens n pos with
  | Ok _ pos' => pos <= pos' /\ pos' <= last /\ (pos < pos' \/ pos' = last)
  | Throw _ _ => False
  | OutOfFuel => n < (last - pos) + 1
  end.
Proof.
  intros Hle. unfold synchronize. unfold bind at 1. rewrite (advance_at pos Hle).
  destruct (Nat.eqb_spec pos last) as [->|Hne].
  - pose proof (synchronize_loop_within n last ltac:(lia) ltac:(lia)) as H.
    destruct (synchronize_loop tokens n last); [lia|exact H|lia].
  - pose proof (synchronize_loop_within n (S pos) ltac:(lia) ltac:(lia)) as H.
    destruct (synchronize_loop tokens n (S pos)); [lia|exact H|lia].
Qed.

Lemma parse_loop_within n :
  forall statements pos, pos <= last ->
    match parse_loop tokens n statements pos with
    | Ok _ _ => True
    | Throw _ _ => False
    | OutOfFuel => n < fuel_per_token * (last - pos) + 17
    end.
Proof.
  induction n as [|n IH]; intros statements pos Hle.
  - cbn. lia.
  - cbn [parse_loop]. unfold bind at 1. rewrite (isAtEnd_at pos Hle).
    destruct (Nat.eqb_spec pos last) as [->|Hne]; [exact I|].
    pose proof (proj1 (grammar_within_all n) pos Hle) as Hst.
    destruct (statement tokens n pos) as [stmt pos1|message pos1|].
    + specialize (IH (statements ++ [stmt]) pos1 ltac:(lia)).
      destruct (parse_loop tokens n _ pos1); [exact I|exact IH|].
      unfold fuel_per_token in *. lia.
    + unfold bind at 1. pose proof (synchronize_within n pos1 ltac:(lia)) as Hsync.
      destruct (synchronize tokens n pos1) as [[] pos2|message2 pos2|]; [|exact Hsync|].
      * specialize (IH statements pos2 ltac:(lia)).
        destruct (parse_loop tokens n statements pos2) eqn:E; [exact I|exact IH|].
        destruct Hsync as (_ & _ & [Hlt| ->]).
        -- unfold fuel_per_token in *. lia.
        -- destruct n as [|n']; [unfold fuel_per_token; lia|].
           cbn [parse_loop] in E. unfold bind at 1 in E.
           rewrite (isAtEnd_at last ltac:(lia)), Nat.eqb_refl in E. discriminate E.
      * unfold fuel_per_token in *. lia.
    + unfold fuel_per_token in *. lia.
Qed.

Lemma parse_finishes n :
  fuel_per_token * last + 17 <= n -> exists ast pos, parse tokens n = Ok ast pos.
Proof.
  intros Hn. unfold parse. pose proof (parse_loop_within n [] 0 ltac:(lia)) as H.
  destruct (parse_loop tokens n [] 0) as [ast pos|message pos|]; [eauto|contradiction|].
  rewrite Nat.sub_0_r in H. lia.
Qed.

End WellFormed.

Lemma tokenize_well_formed tokens ln col :
  List.Forall not_EOF tokens ->
  well_formed (tokens ++ [mkToken EOF "" ln col]) (List.length tokens).
Proof.
  intros Hall. split.
  - exists (mkToken EOF "" ln col). split; [|reflexivity].
    rewrite nth_error_app2 by lia. rewrite Nat.sub_diag. reflexivity.
  - intros i Hi. destruct (nth_error tokens i) as [t|] eqn:Et.
    + exists t. split; [rewrite nth_error_app1 by lia; exact Et|].
      rewrite List.Forall_forall in Hall. apply Hall. eapply nth_error_In; eauto.
    + apply nth_error_None in Et. lia.
Qed.

End ParserTermination.

(** ** Runs of the entry point *)

Module ExecutionFacts.
Import InterpreterFacts.

Lemma interpret_more_fuel n m ast st r :
  BrainRotInterpreter.interpret n ast st = Normal r -> n <= m ->
  BrainRotInterpreter.interpret m ast st = Normal r.
Proof.
  unfold BrainRotInterpreter.interpret. intros H Hle.
  destruct (BrainRotInterpreter.run_statements (BrainRotInterpreter.execute n) ast
              Host.VUndefined _) as [v st'|message st'|] eqn:E; [| |discriminate].
  - apply (run_statements_more_fuel n m) in E; [|discriminate|exact Hle].
    rewrite E. exact H.
  - apply (run_statements_more_fuel n m) in E; [|discriminate|exact Hle].
    rewrite E. exact H.
Qed.

Lemma interpret_not_abrupt fuel ast st message :
  BrainRotInterpreter.interpret fuel ast st <> Abrupt message.
Proof.
  unfold BrainRotInterpreter.interpret.
  destruct (BrainRotInterpreter.run_statements _ ast Host.VUndefined _); discriminate.
Qed.

Lemma executeBrainRot_more_fuel n m code r :
  executeBrainRot n code = Normal r -> n <= m -> executeBrainRot m code = Normal r.
Proof.
  unfold executeBrainRot, run_pipeline. intros H Hle.
  destruct (BrainRotTokenizer.tokenize code) as [tokens|]; [|discriminate].
  destruct (BrainRotParser.parse tokens n) as [ast position|message position|] eqn:E;
    [| |discriminate].
  - apply (ParserFacts.parse_more_fuel tokens n m) in E; [|discriminate|exact Hle].
    rewrite E.
    destruct (BrainRotInterpreter.interpret n ast BrainRotInterpreter.initial)
      as [r'|message|] eqn:Ei; [| |discriminate].
    + apply (interpret_more_fuel n m) in Ei; [|exact Hle]. rewrite Ei. exact H.
    + exfalso. exact (interpret_not_abrupt _ _ _ _ Ei).
  - apply (ParserFacts.parse_more_fuel tokens n m) in E; [|discriminate|exact Hle].
    rewrite E. exact H.
Qed.

Lemma returns_with fuel code r : executeBrainRot fuel code = Normal r -> returns code r.
Proof. intros H. exists fuel. intros m Hle. eapply executeBrainRot_more_fuel; eauto. Qed.

Lemma returns_deterministic code r1 r2 : returns code r1 -> returns code r2 -> r1 = r2.
Proof.
  intros [n1 H1] [n2 H2].
  specialize (H1 (Nat.max n1 n2) ltac:(lia)). specialize (H2 (Nat.max n1 n2) ltac:(lia)).
  congruence.
Qed.

(** The tokenizer and the parser always hand an AST to the interpreter. *)
Lemma front_end_finishes code :
  exists tokens ast position n,
    BrainRotTokenizer.tokenize code = Some tokens
    /\ forall fuel, n <= fuel ->
         BrainRotParser.parse tokens fuel = BrainRotParser.Ok ast position.
Proof.
  destruct (TokenizerFacts.tokenize_ends_with_EOF code) as (tokens & ln & col & Htok & Hall).
  pose proof (ParserTermination.tokenize_well_formed tokens ln col Hall) as Hwf.
  destruct (ParserTermination.parse_finishes _ _ Hwf
              (fuel_per_token * List.length tokens + 17) ltac:(lia))
    as (ast & position & Hparse).
  exists (tokens ++ [mkToken EOF "" ln col]), ast, position,
    (fuel_per_token * List.length tokens + 17).
  split; [exact Htok|]. intros fuel Hle.
  eapply ParserFacts.parse_more_fuel; [exact Hparse|discriminate|exact Hle].
Qed.

Lemma executeBrainRot_is_interpret code :
  exists ast n,
    forall fuel, n <= fuel ->
      executeBrainRot fuel code
      = BrainRotInterpreter.interpret fuel ast BrainRotInterpreter.initial.
Proof.
  destruct (front_end_finishes code) as (tokens & ast & position & n & Htok & Hparse).
  exists ast, n. intros fuel Hle.
  unfold executeBrainRot, run_pipeline. rewrite Htok, (Hparse fuel Hle).
  destruct (BrainRotInterpreter.interpret fuel ast BrainRotInterpreter.initial)
    as [r|message|] eqn:E; try reflexivity.
  exfalso. exact (interpret_not_abrupt _ _ _ _ E).
Qed.

(** A call that finds its function runs the parameter loop and the body on
    the live state, and then puts back the variables it started from;
    nothing else of the state is put back. *)
Lemma call_inversion fuel name arguments st v st' :
  BrainRotInterpreter.evaluate fuel (CallExpression name arguments) st
    = BrainRotInterpreter.Return v st' ->
  exists fuel' parameters body st1 st2,
    fuel = S fuel'
    /\ BrainRotInterpreter.functions_get name st = Some (parameters, body)
    /\ BrainRotInterpreter.bind_parameters (BrainRotInterpreter.evaluate fuel')
         parameters arguments st = BrainRotInterpreter.Return tt st1
    /\ BrainRotInterpreter.run_statements (BrainRotInterpreter.execute fuel')
         body Host.VUndefined st1 = BrainRotInterpreter.Return v st2
    /\ st' = BrainRotInterpreter.mkState (BrainRotInterpreter.variables st)
               (BrainRotInterpreter.functions st2) (BrainRotInterpreter.output st2).
Proof.
  destruct fuel as [|fuel']; [discriminate|]. cbn [BrainRotInterpreter.evaluate].
  destruct (BrainRotInterpreter.functions_get name st) as [[parameters body]|];
    [|discriminate].
  unfold BrainRotInterpreter.bind at 1. unfold BrainRotInterpreter.get_variables.
  unfold BrainRotInterpreter.bind at 1.
  destruct (BrainRotInterpreter.bind_parameters _ parameters arguments st)
    as [[] st1|message st1|] eqn:Eb; try discriminate.
  unfold BrainRotInterpreter.bind at 1.
  destruct (BrainRotInterpreter.run_statements _ body Host.VUndefined st1)
    as [result st2|message st2|] eqn:Er; try discriminate.
  cbn. intros [= <- <-].
  exists fuel', parameters, body, st1, st2. auto.
Qed.

Lemma call_restores_variables fuel name arguments st v st' :
  BrainRotInterpreter.evaluate fuel (CallExpression name arguments) st
    = BrainRotInterpreter.Return v st' ->
  BrainRotInterpreter.variables st' = BrainRotInterpreter.variables st.
Proof.
  intros H. apply call_inversion in H as (? & ? & ? & ? & ? & _ & _ & _ & _ & ->).
  reflexivity.
Qed.

End ExecutionFacts.

(** ** More on calls: the body's statements and the function table *)

Module CallFacts.
Import Host BrainRotInterpreter InterpreterFacts.

Lemma evaluate_frames fuel : forall expr, frames (evaluate fuel expr).
Proof.
  induction fuel as [|fuel IH]; intros expr st v st' H; [discriminate|].
  destruct expr; try (cbn [evaluate] in H; discriminate).
  - cbn [evaluate] in H. injection H as _ <-. reflexivity.
  - cbn [evaluate] in H. destruct (variables st !! name); [|discriminate].
    injection H as _ <-. reflexivity.
  - cbn [evaluate] in H. unfold bind in H.
    destruct (evaluate fuel expr1 st) as [lv st1|m st1|] eqn:E1; try discriminate.
    destruct (evaluate fuel expr2 st1) as [rv st2|m st2|] eqn:E2; try discriminate.
    destruct (binary_operator operator lv rv); [|discriminate].
    injection H as _ <-. rewrite (IH _ _ _ _ E2). apply (IH _ _ _ _ E1).
  - eapply ExecutionFacts.call_restores_variables. exact H.
Qed.

(** The parameter loop binds the parameters in the live variables and
    leaves every other variable as it is. *)
Lemma bind_parameters_keeps_others fuel parameters :
  forall arguments st bound,
    bind_parameters (evaluate fuel) parameters arguments st = Return tt bound ->
    forall x, ~ In x parameters -> variables bound !! x = variables st !! x.
Proof.
  induction parameters as [|p ps IH]; intros arguments st bound H x Hx.
  - cbn in H. injection H as <-. reflexivity.
  - assert (Hp : p <> x) by (intros ->; apply Hx; left; reflexivity).
    assert (Hps : ~ In x ps) by (intros Hin; apply Hx; right; exact Hin).
    destruct arguments as [|a args]; cbn [bind_parameters] in H.
    + unfold bind at 1 in H. cbn [variables_set] in H.
      rewrite (IH _ _ _ H x Hps). cbn [variables]. apply lookup_insert_ne. exact Hp.
    + unfold bind at 1 in H.
      destruct (evaluate fuel a st) as [v st1|m st1|] eqn:E; try discriminate.
      unfold bind at 1 in H. cbn [variables_set] in H.
      rewrite (IH _ _ _ H x Hps). cbn [variables]. rewrite lookup_insert_ne by exact Hp.
      rewrite (evaluate_frames fuel a st v st1 E). reflexivity.
Qed.

(** A call that finds its function and finishes: either the parameter loop
    threw, or the body ran on the state the parameter loop left. *)
Lemma finished_call fuel name arguments st out parameters body :
  evaluate fuel (CallExpression name arguments) st = out -> out <> OutOfFuel ->
  functions_get name st = Some (parameters, body) ->
  exists fuel',
    fuel = S fuel'
    /\ ((exists message st1,
            bind_parameters (evaluate fuel') parameters arguments st = Throw message st1
            /\ out = Throw message st1)
        \/ (exists bound out_body,
               bind_parameters (evaluate fuel') parameters arguments st = Return tt bound
               /\ run_statements (execute fuel') body VUndefined bound = out_body
               /\ out_body <> OutOfFuel
               /\ out = after_call st out_body)).
Proof.
  intros H Hne Hget. destruct fuel as [|fuel']; [symmetry in H; contradiction|].
  exists fuel'. split; [reflexivity|].
  cbn [evaluate] in H. rewrite Hget in H.
  unfold bind at 1 in H. unfold get_variables in H. unfold bind at 1 in H.
  destruct (bind_parameters (evaluate fuel') parameters arguments st)
    as [[] bound|message st1|] eqn:Eb.
  - right. exists bound, (run_statements (execute fuel') body VUndefined bound).
    split; [reflexivity|]. split; [reflexivity|].
    unfold bind at 1 in H.
    destruct (run_statements (execute fuel') body VUndefined bound)
      as [result st2|message st2|]; cbn in H.
    + split; [discriminate|]. symmetry. exact H.
    + split; [discriminate|]. symmetry. exact H.
    + symmetry in H. contradiction.
  - left. exists message, st1. split; [reflexivity|]. symmetry. exact H.
  - symmetry in H. contradiction.
Qed.

Lemma run_statements_app exec l1 l2 result st v st2 :
  run_statements exec (l1 ++ l2) result st = Return v st2 ->
  exists r1 st1,
    run_statements exec l1 result st = Return r1 st1
    /\ run_statements exec l2 r1 st1 = Return v st2.
Proof.
  revert result st. induction l1 as [|stmt l1 IH]; intros result st H; simpl in *.
  - exists result, st. split; [reflexivity|exact H].
  - unfold bind in *. destruct (exec stmt st) as [r st'|message st'|]; try discriminate.
    apply IH. exact H.
Qed.

Lemma execute_statement_value fuel node st v st' :
  execute fuel node st = Return v st' -> statement_value node st v st'.
Proof.
  destruct fuel as [|fuel]; [discriminate|].
  destruct node; cbn [execute statement_value]; intros H;
    try (exists fuel; split; [exact H|discriminate]).
  - unfold bind in H.
    destruct (evaluate fuel node st) as [v1 st1|message st1|] eqn:E; try discriminate.
    cbn in H. injection H as <- _. exists st1, fuel. split; [exact E|discriminate].
  - unfold bind in H.
    destruct (evaluate fuel node st) as [v1 st1|message st1|] eqn:E; try discriminate.
    cbn in H. injection H as <- _. exists st1, fuel. split; [exact E|discriminate].
  - unfold bind in H.
    destruct (while_loop fuel node body st) as [[] st1|message st1|]; try discriminate.
    unfold ret in H. congruence.
  - unfold bind in H.
    destruct (evaluate fuel node st) as [c st1|message st1|]; try discriminate.
    destruct (isTruthy c); [|destruct elseBody as [stmts|]]; unfold bind in H;
      try (unfold ret in H; congruence);
      match type of H with
      | context [run_statements ?e ?l ?r ?s] =>
          destruct (run_statements e l r s); try discriminate; unfold ret in H; congruence
      end.
  - cbv [bind functions_set ret] in H. congruence.
Qed.

Lemma functions_kept_refl st : functions_kept st st.
Proof. intros g H. exact H. Qed.

Lemma functions_kept_trans st1 st2 st3 :
  functions_kept st1 st2 -> functions_kept st2 st3 -> functions_kept st1 st3.
Proof. intros H1 H2 g H. auto. Qed.

Lemma keeps_ret {A : Type} (a : A) : keeps (ret a).
Proof. intros st a' st' [= _ <-]. apply functions_kept_refl. Qed.

Lemma keeps_throw {A : Type} message : keeps (@throw A message).
Proof. intros st a st' H. discriminate. Qed.

Lemma keeps_out_of_fuel {A : Type} : keeps (@out_of_fuel A).
Proof. intros st a st' H. discriminate. Qed.

Lemma keeps_bind {A B : Type} (m : Interp A) (k : A -> Interp B) :
  keeps m -> (forall a, keeps (k a)) -> keeps (bind m k).
Proof.
  intros Hm Hk st b st' H. unfold bind in H.
  destruct (m st) as [a st1|message st1|] eqn:E; try discriminate.
  eapply functions_kept_trans; [eapply Hm; eauto|eapply Hk; eauto].
Qed.

Lemma keeps_get_variables : keeps get_variables.
Proof. intros st a st' [= _ <-]. apply functions_kept_refl. Qed.

Lemma keeps_set_variables vars : keeps (set_variables vars).
Proof. intros st a st' [= _ <-] g H. exact H. Qed.

Lemma keeps_variables_set name v : keeps (variables_set name v).
Proof. intros st a st' [= _ <-] g H. exact H. Qed.

Lemma keeps_output_push text : keeps (output_push text).
Proof. intros st a st' [= _ <-] g H. exact H. Qed.

Lemma keeps_functions_set name decl : keeps (functions_set name decl).
Proof.
  intros st a st' [= _ <-] g H. cbn.
  destruct (decide (name = g)) as [->|Hne].
  - rewrite lookup_insert_eq. eauto.
  - rewrite lookup_insert_ne; assumption.
Qed.

Lemma keeps_run_statements exec stmts result :
  (forall node, keeps (exec node)) -> keeps (run_statements exec stmts result).
Proof.
  intros Hexec. revert result. induction stmts as [|stmt stmts IH]; intros result; simpl.
  - apply keeps_ret.
  - apply keeps_bind; auto.
Qed.

Lemma keeps_bind_parameters eval parameters arguments :
  (forall node, keeps (eval node)) -> keeps (bind_parameters eval parameters arguments).
Proof.
  intros Heval. revert arguments.
  induction parameters as [|p ps IH]; intros arguments; simpl.
  - apply keeps_ret.
  - destruct arguments as [|a args].
    + apply keeps_bind; [apply keeps_variables_set|auto].
    + apply keeps_bind; [auto|]. intros v.
      apply keeps_bind; [apply keeps_variables_set|auto].
Qed.

Create HintDb keeps.
#[local] Hint Resolve keeps_ret keeps_throw keeps_out_of_fuel keeps_get_variables
  keeps_set_variables keeps_variables_set keeps_output_push keeps_functions_set
  keeps_run_statements keeps_bind_parameters : keeps.

Ltac keeps_step :=
  first [ apply keeps_bind; [|intros ?] | solve [auto with keeps] ].

Lemma execution_keeps_functions fuel :
  (forall node, keeps (execute fuel node))
  /\ (forall expr, keeps (evaluate fuel expr))
  /\ (forall c body, keeps (while_loop fuel c body)).
Proof.
  induction fuel as [|fuel (IHx & IHe & IHw)].
  - repeat split; intros; apply keeps_out_of_fuel.
  - repeat split.
    + intros node. destruct node; cbn [execute]; auto; try (repeat keeps_step; fail).
      apply keeps_bind; [auto|]. intros c.
      destruct (isTruthy c); [|destruct elseBody]; repeat keeps_step.
    + intros expr. destruct expr; cbn [evaluate]; auto with keeps.
      * intros st a st' H. destruct (variables st !! name); [|discriminate].
        injection H as _ <-. apply functions_kept_refl.
      * repeat keeps_step.
        destruct (binary_operator operator a a0); auto with keeps.
      * intros st a st' H.
        destruct (functions_get name st) as [[parameters body]|]; [|discriminate].
        revert H. apply keeps_bind; [apply keeps_get_variables|]. intros prevVars.
        repeat keeps_step.
    + intros c body. cbn [while_loop].
      apply keeps_bind; [auto|]. intros v. destruct (isTruthy v); repeat keeps_step.
Qed.

Lemma run_statements_keeps_functions fuel stmts result st v st' :
  run_statements (execute fuel) stmts result st = Return v st' -> functions_kept st st'.
Proof.
  apply keeps_run_statements. apply (proj1 (execution_keeps_functions fuel)).
Qed.

End CallFacts.

(** ** Recovery from a parse failure *)

Module RecoveryFacts.
Import BrainRotParser.

Section Tokens.

Variable tokens : list Token.

Ltac run_parser :=
  cbv [bind isAtEnd peek previous value_of ret throw advance]; cbv beta iota.

Lemma boundary_tokens i :
  at_boundary tokens i = true \/ skipped tokens i = true ->
  exists p t b, i = S p /\ nth_error tokens (S p) = Some t /\ nth_error tokens p = Some b.
Proof.
  unfold at_boundary, skipped. intros H.
  destruct (nth_error tokens i) as [t|] eqn:Et; [|destruct H; discriminate].
  destruct i as [|p]; [destruct H; discriminate|]. cbn [token_before] in H.
  destruct (nth_error tokens p) as [b|] eqn:Eb; [|destruct H; discriminate].
  exists p, t, b. auto.
Qed.

Lemma synchronize_loop_stops k :
  forall i fuel,
    (forall j, j < k -> skipped tokens (i + j) = true) ->
    at_boundary tokens (i + k) = true ->
    k < fuel ->
    synchronize_loop tokens fuel i = Ok tt (i + k).
Proof.
  induction k as [|k IH]; intros i fuel Hskip Hstop Hfuel.
  - destruct fuel as [|fuel]; [lia|]. rewrite Nat.add_0_r in *.
    destruct (boundary_tokens i (or_introl Hstop)) as (p & t & b & -> & Et & Eb).
    unfold at_boundary in Hstop. cbn [token_before] in Hstop. rewrite Et, Eb in Hstop.
    cbn [synchronize_loop]. run_parser. rewrite Et. run_parser.
    destruct (TokenType_eqb (type t) EOF); [reflexivity|].
    run_parser. rewrite Eb. run_parser.
    destruct (String.eqb (value b) "SEMICOLON"); [reflexivity|].
    run_parser. rewrite Et. run_parser.
    cbn [orb] in Hstop. rewrite Hstop. reflexivity.
  - destruct fuel as [|fuel]; [lia|].
    pose proof (Hskip 0 ltac:(lia)) as H0. rewrite Nat.add_0_r in H0.
    destruct (boundary_tokens i (or_intror H0)) as (p & t & b & -> & Et & Eb).
    unfold skipped in H0. cbn [token_before] in H0. rewrite Et, Eb in H0.
    apply andb_true_iff in H0 as [H0 Hkw]. apply andb_true_iff in H0 as [Heof Hsemi].
    apply negb_true_iff in Heof, Hsemi, Hkw.
    cbn [synchronize_loop]. run_parser. rewrite Et. run_parser. rewrite Heof.
    run_parser. rewrite Eb. run_parser. rewrite Hsemi.
    run_parser. rewrite Et. run_parser. rewrite Hkw.
    run_parser. rewrite Et. run_parser. rewrite Heof. run_parser.
    replace (S p + S k) with (S (S p) + k) by lia.
    apply IH; [|replace (S (S p) + k) with (S p + S k) by lia; exact Hstop|lia].
    intros j Hj. replace (S (S p) + j) with (S p + S j) by lia. apply Hskip. lia.
Qed.

(** After a failure at the token [q], [synchronize] drops that token and
    stops at the first boundary after it. *)
Lemma synchronize_resumes fuel q k t :
  nth_error tokens q = Some t -> type t <> EOF ->
  (forall j, j < k -> skipped tokens (q + 1 + j) = true) ->
  at_boundary tokens (q + 1 + k) = true ->
  k < fuel ->
  synchronize tokens fuel q = Ok tt (q + 1 + k).
Proof.
  intros Et Hne Hskip Hstop Hfuel. unfold synchronize.
  run_parser. rewrite Et. run_parser.
  destruct (TokenType_eqb (type t) EOF) eqn:E.
  { destruct (type t); discriminate || contradiction. }
  run_parser. replace (S q) with (q + 1) by lia.
  apply synchronize_loop_stops; assumption.
Qed.

Lemma parse_loop_drops_failed_statement fuel statements p q k message t :
  isAtEnd tokens p = Ok false p ->
  statement tokens fuel p = Throw message q ->
  nth_error tokens q = Some t -> type t <> EOF ->
  (forall j, j < k -> skipped tokens (q + 1 + j) = true) ->
  at_boundary tokens (q + 1 + k) = true ->
  k < fuel ->
  parse_loop tokens (S fuel) statements p = parse_loop tokens fuel statements (q + 1 + k).
Proof.
  intros Hend Hthrow Et Hne Hskip Hstop Hfuel.
  cbn [parse_loop]. unfold bind at 1. rewrite Hend, Hthrow.
  unfold bind. rewrite (synchronize_resumes fuel q k t); auto.
Qed.

End Tokens.

End RecoveryFacts.

(** * The claims *)

Import InterpreterFacts ExecutionFacts CallFacts RecoveryFacts.

(** ** C1: a call puts the caller's variables back *)

(** C1. For every call expression that completes without a runtime error,
    the variable environment after the call equals the environment just
    before the call began; and the program
    [mold a = 1; fnrot f() { mold a = 99; } f(); rott a;] prints
    exactly the line 1. *)
Theorem call_restores_environment :
  (forall name arguments st v st',
      evaluates (CallExpression name arguments) st (BrainRotInterpreter.Return v st') ->
      BrainRotInterpreter.variables st' = BrainRotInterpreter.variables st)
  /\ prints scope_rollback ["1"].
Proof.
  split.
  - intros name arguments st v st' (fuel & H & _).
    eapply call_restores_variables; eauto.
  - apply (returns_with 50). vm_compute. reflexivity.
Qed.

Lemma call_restores_environment_witness :
  evaluates (CallExpression (Some "f") []) before_call_of_f
    (BrainRotInterpreter.Return (Host.VNumber 99) after_call_of_f)
  /\ BrainRotInterpreter.variables after_call_of_f
     = BrainRotInterpreter.variables before_call_of_f.
Proof.
  assert (H : evaluates (CallExpression (Some "f") []) before_call_of_f
                (BrainRotInterpreter.Return (Host.VNumber 99) after_call_of_f)).
  { exists 5. split; [vm_compute; reflexivity|discriminate]. }
  split; [exact H|].
  exact (proj1 call_restores_environment _ _ _ _ _ H).
Defined.

(** ** C2: unary expressions *)

(** C2 (what the code does). [evaluate] has no case for a unary expression:
    evaluating one throws "Unknown expression type: UnaryExpression",
    whatever the operator and the operand. The three truthiness programs
    of the specification all end with that runtime error and no output;
    [notrot 0] and [notrot ""] do not print yes. The logic example of the
    IDE prints its first two lines and ends with the same error at its
    [notrot]. *)
Theorem unary_expression_is_not_evaluated :
  (forall fuel operator operand st,
      BrainRotInterpreter.evaluate (S fuel) (UnaryExpression operator operand) st
      = BrainRotInterpreter.Throw "Unknown expression type: UnaryExpression" st)
  /\ returns (truthiness_program "0")
       (failed [] "Unknown expression type: UnaryExpression")
  /\ returns (truthiness_program (quoted ""))
       (failed [] "Unknown expression type: UnaryExpression")
  /\ returns (truthiness_program "1")
       (failed [] "Unknown expression type: UnaryExpression")
  /\ returns logic
       (failed ["Brain rot detected!"; "Double brain rot!"]
          "Unknown expression type: UnaryExpression").
Proof.
  split; [reflexivity|].
  repeat split; apply (returns_with 50); vm_compute; reflexivity.
Qed.

(** ** C3: the fibonacci example *)

(** C3 (what the code does). The fibonacci example prints the lines of
    [fib(0)], ..., [fib(7)] as [fib_lines] gives them: one hundred lines,
    each 0 or 1, beginning 0, 1, 1, 0, 0; not the eight lines
    0, 1, 1, 2, 3, 5, 8, 13. *)
Theorem fibonacci_example_output :
  prints fibonacci (flat_map fib_lines (seq 0 8))
  /\ List.length (flat_map fib_lines (seq 0 8)) = 100
  /\ firstn 5 (flat_map fib_lines (seq 0 8)) = ["0"; "1"; "1"; "0"; "0"]
  /\ ~ prints fibonacci ["0"; "1"; "1"; "2"; "3"; "5"; "8"; "13"].
Proof.
  assert (H : prints fibonacci (flat_map fib_lines (seq 0 8))).
  { apply (returns_with 200). vm_compute. reflexivity. }
  repeat split; try reflexivity; try exact H.
  intros H'. pose proof (returns_deterministic _ _ _ H H') as E. discriminate E.
Qed.

(** ** C4: the value of a call *)

(** C4 (counterexample). The body of [f] ends with a variable declaration
    and the call [f()] yields the declared value 99, which is printed; it
    does not yield an undefined result, which would print undefined. *)
Lemma declaration_body_yields_its_value :
  prints declaration_result ["99"] /\ ~ prints declaration_result ["undefined"].
Proof.
  assert (H : prints declaration_result ["99"]).
  { apply (returns_with 50). vm_compute. reflexivity. }
  split; [exact H|].
  intros H'. pose proof (returns_deterministic _ _ _ H H') as E. discriminate E.
Qed.

(** C4 (amended). For every call that completes, the result is what
    [execute] returned for the last statement of the body's statement list,
    run after the parameter loop and the statements before it: the declared
    value for a variable declaration, the printed value for a print
    statement, [null] for a while loop, an if statement or a function
    declaration, the value of the expression for an expression statement;
    when the body has no statement the result is undefined. *)
Theorem call_result_is_last_statement_value :
  forall name arguments st v st',
    evaluates (CallExpression name arguments) st (BrainRotInterpreter.Return v st') ->
    exists parameters body,
      BrainRotInterpreter.functions_get name st = Some (parameters, body)
      /\ (body = [] -> v = Host.VUndefined)
      /\ (forall init last_statement,
             body = init ++ [last_statement] ->
             exists bound r st1 st2,
               binds parameters arguments st (BrainRotInterpreter.Return tt bound)
               /\ runs init Host.VUndefined bound (BrainRotInterpreter.Return r st1)
               /\ executes last_statement st1 (BrainRotInterpreter.Return v st2)
               /\ statement_value last_statement st1 v st2).
Proof.
  intros name arguments st v st' (fuel & H & _).
  apply call_inversion in H
    as (fuel' & parameters & body & bound & st2 & -> & Hget & Hbind & Hrun & ->).
  exists parameters, body. split; [exact Hget|]. split.
  - intros ->. cbn in Hrun. unfold BrainRotInterpreter.ret in Hrun. congruence.
  - intros init last_statement ->.
    apply run_statements_app in Hrun as (r & st1 & Hinit & Hlast).
    cbn in Hlast. unfold BrainRotInterpreter.bind in Hlast.
    destruct (BrainRotInterpreter.execute fuel' last_statement st1)
      as [v' st2'|message st2'|] eqn:E; try discriminate.
    cbn in Hlast. unfold BrainRotInterpreter.ret in Hlast. injection Hlast as -> ->.
    exists bound, r, st1, st2.
    split; [exists fuel'; split; [exact Hbind|discriminate]|].
    split; [exists fuel'; split; [exact Hinit|discriminate]|].
    split; [exists fuel'; split; [exact E|discriminate]|].
    eapply execute_statement_value; eauto.
Qed.

Lemma call_result_is_last_statement_value_witness :
  exists parameters body,
    BrainRotInterpreter.functions_get (Some "f") f_declares = Some (parameters, body)
    /\ (body = [] -> Host.VNumber 99 = Host.VUndefined)
    /\ (forall init last_statement,
           body = init ++ [last_statement] ->
           exists bound r st1 st2,
             binds parameters [] f_declares (BrainRotInterpreter.Return tt bound)
             /\ runs init Host.VUndefined bound (BrainRotInterpreter.Return r st1)
             /\ executes last_statement st1 (BrainRotInterpreter.Return (Host.VNumber 99) st2)
             /\ statement_value last_statement st1 (Host.VNumber 99) st2).
Proof.
  apply (call_result_is_last_statement_value (Some "f") [] f_declares
           (Host.VNumber 99) f_declares).
  exists 5. split; [vm_compute; reflexivity|discriminate].
Defined.

(** ** C5: recovery from a parse failure *)



(** C5 (counterexample). For a declaration missing its terminating
    semicolon followed by [rott "ok";] the run returns no line and no
    error: the failure is raised at the [rott] keyword, which recovery
    drops, and the valid statement is not run. *)
Lemma missing_semicolon_loses_the_next_statement :
  prints missing_semicolon [] /\ ~ prints missing_semicolon ["ok"].
Proof.
  assert (H : prints missing_semicolon []).
  { apply (returns_with 50). vm_compute. reflexivity. }
  split; [exact H|].
  intros H'. pose proof (returns_deterministic _ _ _ H H') as E. discriminate E.
Qed.

(** C5 (amended). A top-level statement whose parse throws adds no
    statement and surfaces no error: the parser drops the token [q] at
    which the failure was raised, then every token it steps over, and
    parses on from the first position after [q] where the token before is
    [;], or the token is one of MOLD, ROTT, SPIN, IFROT, FNROT, or the input
    ends. So a malformed statement followed by a valid one runs the valid
    one when it begins at that position: [mold = 5; rott "ok";] returns
    the line ok and no error. When the failure is raised at the first token
    of the valid statement, as for a missing semicolon, that token is
    dropped: [mold x = 1 rott "ok";] returns no line and no error. *)
Theorem recovery_resumes_after_the_failing_token :
  (forall tokens fuel statements p q k message t,
      BrainRotParser.isAtEnd tokens p = BrainRotParser.Ok false p ->
      BrainRotParser.statement tokens fuel p = BrainRotParser.Throw message q ->
      nth_error tokens q = Some t -> type t <> EOF ->
      (forall j, j < k -> skipped tokens (q + 1 + j) = true) ->
      at_boundary tokens (q + 1 + k) = true ->
      k < fuel ->
      BrainRotParser.parse_loop tokens (S fuel) statements p
      = BrainRotParser.parse_loop tokens fuel statements (q + 1 + k))
  /\ prints missing_name ["ok"]
  /\ prints missing_semicolon [].
Proof.
  split; [intros; eapply parse_loop_drops_failed_statement; eauto|].
  split; apply (returns_with 50); vm_compute; reflexivity.
Qed.

(** In [mold = 5; rott "ok";] the failure is raised at [=], token 1; the
    tokens [5] and [;] are stepped over and parsing resumes at token 4,
    the [rott] keyword. *)
Lemma recovery_resumes_after_the_failing_token_witness :
  BrainRotParser.parse_loop (tokens_of missing_name) 21 [] 0
  = BrainRotParser.parse_loop (tokens_of missing_name) 20 [] (1 + 1 + 2).
Proof.
  apply (proj1 recovery_resumes_after_the_failing_token (tokens_of missing_name) 20 [] 0 1 2
           "Expected variable name at line 1, column 6" (mkToken OPERATOR "ASSIGN" 1 6)).
  - vm_compute. reflexivity.
  - vm_compute. reflexivity.
  - vm_compute. reflexivity.
  - discriminate.
  - intros j Hj. destruct j as [|[|j]]; [vm_compute; reflexivity|vm_compute; reflexivity|lia].
  - vm_compute. reflexivity.
  - lia.
Defined.

(** ** C6: nested calls *)

(** C6 (counterexample). The variable [b] created during the inner call
    [g()] is not visible to the body of [f] after [g()] returns: reading it
    fails, and nothing is printed. *)
Lemma inner_call_variable_is_rolled_back :
  returns inner_call_program (failed [] "Undefined variable: b")
  /\ ~ prints inner_call_program ["2"].
Proof.
  assert (H : returns inner_call_program (failed [] "Undefined variable: b")).
  { apply (returns_with 50). vm_compute. reflexivity. }
  split; [exact H|].
  intros H'. pose proof (returns_deterministic _ _ _ H H') as E. discriminate E.
Qed.

(** C6 (amended). In a chain of nested or recursive calls the live
    environment is shared on the way in: the body of every call that gets
    to run starts with the variables there were at the call, the
    parameters bound over them, so a callee sees the variables of the
    calls that enclose it ([shared_environment_program] prints 7). Every
    call of the chain, inner ones included, restores its own snapshot when
    it returns: when a body goes on after a call statement, the statements
    after it run with exactly the variables there were just before that
    call, so what the inner call created or changed is not visible to
    them. *)
Theorem every_call_restores_its_own_snapshot :
  (forall name arguments rest result st out,
      runs (CallExpression name arguments :: rest) result st out ->
      (exists message st1,
          executes (CallExpression name arguments) st (BrainRotInterpreter.Throw message st1)
          /\ out = BrainRotInterpreter.Throw message st1)
      \/ (exists v st1,
             executes (CallExpression name arguments) st (BrainRotInterpreter.Return v st1)
             /\ BrainRotInterpreter.variables st1 = BrainRotInterpreter.variables st
             /\ runs rest v st1 out))
  /\ (forall name arguments st out parameters body,
         evaluates (CallExpression name arguments) st out ->
         BrainRotInterpreter.functions_get name st = Some (parameters, body) ->
         (exists message st1,
             binds parameters arguments st (BrainRotInterpreter.Throw message st1)
             /\ out = BrainRotInterpreter.Throw message st1)
         \/ (exists bound out_body,
                binds parameters arguments st (BrainRotInterpreter.Return tt bound)
                /\ (forall x, ~ In x parameters ->
                               BrainRotInterpreter.variables bound !! x
                               = BrainRotInterpreter.variables st !! x)
                /\ runs body Host.VUndefined bound out_body
                /\ out = after_call st out_body))
  /\ prints shared_environment_program ["7"].
Proof.
  split; [|split; [|apply (returns_with 50); vm_compute; reflexivity]].
  - intros name arguments rest result st out (fuel & H & Hne).
    cbn [BrainRotInterpreter.run_statements] in H. unfold BrainRotInterpreter.bind in H.
    destruct (BrainRotInterpreter.execute fuel (CallExpression name arguments) st)
      as [v st1|message st1|] eqn:E; [| |symmetry in H; contradiction].
    + right. exists v, st1.
      split; [exists fuel; split; [exact E|discriminate]|].
      split; [|exists fuel; split; [exact H|exact Hne]].
      destruct fuel as [|fuel]; [discriminate|]. cbn [BrainRotInterpreter.execute] in E.
      eapply call_restores_variables; eauto.
    + left. exists message, st1.
      split; [exists fuel; split; [exact E|discriminate]|]. symmetry. exact H.
  - intros name arguments st out parameters body (fuel & H & Hne) Hget.
    destruct (finished_call fuel name arguments st out parameters body H Hne Hget)
      as (fuel' & -> & [(message & st1 & Hbind & ->)
                       |(bound & out_body & Hbind & Hrun & Hbody & ->)]).
    + left. exists message, st1.
      split; [exists fuel'; split; [exact Hbind|discriminate]|reflexivity].
    + right. exists bound, out_body.
      split; [exists fuel'; split; [exact Hbind|discriminate]|].
      split; [exact (bind_parameters_keeps_others fuel' parameters arguments st bound Hbind)|].
      split; [exists fuel'; split; [exact Hrun|exact Hbody]|reflexivity].
Qed.

Lemma every_call_restores_its_own_snapshot_witness :
  ((exists message st1,
       executes (CallExpression (Some "g") []) g_declared
         (BrainRotInterpreter.Throw message st1)
       /\ @BrainRotInterpreter.Throw Host.Value "Undefined variable: b" g_declared
          = BrainRotInterpreter.Throw message st1)
   \/ (exists v st1,
          executes (CallExpression (Some "g") []) g_declared (BrainRotInterpreter.Return v st1)
          /\ BrainRotInterpreter.variables st1 = BrainRotInterpreter.variables g_declared
          /\ runs [PrintStatement (Identifier "b")] v st1
               (BrainRotInterpreter.Throw "Undefined variable: b" g_declared)))
  /\ ((exists message st1,
          binds [] [] g_reads_a (BrainRotInterpreter.Throw message st1)
          /\ BrainRotInterpreter.Return (Host.VNumber 7)
               (BrainRotInterpreter.mkState (BrainRotInterpreter.variables g_reads_a)
                  (BrainRotInterpreter.functions g_reads_a) ["7"])
             = BrainRotInterpreter.Throw message st1)
       \/ (exists bound out_body,
              binds [] [] g_reads_a (BrainRotInterpreter.Return tt bound)
              /\ (forall x, ~ In x [] ->
                             BrainRotInterpreter.variables bound !! x
                             = BrainRotInterpreter.variables g_reads_a !! x)
              /\ runs [PrintStatement (Identifier "a")] Host.VUndefined bound out_body
              /\ BrainRotInterpreter.Return (Host.VNumber 7)
                   (BrainRotInterpreter.mkState (BrainRotInterpreter.variables g_reads_a)
                      (BrainRotInterpreter.functions g_reads_a) ["7"])
                 = after_call g_reads_a out_body)).
Proof.
  split.
  - apply (proj1 every_call_restores_its_own_snapshot (Some "g") []
             [PrintStatement (Identifier "b")] Host.VUndefined g_declared).
    exists 6. split; [vm_compute; reflexivity|discriminate].
  - apply (proj1 (proj2 every_call_restores_its_own_snapshot) (Some "g") [] g_reads_a
             _ [] [PrintStatement (Identifier "a")]).
    + exists 6. split; [vm_compute; reflexivity|discriminate].
    + reflexivity.
Defined.

(** ** C7: androt and orrot evaluate both operands *)

Lemma binary_operator_logical operator lv rv :
  operator = "ANDROT" \/ operator = "ORROT" ->
  BrainRotInterpreter.binary_operator operator lv rv
  = Some (Host.VBoolean (logical operator (BrainRotInterpreter.isTruthy lv)
                                          (BrainRotInterpreter.isTruthy rv))).
Proof. intros [-> | ->]; reflexivity. Qed.

(** C7. A binary [androt] or [orrot] expression finishes in exactly one
    of three ways, whatever the truthiness of the left operand: the left
    operand throws, and so does the expression; the left operand returns,
    the right operand is then evaluated and throws, and so does the
    expression; or both return, left then right, and the result is the
    Boolean AND, respectively OR, of their truthiness. *)
Theorem logical_operators_are_eager :
  forall operator l r st out,
    operator = "ANDROT" \/ operator = "ORROT" ->
    (evaluates (BinaryExpression operator l r) st out <->
     (exists message st1,
         evaluates l st (BrainRotInterpreter.Throw message st1)
         /\ out = BrainRotInterpreter.Throw message st1)
     \/ (exists lv st1 message st2,
            evaluates l st (BrainRotInterpreter.Return lv st1)
            /\ evaluates r st1 (BrainRotInterpreter.Throw message st2)
            /\ out = BrainRotInterpreter.Throw message st2)
     \/ (exists lv st1 rv st2,
            evaluates l st (BrainRotInterpreter.Return lv st1)
            /\ evaluates r st1 (BrainRotInterpreter.Return rv st2)
            /\ out = BrainRotInterpreter.Return
                       (Host.VBoolean (logical operator (BrainRotInterpreter.isTruthy lv)
                                                        (BrainRotInterpreter.isTruthy rv)))
                       st2)).
Proof.
  intros operator l r st out Hop. split.
  - intros (fuel & H & Hne). destruct fuel as [|fuel]; [symmetry in H; contradiction|].
    cbn [BrainRotInterpreter.evaluate] in H. unfold BrainRotInterpreter.bind in H.
    destruct (BrainRotInterpreter.evaluate fuel l st) as [lv st1|message st1|] eqn:El;
      [| |symmetry in H; contradiction].
    + destruct (BrainRotInterpreter.evaluate fuel r st1) as [rv st2|message st2|] eqn:Er;
        [| |symmetry in H; contradiction].
      * right. right. exists lv, st1, rv, st2.
        rewrite (binary_operator_logical operator lv rv Hop) in H.
        repeat split; try (exists fuel; split; [eassumption|discriminate]).
        symmetry. exact H.
      * right. left. exists lv, st1, message, st2.
        repeat split; try (exists fuel; split; [eassumption|discriminate]).
        symmetry. exact H.
    + left. exists message, st1.
      split; [exists fuel; split; [eassumption|discriminate]|]. symmetry. exact H.
  - intros [(message & st1 & (n & Hl & _) & ->)
           |[(lv & st1 & message & st2 & (n1 & Hl & _) & (n2 & Hr & _) & ->)
            |(lv & st1 & rv & st2 & (n1 & Hl & _) & (n2 & Hr & _) & ->)]].
    + exists (S n). split; [|discriminate].
      cbn [BrainRotInterpreter.evaluate]. unfold BrainRotInterpreter.bind.
      rewrite Hl. reflexivity.
    + exists (S (Nat.max n1 n2)). split; [|discriminate].
      cbn [BrainRotInterpreter.evaluate]. unfold BrainRotInterpreter.bind.
      rewrite (evaluate_more_fuel n1 (Nat.max n1 n2) _ _ _ Hl ltac:(discriminate) ltac:(lia)).
      rewrite (evaluate_more_fuel n2 (Nat.max n1 n2) _ _ _ Hr ltac:(discriminate) ltac:(lia)).
      reflexivity.
    + exists (S (Nat.max n1 n2)). split; [|discriminate].
      cbn [BrainRotInterpreter.evaluate]. unfold BrainRotInterpreter.bind.
      rewrite (evaluate_more_fuel n1 (Nat.max n1 n2) _ _ _ Hl ltac:(discriminate) ltac:(lia)).
      rewrite (evaluate_more_fuel n2 (Nat.max n1 n2) _ _ _ Hr ltac:(discriminate) ltac:(lia)).
      rewrite (binary_operator_logical operator lv rv Hop). reflexivity.
Qed.

(** [1 orrot y] with [y] undefined: the left operand settles the OR, and
    the error of the right operand still surfaces. *)
Lemma logical_operators_are_eager_witness :
  evaluates (BinaryExpression "ORROT" (Literal (Host.VNumber 1)) (Identifier "y"))
    BrainRotInterpreter.initial
    (BrainRotInterpreter.Throw "Undefined variable: y" BrainRotInterpreter.initial).
Proof.
  apply (proj2 (logical_operators_are_eager "ORROT" (Literal (Host.VNumber 1))
                  (Identifier "y") BrainRotInterpreter.initial _ (or_intror eq_refl))).
  right. left.
  exists (Host.VNumber 1), BrainRotInterpreter.initial,
    "Undefined variable: y", BrainRotInterpreter.initial.
  repeat split; try (exists 1; split; [reflexivity|discriminate]).
Defined.

(** ** C8: the entry point never throws *)

(** C8. For every source string no exception escapes [executeBrainRot].
    The tokenizer and the parser always finish and hand an AST to
    [interpret], so that, given fuel enough for them, the run is the
    interpretation of that AST. Whenever the run ends it returns: the output
    lines and at most one error descriptor, whose line and column are 0 and
    whose kind is SYNTAX or RUNTIME, never TYPE. (A run that never ends, of a
    program that loops forever, is the one other outcome.) *)
Theorem executeBrainRot_never_throws :
  forall code,
    (exists ast n,
        forall fuel, n <= fuel ->
          executeBrainRot fuel code
          = BrainRotInterpreter.interpret fuel ast BrainRotInterpreter.initial)
    /\ (forall fuel,
           executeBrainRot fuel code = Unfinished
           \/ exists r,
                executeBrainRot fuel code = Normal r /\ returns code r /\ result_ok r).
Proof.
  intros code. split; [apply executeBrainRot_is_interpret|]. intros fuel.
  destruct (executeBrainRot fuel code) as [r|message|] eqn:E.
  - right. exists r. split; [reflexivity|]. split; [eapply returns_with; eauto|].
    unfold executeBrainRot, try_catch in E.
    destruct (run_pipeline fuel code) as [r'|msg|] eqn:Ep; [| |discriminate].
    + injection E as <-. unfold run_pipeline in Ep.
      destruct (BrainRotTokenizer.tokenize code) as [tokens|]; [|discriminate].
      destruct (BrainRotParser.parse tokens fuel) as [ast position|msg position|];
        try discriminate.
      unfold BrainRotInterpreter.interpret in Ep.
      destruct (BrainRotInterpreter.run_statements _ ast Host.VUndefined _);
        try discriminate; injection Ep as <-; unfold result_ok, descriptor_ok; simpl; auto.
    + injection E as <-. unfold result_ok, descriptor_ok. simpl. auto.
  - exfalso. unfold executeBrainRot, try_catch in E.
    destruct (run_pipeline fuel code); discriminate.
  - left. reflexivity.
Qed.

(** ** C9: the tokenizer *)

(** C9. For every input string [tokenize] succeeds: it returns a token
    sequence that ends with an EOF token with empty text, and no other
    token of the sequence is an EOF token. A character [nextToken] has no
    rule for is consumed and yields no token. *)
Theorem tokenize_total_single_EOF :
  (forall input : string,
      exists tokens ln col,
        BrainRotTokenizer.tokenize input = Some (tokens ++ [mkToken EOF "" ln col])
        /\ List.Forall (fun t => type t <> EOF) tokens)
  /\ (forall c r ln col,
         recognized c = false ->
         BrainRotTokenizer.nextToken (BrainRotTokenizer.mkState (c :: r) ln col)
         = (None, BrainRotTokenizer.advance (BrainRotTokenizer.mkState (c :: r) ln col))).
Proof.
  split.
  - intros input. apply TokenizerFacts.tokenize_ends_with_EOF.
  - intros c r ln col Hrec. unfold recognized in Hrec.
    repeat (apply orb_false_iff in Hrec; destruct Hrec as [Hrec ?]).
    unfold BrainRotTokenizer.nextToken. cbn [BrainRotTokenizer.rest].
    rewrite Hrec.
    replace (Ascii.eqb c BrainRotTokenizer.double_quote || Ascii.eqb c "'") with false
      by (symmetry; apply orb_false_iff; split; assumption).
    match goal with H : BrainRotTokenizer.is_identifier_start c = false |- _ => rewrite H end.
    destruct (BrainRotTokenizer.operators_get BrainRotTokenizer.operators c) eqn:Eop;
      [discriminate|].
    destruct (Ascii.eqb c "=") eqn:E1.
    { apply Ascii.eqb_eq in E1. subst c. discriminate Eop. }
    destruct (Ascii.eqb c "!") eqn:E2.
    { apply Ascii.eqb_eq in E2. subst c. discriminate Eop. }
    reflexivity.
Qed.

Lemma tokenize_total_single_EOF_witness :
  recognized "@" = false
  /\ BrainRotTokenizer.nextToken (BrainRotTokenizer.mkState ["@"; "1"]%char 1 1)
     = (None, BrainRotTokenizer.mkState ["1"%char] 1 2).
Proof.
  split; [reflexivity|].
  exact (proj2 tokenize_total_single_EOF "@"%char ["1"%char] 1 1 eq_refl).
Defined.

(** ** C10: a function declared during a call *)

(** C10. When a call completes and the body of the called function holds a
    function declaration of [g] among its statements, the caller's
    variables are restored and the function table is not: after the call
    the table has a declaration for [g], the one of that statement when it
    is the last statement of the body, so a call of [g] finds its function.
    [declared_in_call] prints the line of [g]. *)
Theorem function_declared_in_call_persists :
  (forall name arguments st v st' parameters body before g g_parameters g_body after,
      evaluates (CallExpression name arguments) st (BrainRotInterpreter.Return v st') ->
      BrainRotInterpreter.functions_get name st = Some (parameters, body) ->
      body = before ++ FunctionDeclaration g g_parameters g_body :: after ->
      BrainRotInterpreter.variables st' = BrainRotInterpreter.variables st
      /\ is_Some (BrainRotInterpreter.functions_get (Some g) st')
      /\ (after = [] ->
          BrainRotInterpreter.functions_get (Some g) st' = Some (g_parameters, g_body)))
  /\ prints declared_in_call ["g"].
Proof.
  split; [|apply (returns_with 50); vm_compute; reflexivity].
  intros name arguments st v st' parameters body before g g_parameters g_body after
    (fuel & H & _) Hget Hbody.
  apply call_inversion in H
    as (fuel' & parameters' & body' & bound & st2 & -> & Hget' & Hbind & Hrun & ->).
  rewrite Hget in Hget'. injection Hget' as <- <-. subst body.
  split; [reflexivity|].
  apply run_statements_app in Hrun as (r & st1 & Hbefore & Hrun).
  cbn [BrainRotInterpreter.run_statements] in Hrun.
  unfold BrainRotInterpreter.bind at 1 in Hrun.
  destruct (BrainRotInterpreter.execute fuel' (FunctionDeclaration g g_parameters g_body) st1)
    as [r' declared|message declared|] eqn:E; try discriminate.
  destruct fuel' as [|fuel'']; [discriminate|].
  cbv [BrainRotInterpreter.execute BrainRotInterpreter.bind
         BrainRotInterpreter.functions_set BrainRotInterpreter.ret] in E.
  injection E as _ <-.
  cbn [BrainRotInterpreter.functions_get BrainRotInterpreter.functions]. split.
  - apply (run_statements_keeps_functions _ _ _ _ _ _ Hrun g).
    cbn [BrainRotInterpreter.functions]. rewrite lookup_insert_eq. eauto.
  - intros ->. cbn in Hrun. unfold BrainRotInterpreter.ret in Hrun.
    injection Hrun as _ <-. cbn [BrainRotInterpreter.functions].
    apply lookup_insert_eq.
Qed.

Lemma function_declared_in_call_persists_witness :
  BrainRotInterpreter.variables f_declares_g_called = BrainRotInterpreter.variables f_declares_g
  /\ is_Some (BrainRotInterpreter.functions_get (Some "g") f_declares_g_called)
  /\ (@nil ASTNode = [] ->
      BrainRotInterpreter.functions_get (Some "g") f_declares_g_called
      = Some ([], body_of_g)).
Proof.
  apply (proj1 function_declared_in_call_persists (Some "f") [] f_declares_g Host.VNull
           f_declares_g_called [] [FunctionDeclaration "g" [] body_of_g] [] "g" []
           body_of_g []).
  - exists 5. split; [vm_compute; reflexivity|discriminate].
  - vm_compute. reflexivity.
  - reflexivity.
Defined.

(** ** The examples of the specification *)

(** Tokenizing [mold x = 42;]. *)
Example tokenize_declaration :
  BrainRotTokenizer.tokenize "mold x = 42;"
  = Some [ mkToken KEYWORD "MOLD" 1 1; mkToken IDENTIFIER "x" 1 6;
           mkToken OPERATOR "ASSIGN" 1 8; mkToken NUMBER "42" 1 10;
           mkToken DELIMITER "SEMICOLON" 1 12; mkToken EOF "" 1 13 ].
Proof. vm_compute. reflexivity. Qed.

(** [rott 1 + 2;] prints 3. *)
Example print_sum : prints "rott 1 + 2;" ["3"].
Proof. apply (returns_with 50). vm_compute. reflexivity. Qed.

(** The countdown example. *)
Example countdown_output :
  prints countdown
    [ "Countdown: 5"; "Countdown: 4"; "Countdown: 3"; "Countdown: 2"; "Countdown: 1";
      "BRAIN ROT COMPLETE!" ].
Proof. apply (returns_with 50). vm_compute. reflexivity. Qed.

(** Reading a variable that was never declared. *)
Example undefined_variable :
  returns "rott y;" (failed [] "Undefined variable: y")
  /\ BrainRotError.message (BrainRotInterpreter.runtime_error "Undefined variable: y")
     = "Brain rot detected: Undefined variable: y".
Proof. split; [apply (returns_with 50); vm_compute|]; reflexivity. Qed.

(** Numbers print as JavaScript prints them. *)
Example number_rendering :
  prints "rott 0.1 + 0.2; rott 1 / 0; rott 10 / 4; rott 100 * 1000;"
    ["0.30000000000000004"; "Infinity"; "2.5"; "100000"].
Proof. apply (returns_with 50). vm_compute. reflexivity. Qed.

(** * More of the code *)

(** ** The evaluator: output, variables, arguments and loops *)

Module OutputFacts.
Import Host BrainRotInterpreter InterpreterFacts.

Lemma output_extends_refl st : output_extends st st.
Proof. exists []. rewrite app_nil_r. reflexivity. Qed.

Lemma output_extends_trans st1 st2 st3 :
  output_extends st1 st2 -> output_extends st2 st3 -> output_extends st1 st3.
Proof.
  intros [m1 H1] [m2 H2]. exists (m1 ++ m2). rewrite H2, H1, app_assoc. reflexivity.
Qed.

Lemma grows_ret {A : Type} (a : A) : grows (ret a).
Proof. intros st st' [= <-]. apply output_extends_refl. Qed.

Lemma grows_throw {A : Type} message : grows (@throw A message).
Proof. intros st st' [= <-]. apply output_extends_refl. Qed.

Lemma grows_out_of_fuel {A : Type} : grows (@out_of_fuel A).
Proof. intros st st' H. discriminate. Qed.

Lemma grows_bind {A B : Type} (m : Interp A) (k : A -> Interp B) :
  grows m -> (forall a, grows (k a)) -> grows (bind m k).
Proof.
  intros Hm Hk st st' H. unfold bind in H.
  destruct (m st) as [a st1|message st1|] eqn:E; try discriminate.
  - eapply output_extends_trans; [apply Hm; rewrite E; reflexivity|eapply Hk; eauto].
  - apply Hm. rewrite E. exact H.
Qed.

Lemma grows_get_variables : grows get_variables.
Proof. intros st st' [= <-]. apply output_extends_refl. Qed.

Lemma grows_set_variables vars : grows (set_variables vars).
Proof. intros st st' [= <-]. exists []. cbn. rewrite app_nil_r. reflexivity. Qed.

Lemma grows_variables_set name v : grows (variables_set name v).
Proof. intros st st' [= <-]. exists []. cbn. rewrite app_nil_r. reflexivity. Qed.

Lemma grows_functions_set name decl : grows (functions_set name decl).
Proof. intros st st' [= <-]. exists []. cbn. rewrite app_nil_r. reflexivity. Qed.

Lemma grows_output_push text : grows (output_push text).
Proof. intros st st' [= <-]. exists [text]. reflexivity. Qed.

Lemma grows_run_statements exec stmts result :
  (forall node, grows (exec node)) -> grows (run_statements exec stmts result).
Proof.
  intros Hexec. revert result. induction stmts as [|stmt stmts IH]; intros result; simpl.
  - apply grows_ret.
  - apply grows_bind; auto.
Qed.

Lemma grows_bind_parameters eval parameters arguments :
  (forall node, grows (eval node)) -> grows (bind_parameters eval parameters arguments).
Proof.
  intros Heval. revert arguments.
  induction parameters as [|p ps IH]; intros arguments; simpl.
  - apply grows_ret.
  - destruct arguments as [|a args].
    + apply grows_bind; [apply grows_variables_set|auto].
    + apply grows_bind; [auto|]. intros v.
      apply grows_bind; [apply grows_variables_set|auto].
Qed.

Create HintDb grows.
#[local] Hint Resolve grows_ret grows_throw grows_out_of_fuel grows_get_variables
  grows_set_variables grows_variables_set grows_output_push grows_functions_set
  grows_run_statements grows_bind_parameters : grows.

Ltac grows_step :=
  first [ apply grows_bind; [|intros ?] | solve [auto with grows] ].

Lemma execution_grows fuel :
  (forall node, grows (execute fuel node))
  /\ (forall expr, grows (evaluate fuel expr))
  /\ (forall c body, grows (while_loop fuel c body)).
Proof.
  induction fuel as [|fuel (IHx & IHe & IHw)].
  - repeat split; intros; apply grows_out_of_fuel.
  - repeat split.
    + intros node. destruct node; cbn [execute]; auto; try (repeat grows_step; fail).
      apply grows_bind; [auto|]. intros c.
      destruct (isTruthy c); [|destruct elseBody]; repeat grows_step.
    + intros expr. destruct expr; cbn [evaluate]; auto with grows.
      * intros st st' H. destruct (variables st !! name); injection H as <-;
          apply output_extends_refl.
      * repeat grows_step.
        destruct (binary_operator operator a a0); auto with grows.
      * intros st st' H.
        destruct (functions_get name st) as [[parameters body]|].
        -- revert H. apply grows_bind; [apply grows_get_variables|]. intros prevVars.
           repeat grows_step.
        -- injection H as <-. apply output_extends_refl.
    + intros c body. cbn [while_loop].
      apply grows_bind; [auto|]. intros v. destruct (isTruthy v); repeat grows_step.
Qed.

(** [run_statements] on a list in two parts. *)
Lemma run_statements_split exec l1 l2 result st :
  run_statements exec (l1 ++ l2) result st
  = bind (run_statements exec l1 result) (fun r => run_statements exec l2 r) st.
Proof.
  revert result st. induction l1 as [|stmt l1 IH]; intros result st; simpl.
  - reflexivity.
  - cbv [bind]. destruct (exec stmt st) as [r st'|message st'|]; auto.
Qed.

End OutputFacts.

Module FrameFacts.
Import Host BrainRotInterpreter InterpreterFacts.

(** The parameter loop stops at the last parameter: arguments beyond it
    are not looked at. *)
Lemma bind_parameters_surplus eval parameters :
  forall arguments surplus st,
    List.length parameters <= List.length arguments ->
    bind_parameters eval parameters (arguments ++ surplus) st
    = bind_parameters eval parameters arguments st.
Proof.
  induction parameters as [|p ps IH]; intros arguments surplus st Hle; [reflexivity|].
  destruct arguments as [|a args]; [simpl in Hle; lia|]. simpl.
  unfold bind at 1 3. destruct (eval a st) as [v st1|m st1|]; auto.
  cbv [bind variables_set]. apply IH. simpl in Hle. lia.
Qed.

Lemma bind_parameters_missing fuel parameters :
  forall arguments st,
    List.length arguments <= List.length parameters ->
    below (bind_parameters (evaluate fuel) parameters arguments st)
          (bind_parameters (evaluate (S fuel)) parameters
             (arguments ++ undefined_arguments (List.length parameters - List.length arguments))
             st)
    /\ below (bind_parameters (evaluate fuel) parameters
                (arguments ++ undefined_arguments
                                (List.length parameters - List.length arguments)) st)
             (bind_parameters (evaluate fuel) parameters arguments st).
Proof.
  induction parameters as [|p ps IH]; intros arguments st Hle.
  - destruct arguments; simpl in *; [|lia]. split; apply below_refl.
  - destruct arguments as [|a args].
    + specialize (IH [] (mkState (<[p := VUndefined]> (variables st)) (functions st)
                                  (output st)) ltac:(simpl; lia)).
      simpl in IH. rewrite Nat.sub_0_r in IH. destruct IH as [IH1 IH2].
      split.
      * simpl. unfold bind at 1 2. cbn. exact IH1.
      * simpl. unfold bind at 1. destruct fuel as [|fuel]; [apply below_out_of_fuel|].
        cbn [evaluate ret]. unfold bind at 1 2. cbn. exact IH2.
    + simpl. split.
      * apply bind_below; [apply (proj1 (proj2 (fuel_below fuel (S fuel) ltac:(lia))))|].
        intros v st1. unfold bind at 1 2. cbn. apply IH. simpl in Hle. lia.
      * apply bind_below; [apply below_refl|].
        intros v st1. unfold bind at 1 2. cbn. apply IH. simpl in Hle. lia.
Qed.

End FrameFacts.

Module LoopFacts.
Import Host BrainRotInterpreter InterpreterFacts OutputFacts.

Lemma while_steps f c body st :
  execute (S (S f)) (WhileLoop c body) st
  = bind (evaluate f c)
      (fun v =>
         if isTruthy v then
           bind (run_statements (execute f) body VUndefined)
             (fun _ => bind (while_loop f c body) (fun _ => ret VNull))
         else ret VNull) st.
Proof.
  cbn [execute while_loop]. cbv [bind].
  destruct (evaluate f c st) as [v st1|m st1|]; try reflexivity.
  destruct (isTruthy v); [|reflexivity].
  destruct (run_statements (execute f) body VUndefined st1); reflexivity.
Qed.

Lemma unrolled_steps g c body st :
  execute (S g) (IfStatement c (body ++ [WhileLoop c body]) None) st
  = bind (evaluate g c)
      (fun v =>
         if isTruthy v then
           bind (run_statements (execute g) body VUndefined)
             (fun _ => bind (execute g (WhileLoop c body)) (fun _ => ret VNull))
         else ret VNull) st.
Proof.
  cbn [execute]. unfold bind at 1 3.
  destruct (evaluate g c st) as [v st1|m st1|]; try reflexivity.
  destruct (isTruthy v); [|reflexivity].
  unfold bind at 1. rewrite run_statements_split. unfold bind at 1 2.
  destruct (run_statements (execute g) body VUndefined st1) as [r st2|m st2|];
    try reflexivity.
  cbn [run_statements]. cbv [bind ret].
  destruct (execute g (WhileLoop c body) st2); reflexivity.
Qed.

Lemma nested_loop_below n m c body st :
  n <= m ->
  below (bind (while_loop n c body) (fun _ => ret VNull) st)
        (bind (execute (S m) (WhileLoop c body)) (fun _ => ret VNull) st).
Proof.
  intros Hle. cbn [execute]. cbv [bind ret].
  destruct (proj2 (proj2 (fuel_below n m Hle)) c body st) as [->| ->];
    [left; reflexivity|].
  destruct (while_loop m c body st); apply below_refl.
Qed.

Lemma loop_below_nested n m c body st :
  n <= m ->
  below (bind (execute (S n) (WhileLoop c body)) (fun _ => ret VNull) st)
        (bind (while_loop m c body) (fun _ => ret VNull) st).
Proof.
  intros Hle. cbn [execute]. cbv [bind ret].
  destruct (proj2 (proj2 (fuel_below n m Hle)) c body st) as [->| ->];
    [left; reflexivity|].
  destruct (while_loop m c body st); apply below_refl.
Qed.

End LoopFacts.

(** ** The parser builds trees of the declared shapes, which the evaluator handles *)

Module TreeFacts.
Import Host BrainRotParser.

Section Tokens.

Variable tokens : list Token.

Lemma bind_ok {A B : Type} (m : Parser A) (k : A -> Parser B) pos b pos' :
  bind m k pos = Ok b pos' -> exists a p, m pos = Ok a p /\ k a p = Ok b pos'.
Proof.
  unfold bind. destruct (m pos) as [a p|message p|]; try discriminate. eauto.
Qed.

Lemma selects_match ty v : selects tokens [v] (match_ tokens ty (Some v)).
Proof.
  intros pos pos' H. rewrite ParserTermination.match_eq in H.
  destruct (nth_error tokens pos) as [t|] eqn:Et; [|discriminate].
  destruct (accepts ty (Some v) t) eqn:Ea; [|discriminate].
  injection H as <-. exists t. split; [exact Et|].
  unfold accepts in Ea. apply andb_true_iff in Ea as [_ Ea].
  apply andb_true_iff in Ea as [_ Ea]. apply String.eqb_eq in Ea. left. auto.
Qed.

Lemma selects_orelse names1 names2 a b :
  selects tokens names1 a -> selects tokens names2 b ->
  selects tokens (names1 ++ names2) (orelse a b).
Proof.
  intros Ha Hb pos pos' H. unfold orelse in H.
  apply bind_ok in H as (x & p & Hx & H). destruct x.
  - injection H as <-. destruct (Ha _ _ Hx) as (t & Et & Hin).
    exists t. split; [exact Et|]. apply in_or_app. auto.
  - destruct (Hb _ _ H) as (t & Et & Hin).
    exists t. split; [exact Et|]. apply in_or_app. auto.
Qed.

Lemma previous_value_ok pos v pos' :
  bind (previous tokens) (fun token => value_of token) pos = Ok v pos' ->
  exists t, token_before tokens pos = Some t /\ v = value t.
Proof.
  unfold bind, previous, value_of, token_before.
  destruct (match pos with 0 => None | S p => nth_error tokens p end) as [t|];
    [|discriminate].
  unfold ret. intros [= <- _]. eauto.
Qed.

Lemma selected_operator names test pos pos' v pos'' :
  selects tokens names test ->
  test pos = Ok true pos' ->
  bind (previous tokens) (fun token => value_of token) pos' = Ok v pos'' ->
  In v names.
Proof.
  intros Hsel Htest Hprev. destruct (Hsel _ _ Htest) as (t & Et & Hin).
  apply previous_value_ok in Hprev as (t' & Et' & ->). congruence.
Qed.

Lemma selected_value names test pos pos' token p v p' :
  selects tokens names test ->
  test pos = Ok true pos' ->
  previous tokens pos' = Ok token p ->
  value_of token p = Ok v p' ->
  In v names.
Proof.
  intros Hsel Htest Hprev Hvalue. eapply selected_operator; [exact Hsel|exact Htest|].
  unfold bind. rewrite Hprev. exact Hvalue.
Qed.

Lemma includes_in names v : In v names -> list_includes names v = true.
Proof.
  intros Hin. unfold list_includes. apply existsb_exists. exists v.
  split; [exact Hin|apply String.eqb_refl].
Qed.

Lemma binary_loop_typed n :
  forall names operators operand,
    selects tokens names operators ->
    incl names binary_operators ->
    yields expression_node operand ->
    forall expr, expression_node expr ->
      yields expression_node (binary_loop tokens n operators operand expr).
Proof.
  induction n as [|n IH]; intros names operators operand Hsel Hincl Hoperand expr Hexpr
    pos a pos' H; [discriminate|].
  cbn [binary_loop] in H. apply bind_ok in H as (found & p1 & Hfound & H).
  destruct found.
  - apply bind_ok in H as (operator & p2 & Hop & H).
    apply bind_ok in H as (right & p3 & Hright & H).
    eapply (IH names operators operand Hsel Hincl Hoperand); [|exact H].
    unfold expression_node. cbn [is_expression].
    rewrite (includes_in binary_operators operator).
    + rewrite Hexpr. exact (Hoperand _ _ _ Hright).
    + apply Hincl. eapply selected_operator; eauto.
  - injection H as <- _. exact Hexpr.
Qed.

Lemma expression_is_statement node : expression_node node -> statement_node node.
Proof.
  unfold expression_node, statement_node.
  destruct node; cbn [is_statement is_expression]; auto; discriminate.
Qed.

Lemma statement_nodes_snoc body stmt :
  statement_nodes body -> statement_node stmt -> statement_nodes (body ++ [stmt]).
Proof.
  unfold statement_nodes, statement_node. intros Hb Hs.
  rewrite forallb_app, Hb. cbn. rewrite Hs. reflexivity.
Qed.

Lemma expression_nodes_snoc args arg :
  expression_nodes args -> expression_node arg -> expression_nodes (args ++ [arg]).
Proof.
  unfold expression_nodes, expression_node. intros Hb Hs.
  rewrite forallb_app, Hb. cbn. rewrite Hs. reflexivity.
Qed.

Lemma declaration_node name e :
  expression_node e -> statement_node (VariableDeclaration name e).
Proof. intros H. exact H. Qed.

Lemma print_node e : expression_node e -> statement_node (PrintStatement e).
Proof. intros H. exact H. Qed.

Lemma while_node c body :
  expression_node c -> statement_nodes body -> statement_node (WhileLoop c body).
Proof.
  unfold expression_node, statement_nodes, statement_node. cbn [is_statement].
  intros -> ->. reflexivity.
Qed.

Lemma if_node c thenBody :
  expression_node c -> statement_nodes thenBody ->
  statement_node (IfStatement c thenBody None).
Proof.
  unfold expression_node, statement_nodes, statement_node. cbn [is_statement].
  intros -> ->. reflexivity.
Qed.

Lemma if_else_node c thenBody elseBody :
  expression_node c -> statement_nodes thenBody -> statement_nodes elseBody ->
  statement_node (IfStatement c thenBody (Some elseBody)).
Proof.
  unfold expression_node, statement_nodes, statement_node. cbn [is_statement].
  intros -> -> ->. reflexivity.
Qed.

Lemma function_node name parameters body :
  statement_nodes body -> statement_node (FunctionDeclaration name parameters body).
Proof. intros H. exact H. Qed.

Lemma unary_node operator operand :
  In operator unary_operators -> expression_node operand ->
  expression_node (UnaryExpression operator operand).
Proof.
  unfold expression_node. cbn [is_expression]. intros Hin ->.
  rewrite (includes_in _ _ Hin). reflexivity.
Qed.

Lemma call_node name arguments :
  expression_nodes arguments -> expression_node (CallExpression name arguments).
Proof. intros H. exact H. Qed.

Lemma no_statement_nodes : statement_nodes [].
Proof. reflexivity. Qed.

Lemma no_expression_nodes : expression_nodes [].
Proof. reflexivity. Qed.

(** Reads a run that returned back into the runs of its steps. *)
Ltac invert_run :=
  repeat
    match goal with
    | H : bind _ _ _ = Ok _ _ |- _ =>
        let a := fresh "a" in
        let p := fresh "p" in
        let Ha := fresh "Hrun" in
        apply bind_ok in H as (a & p & Ha & H); cbv beta in H
    | H : (if ?b then _ else _) _ = Ok _ _ |- _ => destruct b
    | H : ret _ _ = Ok _ _ |- _ => unfold ret in H; injection H as <- <-
    | H : throw _ _ = Ok _ _ |- _ => discriminate H
    | H : out_of_fuel _ = Ok _ _ |- _ => discriminate H
    | H : Ok _ _ = Ok _ _ |- _ => injection H as <- <-
    | H : (match ?x with Some _ => _ | None => _ end) _ = Ok _ _ |- _ => destruct x
    end.

Lemma grammar_typed_all n : grammar_typed tokens n.
Proof.
  induction n as [|n IH].
  - unfold grammar_typed, yields. repeat split; intros; discriminate.
  - destruct IH
      as (Hstatement & HvariableDeclaration & HprintStatement & HwhileLoop & HifStatement
          & HfunctionDeclaration & Hblock & Hexpression & HlogicalOr & HlogicalAnd
          & Hequality & Hcomparison & Hterm & Hfactor & Hunary & Hcall & Hcall_loop
          & HfinishCall & Harguments_loop & Hprimary).
    unfold grammar_typed, yields.
    repeat split; intros;
      match goal with
      | H : _ = Ok _ _ |- _ =>
          cbn [statement variableDeclaration printStatement whileLoop ifStatement
                 functionDeclaration block expression logicalOr logicalAnd equality
                 comparison term factor unary call call_loop finishCall arguments_loop
                 primary] in H;
          invert_run
      end.
    all: unfold yields in *.
    all: try (solve [eauto 6 using expression_is_statement, declaration_node, print_node,
                       while_node, if_node, if_else_node, function_node, call_node,
                       no_statement_nodes, no_expression_nodes, statement_nodes_snoc,
                       expression_nodes_snoc]).
    all: try reflexivity.
    all: try (match goal with
              | H : binary_loop _ _ ?ops ?operand ?e _ = Ok _ _ |- _ =>
                  eapply (binary_loop_typed n _ ops operand); [| | | |exact H];
                  [ first [ apply selects_match
                          | apply selects_orelse; apply selects_match ]
                  | intros x Hx; cbn in Hx;
                    repeat (destruct Hx as [<-|Hx]; [cbn; auto 15|]); destruct Hx
                  | intros ? ? ? ?; eauto
                  | eauto ]
              end).
    apply unary_node; [|eauto].
    eapply (selected_value _ _ _ _ _ _ _ _
              (selects_orelse [_] _ _ _ (selects_match _ _)
                 (selects_orelse [_] [_] _ _ (selects_match _ _) (selects_match _ _)))
              Hrun Hrun2 Hrun0).
Qed.

Lemma parse_loop_typed n :
  forall statements, statement_nodes statements ->
    yields statement_nodes (parse_loop tokens n statements).
Proof.
  induction n as [|n IH]; intros statements Hstatements pos a pos' H; [discriminate|].
  cbn [parse_loop] in H. apply bind_ok in H as (atEnd & p & _ & H).
  destruct atEnd; [injection H as <- _; exact Hstatements|].
  destruct (statement tokens n p) as [stmt p1|message p1|] eqn:E; [| |discriminate].
  - eapply (IH (statements ++ [stmt])); [|exact H].
    apply statement_nodes_snoc; [exact Hstatements|].
    exact (proj1 (grammar_typed_all n) _ _ _ E).
  - apply bind_ok in H as (? & p2 & _ & H). eapply IH; eauto.
Qed.

End Tokens.

Lemma parse_typed tokens fuel ast position :
  parse tokens fuel = Ok ast position -> statement_nodes ast.
Proof. apply parse_loop_typed. reflexivity. Qed.

End TreeFacts.

Module SoundFacts.
Import Host BrainRotInterpreter.

Lemma sound_ret {A : Type} (a : A) : sound (ret a).
Proof. intros st H. exact H. Qed.

Lemma sound_out_of_fuel {A : Type} : sound (@out_of_fuel A).
Proof. intros st H. exact I. Qed.

Lemma sound_throw {A : Type} message : expected_error message -> sound (@throw A message).
Proof. intros Hm st H. exact Hm. Qed.

Lemma sound_bind {A B : Type} (m : Interp A) (k : A -> Interp B) :
  sound m -> (forall a, sound (k a)) -> sound (bind m k).
Proof.
  intros Hm Hk st H. unfold bind. specialize (Hm st H).
  destruct (m st) as [a st1|message st1|]; auto. apply Hk. exact Hm.
Qed.

Lemma sound_get_variables : sound get_variables.
Proof. intros st H. exact H. Qed.

Lemma sound_set_variables vars : sound (set_variables vars).
Proof. intros st H. exact H. Qed.

Lemma sound_variables_set name v : sound (variables_set name v).
Proof. intros st H. exact H. Qed.

Lemma sound_output_push text : sound (output_push text).
Proof. intros st H. exact H. Qed.

Lemma sound_functions_set name parameters body :
  statement_nodes body -> sound (functions_set name (parameters, body)).
Proof.
  intros Hbody st H g ps b. cbn.
  destruct (decide (name = g)) as [->|Hne].
  - rewrite lookup_insert_eq. intros [= _ <-]. exact Hbody.
  - rewrite lookup_insert_ne by assumption. apply H.
Qed.

Lemma sound_run_statements exec stmts result :
  (forall node, statement_node node -> sound (exec node)) ->
  statement_nodes stmts -> sound (run_statements exec stmts result).
Proof.
  intros Hexec. revert result. induction stmts as [|stmt stmts IH]; intros result Hs; simpl.
  - apply sound_ret.
  - unfold statement_nodes in Hs. cbn in Hs. apply andb_true_iff in Hs as [H1 H2].
    apply sound_bind; auto.
Qed.

Lemma sound_bind_parameters eval parameters :
  (forall node, expression_node node -> sound (eval node)) ->
  forall arguments, expression_nodes arguments ->
    sound (bind_parameters eval parameters arguments).
Proof.
  intros Heval.
  induction parameters as [|p ps IH]; intros arguments Hargs; simpl.
  - apply sound_ret.
  - destruct arguments as [|a args].
    + apply sound_bind; [apply sound_variables_set|auto].
    + unfold expression_nodes in Hargs. cbn in Hargs.
      apply andb_true_iff in Hargs as [H1 H2].
      apply sound_bind; [auto|]. intros v.
      apply sound_bind; [apply sound_variables_set|auto].
Qed.

Lemma binary_operator_handled operator l r :
  BrainRotParser.list_includes binary_operators operator = true ->
  exists v, binary_operator operator l r = Some v.
Proof.
  unfold BrainRotParser.list_includes, binary_operators, binary_operator.
  cbn [existsb]. intros H.
  repeat match goal with
         | |- context [String.eqb operator ?s] =>
             destruct (String.eqb operator s); [eauto|]
         end.
  discriminate H.
Qed.

Lemma execution_sound fuel :
  (forall node, statement_node node -> sound (execute fuel node))
  /\ (forall expr, expression_node expr -> sound (evaluate fuel expr))
  /\ (forall c body, expression_node c -> statement_nodes body ->
        sound (while_loop fuel c body)).
Proof.
  induction fuel as [|fuel (IHx & IHe & IHw)].
  - repeat split; intros; apply sound_out_of_fuel.
  - repeat split.
    + intros node Hnode. unfold statement_node in Hnode.
      destruct node; cbn [execute]; cbn [is_statement] in Hnode;
        try (apply IHe; exact Hnode).
      * apply sound_bind; [apply IHe; exact Hnode|]. intros v.
        apply sound_bind; [apply sound_variables_set|intros; apply sound_ret].
      * apply sound_bind; [apply IHe; exact Hnode|]. intros v.
        apply sound_bind; [apply sound_output_push|intros; apply sound_ret].
      * apply andb_true_iff in Hnode as [Hc Hb].
        apply sound_bind; [apply IHw; assumption|intros; apply sound_ret].
      * apply andb_true_iff in Hnode as [Hnode He].
        apply andb_true_iff in Hnode as [Hc Ht].
        apply sound_bind; [apply IHe; exact Hc|]. intros c.
        destruct (isTruthy c); [|destruct elseBody as [stmts|]];
          try apply sound_ret;
          (apply sound_bind; [apply sound_run_statements; assumption
                             |intros; apply sound_ret]).
      * apply sound_bind; [apply sound_functions_set; exact Hnode
                          |intros; apply sound_ret].
    + intros expr Hexpr. unfold expression_node in Hexpr.
      destruct expr; cbn [evaluate]; cbn [is_expression] in Hexpr; try discriminate.
      * apply sound_ret.
      * intros st H. destruct (variables st !! name); [exact H|]. left. eauto.
      * apply sound_throw. right. right. reflexivity.
      * apply andb_true_iff in Hexpr as [Hexpr Hr].
        apply andb_true_iff in Hexpr as [Hop Hl].
        apply sound_bind; [apply IHe; exact Hl|]. intros lv.
        apply sound_bind; [apply IHe; exact Hr|]. intros rv.
        destruct (binary_operator_handled operator lv rv Hop) as [v ->].
        apply sound_ret.
      * intros st H.
        destruct (functions_get name st) as [[parameters body]|] eqn:Eget.
        -- assert (Hbody : statement_nodes body).
           { destruct name as [g|]; [|discriminate]. exact (H g parameters body Eget). }
           refine (sound_bind _ _ sound_get_variables _ st H). intros prevVars.
           apply sound_bind; [apply sound_bind_parameters; assumption|]. intros _.
           apply sound_bind; [apply sound_run_statements; assumption|]. intros result.
           apply sound_bind; [apply sound_set_variables|intros; apply sound_ret].
        -- right. left. eauto.
    + intros c body Hc Hbody. cbn [while_loop].
      apply sound_bind; [apply IHe; exact Hc|]. intros v.
      destruct (isTruthy v); [|apply sound_ret].
      apply sound_bind; [apply sound_run_statements; assumption|].
      intros. apply IHw; assumption.
Qed.

(** The error of a run of the entry point comes from a statement of the
    tree [parse] built, run from the first state of the interpreter. *)
Lemma reported_error code r e :
  returns code r -> ExecutionResult.error r = Some e ->
  exists message,
    e = BrainRotInterpreter.runtime_error message /\ expected_error message.
Proof.
  intros [n' Hr] He.
  destruct (ExecutionFacts.front_end_finishes code)
    as (tokens & ast & position & n & Htok & Hparse).
  specialize (Hr (Nat.max n n') ltac:(lia)).
  specialize (Hparse (Nat.max n n') ltac:(lia)).
  unfold executeBrainRot, run_pipeline in Hr. rewrite Htok, Hparse in Hr.
  unfold BrainRotInterpreter.interpret in Hr.
  pose proof (sound_run_statements
                (BrainRotInterpreter.execute (Nat.max n n')) ast Host.VUndefined
                (proj1 (execution_sound (Nat.max n n')))
                (TreeFacts.parse_typed _ _ _ _ Hparse)
                BrainRotInterpreter.initial) as Hsound.
  change (BrainRotInterpreter.mkState
            (BrainRotInterpreter.variables BrainRotInterpreter.initial)
            (BrainRotInterpreter.functions BrainRotInterpreter.initial) [])
    with BrainRotInterpreter.initial in Hr.
  destruct (BrainRotInterpreter.run_statements _ ast Host.VUndefined
              BrainRotInterpreter.initial) as [v st'|message st'|].
  - cbn in Hr. injection Hr as <-. discriminate He.
  - cbn in Hr. injection Hr as <-. cbn in He. injection He as <-.
    exists message. split; [reflexivity|]. apply Hsound.
    intros name parameters body H. cbn in H. rewrite lookup_empty in H. discriminate H.
  - discriminate Hr.
Qed.

End SoundFacts.

(** ** The tokenizer keeps its line and column *)

Module PositionFacts.
Import Host BrainRotTokenizer.

Lemma line_of_snoc before c :
  line_of (before ++ [c]) = fst (advance_position c (line_of before) (column_of before)).
Proof.
  unfold line_of, advance_position. rewrite count_occ_app. cbn [count_occ].
  destruct (Ascii.eqb_spec c newline) as [->|Hne].
  - destruct (ascii_dec newline newline); [cbn; lia|contradiction].
  - destruct (ascii_dec c newline); [contradiction|]. cbn. lia.
Qed.

Lemma column_of_snoc before c :
  column_of (before ++ [c]) = snd (advance_position c (line_of before) (column_of before)).
Proof.
  unfold column_of, advance_position. rewrite rev_unit. cbn [run_length].
  destruct (Ascii.eqb c newline); reflexivity.
Qed.

Section Input.

Variable input : list ascii.

Lemma located_step c r ln col :
  located input (mkState (c :: r) ln col) ->
  located input (mkState r (fst (advance_position c ln col))
                   (snd (advance_position c ln col))).
Proof.
  intros (before & Hin & Hl & Hc). cbn in *. subst ln col.
  exists (before ++ [c]). cbn. rewrite <- app_assoc. split; [exact Hin|].
  split; [symmetry; apply line_of_snoc|symmetry; apply column_of_snoc].
Qed.

Lemma located_pair c r ln col ln' col' :
  located input (mkState (c :: r) ln col) ->
  advance_position c ln col = (ln', col') ->
  located input (mkState r ln' col').
Proof. intros H E. apply located_step in H. rewrite E in H. exact H. Qed.

Lemma located_state st : located input st -> located input (mkState (rest st) (cur_line st) (cur_column st)).
Proof. destruct st. auto. Qed.

Lemma located_advance st : located input st -> located input (advance st).
Proof.
  intros H. unfold advance. destruct st as [[|c r] ln col]; cbn; [exact H|].
  destruct (advance_position c ln col) as [ln' col'] eqn:E.
  eapply located_pair; eauto.
Qed.

Lemma located_skipWhitespace_loop l :
  forall ln col, located input (mkState l ln col) ->
                 located input (skipWhitespace_loop l ln col).
Proof.
  induction l as [|c r IH]; intros ln col H; cbn; [exact H|].
  destruct (is_whitespace c); [|exact H].
  destruct (advance_position c ln col) as [ln' col'] eqn:E.
  apply IH. eapply located_pair; eauto.
Qed.

Lemma located_skipComment_loop l :
  forall ln col, located input (mkState l ln col) ->
                 located input (skipComment_loop l ln col).
Proof.
  induction l as [|c r IH]; intros ln col H; cbn; [exact H|].
  destruct (negb (Ascii.eqb c newline)); [|exact H].
  destruct (advance_position c ln col) as [ln' col'] eqn:E.
  apply IH. eapply located_pair; eauto.
Qed.

Lemma located_readNumber_loop l :
  forall ln col val hasDot,
    located input (mkState l ln col) ->
    located input (snd (readNumber_loop l ln col val hasDot)).
Proof.
  induction l as [|c r IH]; intros ln col val hasDot H; cbn; [exact H|].
  destruct (advance_position c ln col) as [ln' col'] eqn:E.
  destruct (is_digit c); [apply IH; eapply located_pair; eauto|].
  destruct (Ascii.eqb c "." && negb hasDot); [apply IH; eapply located_pair; eauto|].
  exact H.
Qed.

Lemma located_readIdentifier_loop l :
  forall ln col val,
    located input (mkState l ln col) ->
    located input (snd (readIdentifier_loop l ln col val)).
Proof.
  induction l as [|c r IH]; intros ln col val H; cbn; [exact H|].
  destruct (is_identifier_part c); [|exact H].
  destruct (advance_position c ln col) as [ln' col'] eqn:E.
  apply IH. eapply located_pair; eauto.
Qed.

Lemma located_readString_loop quote n :
  forall l ln col val,
    List.length l <= n ->
    located input (mkState l ln col) ->
    located input (snd (readString_loop quote l ln col val)).
Proof.
  induction n as [|n IH]; intros l ln col val Hle H.
  - destruct l; [exact H|simpl in Hle; lia].
  - destruct l as [|c r]; cbn; [exact H|].
    destruct (Ascii.eqb c quote); [exact H|].
    destruct (advance_position c ln col) as [ln1 col1] eqn:E1.
    pose proof (located_pair _ _ _ _ _ _ H E1) as H1.
    destruct (Ascii.eqb c "\").
    + destruct r as [|escaped r']; [exact H1|].
      destruct (advance_position escaped ln1 col1) as [ln2 col2] eqn:E2.
      apply IH; [simpl in Hle; lia|]. eapply located_pair; eauto.
    + apply IH; [simpl in Hle; lia|exact H1].
Qed.

(** [nextToken] leaves the tokenizer located, and its token carries the
    place it started from. *)
Lemma located_nextToken st :
  located input st ->
  located input (snd (nextToken st))
  /\ forall t, fst (nextToken st) = Some t ->
               line t = cur_line st /\ column t = cur_column st.
Proof.
  intros H. unfold nextToken.
  destruct (rest st) as [|char r] eqn:E; [split; [exact H|discriminate]|].
  destruct (is_digit char).
  { unfold readNumber.
    pose proof (located_readNumber_loop (rest st) (cur_line st) (cur_column st) "" false
                  (located_state st H)) as Hl.
    destruct (readNumber_loop (rest st) (cur_line st) (cur_column st) "" false).
    split; [exact Hl|]. intros t [= <-]. auto. }
  destruct (Ascii.eqb char double_quote || Ascii.eqb char "'").
  { unfold readString. rewrite E.
    pose proof (located_readString_loop char _ (rest (advance st)) (cur_line (advance st))
                  (cur_column (advance st)) "" (le_n _)
                  (located_state _ (located_advance st H))) as Hl.
    destruct (readString_loop char (rest (advance st)) (cur_line (advance st))
                (cur_column (advance st)) "") as [val st2].
    cbn [snd] in Hl. cbn [fst snd]. split.
    - destruct (peek_is 0 char st2); [apply located_advance|]; exact Hl.
    - intros t [= <-]. auto. }
  destruct (is_identifier_start char).
  { unfold readIdentifier.
    pose proof (located_readIdentifier_loop (rest st) (cur_line st) (cur_column st) ""
                  (located_state st H)) as Hl.
    destruct (readIdentifier_loop (rest st) (cur_line st) (cur_column st) "") as [val st'].
    destruct (keywords_get keywords (toLowerCase val)); (split; [exact Hl|]);
      intros t [= <-]; auto. }
  destruct (Ascii.eqb char "=" && peek_is 1 "=" st).
  { cbn [fst snd]. split; [auto using located_advance|]. intros t [= <-]. auto. }
  destruct (Ascii.eqb char "!" && peek_is 1 "=" st).
  { cbn [fst snd]. split; [auto using located_advance|]. intros t [= <-]. auto. }
  destruct (operators_get operators char) as [name|]; cbn [fst snd].
  - split; [auto using located_advance|]. intros t [= <-]. auto.
  - split; [auto using located_advance|]. discriminate.
Qed.

Lemma located_offset st :
  located input st ->
  List.length (rest st) <= List.length input
  /\ forall t, line t = cur_line st -> column t = cur_column st ->
               placed input t (offset_of input st).
Proof.
  intros (before & Hin & Hl & Hc). unfold offset_of, placed.
  assert (Hlen : List.length input = List.length before + List.length (rest st)).
  { rewrite Hin at 1. apply length_app. }
  split; [lia|]. intros t Ht1 Ht2.
  replace (List.length input - List.length (rest st)) with (List.length before) by lia.
  assert (Hfirst : firstn (List.length before) input = before).
  { rewrite Hin. rewrite firstn_app, Nat.sub_diag, firstn_all. cbn. apply app_nil_r. }
  rewrite Hfirst. split; [lia|]. split; congruence.
Qed.

Lemma sorted_snoc offsets o :
  StronglySorted lt offsets -> Forall (fun x => x < o) offsets ->
  StronglySorted lt (offsets ++ [o]).
Proof.
  induction 1 as [|x l Hs IH Hx]; intros Hall; cbn.
  - repeat constructor.
  - inversion Hall as [|? ? Hxo Hrest]; subst. constructor; [auto|].
    apply List.Forall_app. split; [exact Hx|]. repeat constructor. exact Hxo.
Qed.

Lemma tokenize_loop_placed fuel :
  forall st tokens tokens' st' offsets,
    tokenize_loop fuel st tokens = Some (tokens', st') ->
    located input st ->
    Forall2 (placed input) tokens offsets ->
    StronglySorted lt offsets ->
    Forall (fun o => o < offset_of input st) offsets ->
    located input st'
    /\ exists offsets',
         Forall2 (placed input) tokens' offsets'
         /\ StronglySorted lt offsets'
         /\ Forall (fun o => o < offset_of input st') offsets'.
Proof.
  induction fuel as [|fuel IH]; intros st tokens tokens' st' offsets H Hloc Hplaced Hsorted
    Hbelow; [discriminate|].
  cbn [tokenize_loop] in H. destruct (rest st) as [|c r] eqn:E.
  { injection H as <- <-. split; [exact Hloc|]. exists offsets. auto. }
  assert (Hloc1 : located input (skipWhitespace st)).
  { apply located_skipWhitespace_loop, located_state, Hloc. }
  pose proof (TokenizerFacts.skipWhitespace_remaining st) as Hw.
  assert (Hbelow1 : Forall (fun o => o < offset_of input (skipWhitespace st)) offsets).
  { eapply List.Forall_impl; [|exact Hbelow]. unfold offset_of. cbn beta. intros o Ho. lia. }
  destruct (rest (skipWhitespace st)) as [|c1 r1] eqn:E1.
  { injection H as <- <-. split; [exact Hloc1|]. exists offsets. auto. }
  destruct (at_comment (skipWhitespace st)) eqn:Hc.
  { apply (IH _ _ _ _ offsets H); auto.
    - apply located_skipComment_loop, located_state, Hloc1.
    - apply TokenizerFacts.at_comment_progress in Hc.
      eapply List.Forall_impl; [|exact Hbelow1]. unfold offset_of. cbn beta. intros o Ho. lia. }
  assert (Hne : rest (skipWhitespace st) <> []) by (rewrite E1; discriminate).
  destruct (TokenizerFacts.nextToken_progress _ Hne) as [Hp _].
  destruct (located_nextToken _ Hloc1) as [Hloc2 Htoken].
  destruct (located_offset _ Hloc1) as [Hlen1 Hplace].
  destruct (nextToken (skipWhitespace st)) as [[token|] st2]; cbn [fst snd] in *.
  - destruct (Htoken token eq_refl) as [Hl Hcol].
    apply (IH _ _ _ _ (offsets ++ [offset_of input (skipWhitespace st)]) H); auto.
    + apply List.Forall2_app; [exact Hplaced|]. constructor; [|constructor]. auto.
    + apply sorted_snoc; assumption.
    + apply List.Forall_app. split.
      * eapply List.Forall_impl; [|exact Hbelow1]. unfold offset_of. cbn beta. intros o Ho. lia.
      * constructor; [|constructor]. unfold offset_of. lia.
  - apply (IH _ _ _ _ offsets H); auto.
    eapply List.Forall_impl; [|exact Hbelow1]. unfold offset_of. cbn beta. intros o Ho. lia.
Qed.

End Input.

End PositionFacts.

(** ** What the tokenizer puts in a token *)

Module ShapeFacts.
Import Host BrainRotTokenizer.

Lemma append_cons c (a b : string) : String c a +:+ b = String c (a +:+ b).
Proof. reflexivity. Qed.

Lemma append_assoc (a b c : string) : (a +:+ b) +:+ c = a +:+ (b +:+ c).
Proof.
  induction a as [|x a IH]; [reflexivity|]. rewrite !append_cons. f_equal. exact IH.
Qed.

Lemma append_empty (a : string) : a +:+ "" = a.
Proof. induction a as [|x a IH]; [reflexivity|]. rewrite append_cons. f_equal. exact IH. Qed.

Lemma push_char_append val c more : push_char val c +:+ more = val +:+ String c more.
Proof. unfold push_char. rewrite append_assoc. reflexivity. Qed.

Lemma readNumber_loop_value l :
  forall ln col val hasDot,
    exists more,
      fst (readNumber_loop l ln col val hasDot) = val +:+ more
      /\ all_chars is_number_part more = true
      /\ count_char "." more <= (if hasDot then 0 else 1).
Proof.
  induction l as [|c r IH]; intros ln col val hasDot; cbn [readNumber_loop].
  - exists "". rewrite append_empty. cbn. destruct hasDot; auto.
  - destruct (advance_position c ln col) as [ln' col'].
    destruct (is_digit c) eqn:Hd.
    + destruct (IH ln' col' (push_char val c) hasDot) as (more & -> & Hall & Hdots).
      exists (String c more). rewrite push_char_append. split; [reflexivity|].
      cbn. unfold is_number_part at 1. rewrite Hd, Hall. split; [reflexivity|].
      destruct (Ascii.eqb_spec c "."); [subst c; discriminate Hd|]. cbn. exact Hdots.
    + destruct (Ascii.eqb c ".") eqn:Hdot; destruct hasDot; cbn [andb negb fst].
      * exists "". rewrite append_empty. cbn. auto.
      * destruct (IH ln' col' (push_char val c) true) as (more & -> & Hall & Hdots).
        exists (String c more). rewrite push_char_append. split; [reflexivity|].
        cbn. unfold is_number_part at 1. rewrite Hd, Hdot, Hall. split; [reflexivity|].
        cbn. lia.
      * exists "". rewrite append_empty. cbn. auto.
      * exists "". rewrite append_empty. cbn. auto.
Qed.

Lemma readIdentifier_loop_value l :
  forall ln col val,
    exists more,
      fst (readIdentifier_loop l ln col val) = val +:+ more
      /\ all_chars is_identifier_part more = true.
Proof.
  induction l as [|c r IH]; intros ln col val; cbn [readIdentifier_loop].
  - exists "". rewrite append_empty. auto.
  - destruct (is_identifier_part c) eqn:Hp.
    + destruct (advance_position c ln col) as [ln' col'].
      destruct (IH ln' col' (push_char val c)) as (more & -> & Hall).
      exists (String c more). rewrite push_char_append. split; [reflexivity|].
      cbn. rewrite Hp, Hall. reflexivity.
    + exists "". rewrite append_empty. auto.
Qed.

Lemma identifier_start_part c : is_identifier_start c = true -> is_identifier_part c = true.
Proof.
  unfold is_identifier_start, is_identifier_part.
  destruct (char_between "a" "z" c), (char_between "A" "Z" c), (Ascii.eqb c "_");
    simpl; try reflexivity; try discriminate. intros _. apply orb_true_r.
Qed.

Lemma keywords_get_name s k : keywords_get keywords s = Some k -> In k keyword_names.
Proof.
  unfold keywords, keyword_names. cbn [keywords_get].
  repeat match goal with
         | |- context [String.eqb ?a s] =>
             destruct (String.eqb a s); [intros [= <-]; cbn; auto 15|]
         end.
  discriminate.
Qed.

Lemma operator_token_shape char name ln col :
  operators_get operators char = Some name ->
  token_shape (mkToken (operator_type name) name ln col) = true.
Proof.
  unfold operators. cbn [operators_get].
  repeat match goal with
         | |- context [Ascii.eqb ?a char] =>
             destruct (Ascii.eqb a char); [intros [= <-]; reflexivity|]
         end.
  discriminate.
Qed.

Lemma nextToken_shape st t : fst (nextToken st) = Some t -> token_shape t = true.
Proof.
  unfold nextToken. destruct (rest st) as [|char r] eqn:E; [discriminate|].
  destruct (is_digit char) eqn:Hd.
  { unfold readNumber. rewrite E. cbn [readNumber_loop].
    destruct (advance_position char (cur_line st) (cur_column st)) as [ln' col'].
    rewrite Hd.
    destruct (readNumber_loop_value r ln' col' (push_char "" char) false)
      as (more & Hval & Hall & Hdots).
    destruct (readNumber_loop r ln' col' (push_char "" char) false) as [val st'].
    cbn [fst] in *. intros [= <-]. subst val. unfold token_shape. cbn [type value].
    rewrite push_char_append. change ("" +:+ String char more) with (String char more).
    cbn [number_text]. rewrite Hd, Hall. cbn [andb]. apply Nat.leb_le. exact Hdots. }
  destruct (Ascii.eqb char double_quote || Ascii.eqb char "'").
  { unfold readString. rewrite E.
    destruct (readString_loop char _ _ _ "") as [val st2]. intros [= <-]. reflexivity. }
  destruct (is_identifier_start char) eqn:Hs.
  { unfold readIdentifier. rewrite E. cbn [readIdentifier_loop].
    rewrite (identifier_start_part char Hs).
    destruct (advance_position char (cur_line st) (cur_column st)) as [ln' col'].
    destruct (readIdentifier_loop_value r ln' col' (push_char "" char)) as (more & Hval & Hall).
    destruct (readIdentifier_loop r ln' col' (push_char "" char)) as [val st'].
    cbn [fst] in *. subst val. rewrite push_char_append.
    change ("" +:+ String char more) with (String char more).
    destruct (keywords_get keywords (toLowerCase (String char more)))
      as [keyword|] eqn:Ek; intros [= <-]; unfold token_shape; cbn [type value].
    - apply TreeFacts.includes_in. eapply keywords_get_name; eauto.
    - unfold is_keyword. rewrite Ek. cbn. rewrite Hs, Hall. reflexivity. }
  destruct (Ascii.eqb char "=" && peek_is 1 "=" st); [intros [= <-]; reflexivity|].
  destruct (Ascii.eqb char "!" && peek_is 1 "=" st); [intros [= <-]; reflexivity|].
  destruct (operators_get operators char) as [name|] eqn:Eo; [|discriminate].
  cbn [fst]. intros [= <-]. eapply operator_token_shape; eauto.
Qed.

(** A property of every token of [nextToken] holds of the tokens the loop
    of [tokenize] adds. *)
Lemma tokenize_loop_forall (P : Token -> Prop) :
  (forall st t, fst (nextToken st) = Some t -> P t) ->
  forall fuel st tokens tokens' st',
    tokenize_loop fuel st tokens = Some (tokens', st') ->
    List.Forall P tokens -> List.Forall P tokens'.
Proof.
  intros Hnext. induction fuel as [|fuel IH]; intros st tokens tokens' st' H Hall;
    [discriminate|].
  cbn [tokenize_loop] in H. destruct (rest st); [injection H as <- _; exact Hall|].
  destruct (rest (skipWhitespace st)); [injection H as <- _; exact Hall|].
  destruct (at_comment (skipWhitespace st)); [eapply IH; eauto|].
  pose proof (Hnext (skipWhitespace st)) as Ht.
  destruct (nextToken (skipWhitespace st)) as [[token|] st2]; cbn [fst] in Ht.
  - eapply IH; [exact H|]. apply List.Forall_app. split; [exact Hall|].
    constructor; [auto|constructor].
  - eapply IH; eauto.
Qed.

End ShapeFacts.

(** ** String literals, words and inert text *)

Module LiteralFacts.
Import Host BrainRotTokenizer ShapeFacts.

Lemma tokenize_loop_S fuel st tokens :
  tokenize_loop (S fuel) st tokens
  = match rest st with
    | [] => Some (tokens, st)
    | _ :: _ =>
        match rest (skipWhitespace st) with
        | [] => Some (tokens, skipWhitespace st)
        | _ :: _ =>
            if at_comment (skipWhitespace st)
            then tokenize_loop fuel (skipComment (skipWhitespace st)) tokens
            else
              match nextToken (skipWhitespace st) with
              | (Some token, st2) => tokenize_loop fuel st2 (tokens ++ [token])
              | (None, st2) => tokenize_loop fuel st2 tokens
              end
        end
    end.
Proof. reflexivity. Qed.

Lemma list_of_append (a b : string) :
  list_ascii_of_string (a +:+ b) = list_ascii_of_string a ++ list_ascii_of_string b.
Proof.
  induction a as [|c a IH]; [reflexivity|]. rewrite append_cons. cbn. f_equal. exact IH.
Qed.

Lemma quote_is_plain quote :
  is_quote quote = true ->
  Ascii.eqb quote "\" = false /\ escape quote quote = quote /\ escape quote "\" = "\"%char
  /\ is_digit quote = false /\ is_whitespace quote = false
  /\ Ascii.eqb quote "#" = false /\ Ascii.eqb quote newline = false.
Proof.
  unfold is_quote. intros H. apply orb_true_iff in H as [H|H];
    apply Ascii.eqb_eq in H; subst quote; repeat split; reflexivity.
Qed.

(** The loop of [readString] on escaped text undoes the escapes, and stops
    at the closing quote or at the end of the input. *)
Lemma readString_loop_escaped quote s tail :
  is_quote quote = true ->
  tail = [] \/ (exists tail', tail = quote :: tail') ->
  forall ln col val,
    exists ln' col',
      readString_loop quote (list_ascii_of_string (escaped quote s) ++ tail) ln col val
      = (val +:+ s, mkState tail ln' col').
Proof.
  intros Hq Htail. destruct (quote_is_plain quote Hq) as (Hqb & Hqq & Hqs & _).
  induction s as [|c s IH]; intros ln col val.
  - cbn [escaped list_ascii_of_string app]. rewrite append_empty.
    destruct Htail as [->|[tail' ->]]; cbn [readString_loop].
    + eauto.
    + rewrite Ascii.eqb_refl. eauto.
  - cbn [escaped].
    destruct (Ascii.eqb c "\" || Ascii.eqb c quote) eqn:Hc.
    + cbn [list_ascii_of_string app readString_loop].
      rewrite (Ascii.eqb_sym "\" quote), Hqb.
      destruct (advance_position "\" ln col) as [ln1 col1].
      rewrite Ascii.eqb_refl.
      destruct (advance_position c ln1 col1) as [ln2 col2].
      assert (He : escape quote c = c).
      { apply orb_true_iff in Hc as [Hc|Hc]; apply Ascii.eqb_eq in Hc; subst c; assumption. }
      rewrite He.
      destruct (IH ln2 col2 (push_char val c)) as (ln' & col' & ->).
      rewrite push_char_append. eauto.
    + apply orb_false_iff in Hc as [Hc1 Hc2].
      cbn [list_ascii_of_string app readString_loop]. rewrite Hc2.
      destruct (advance_position c ln col) as [ln1 col1]. rewrite Hc1.
      destruct (IH ln1 col1 (push_char val c)) as (ln' & col' & ->).
      rewrite push_char_append. eauto.
Qed.

(** The first round of the loop of [tokenize] on a literal that fills the
    input. *)
Lemma tokenize_literal quote s end_of_literal :
  is_quote quote = true ->
  end_of_literal = "" \/ end_of_literal = String quote "" ->
  exists ln col,
    tokenize (String quote (escaped quote s +:+ end_of_literal))
    = Some [mkToken STRING s 1 1; mkToken EOF "" ln col].
Proof.
  intros Hq Hend_of_literal.
  destruct (quote_is_plain quote Hq) as (_ & _ & _ & Hdigit & Hws & Hhash & Hnl).
  unfold tokenize. cbn [list_ascii_of_string]. rewrite list_of_append.
  set (closing := list_ascii_of_string end_of_literal).
  assert (Hclosing : closing = [] \/ closing = [quote]).
  { destruct Hend_of_literal as [->| ->]; [left|right]; reflexivity. }
  clearbody closing. clear Hend_of_literal.
  set (body := list_ascii_of_string (escaped quote s)).
  assert (Htail : closing = [] \/ (exists tail', closing = quote :: tail')).
  { destruct Hclosing as [->| ->]; eauto. }
  destruct (readString_loop_escaped quote s closing Hq Htail 1 2 "") as (ln' & col' & Hloop).
  fold body in Hloop.
  assert (Hnext : exists st3,
             nextToken (mkState (quote :: body ++ closing) 1 1)
             = (Some (mkToken STRING s 1 1), st3) /\ rest st3 = []).
  { unfold nextToken. cbn [rest cur_line cur_column]. rewrite Hdigit.
    unfold is_quote in Hq. rewrite Hq. unfold readString. cbn [rest].
    assert (Hadv : advance (mkState (quote :: body ++ closing) 1 1)
                   = mkState (body ++ closing) 1 2).
    { unfold advance, advance_position. cbn [rest cur_line cur_column].
      rewrite Hnl. reflexivity. }
    rewrite Hadv. cbn [rest cur_line cur_column]. rewrite Hloop.
    change ("" +:+ s) with s.
    destruct Hclosing as [->| ->].
    - exists (mkState [] ln' col'). split; reflexivity.
    - unfold peek_is, peek. cbn [rest nth_error]. rewrite Ascii.eqb_refl.
      unfold advance, advance_position. cbn [rest cur_line cur_column]. rewrite Hnl.
      eexists. split; reflexivity. }
  destruct Hnext as (st3 & Hnext & Hend).
  cbn [List.length]. rewrite tokenize_loop_S. cbn [rest].
  assert (Hskip : skipWhitespace (mkState (quote :: body ++ closing) 1 1)
                  = mkState (quote :: body ++ closing) 1 1).
  { unfold skipWhitespace. cbn [rest cur_line cur_column skipWhitespace_loop].
    rewrite Hws. reflexivity. }
  rewrite Hskip. cbn [rest].
  assert (Hc : at_comment (mkState (quote :: body ++ closing) 1 1) = false).
  { unfold at_comment, peek_is, peek. cbn [rest nth_error]. rewrite Hhash. reflexivity. }
  rewrite Hc, Hnext, tokenize_loop_S, Hend. cbn [app]. eauto.
Qed.

End LiteralFacts.

Module WordFacts.
Import Host BrainRotTokenizer ShapeFacts LiteralFacts.

Lemma identifier_part_plain c :
  is_identifier_part c = true -> Ascii.eqb c newline = false.
Proof.
  destruct (Ascii.eqb_spec c newline) as [->|]; [discriminate|reflexivity].
Qed.

Lemma identifier_start_plain c :
  is_identifier_start c = true ->
  is_digit c = false /\ Ascii.eqb c double_quote || Ascii.eqb c "'" = false
  /\ is_whitespace c = false /\ Ascii.eqb c "#" = false.
Proof.
  destruct c as [[] [] [] [] [] [] [] []]; vm_compute; intros H;
    try discriminate H; repeat split.
Qed.

Lemma readIdentifier_loop_word word :
  all_chars is_identifier_part word = true ->
  forall ln col val,
    readIdentifier_loop (list_ascii_of_string word) ln col val
    = (val +:+ word, mkState [] ln (col + String.length word)).
Proof.
  induction word as [|c word IH]; intros Hall ln col val.
  - cbn. rewrite append_empty, Nat.add_0_r. reflexivity.
  - cbn [all_chars] in Hall. apply andb_true_iff in Hall as [Hc Hall].
    cbn [list_ascii_of_string readIdentifier_loop]. rewrite Hc.
    unfold advance_position. rewrite (identifier_part_plain c Hc).
    rewrite (IH Hall), push_char_append. cbn [String.length].
    replace (S col + String.length word) with (col + S (String.length word)) by lia.
    reflexivity.
Qed.

End WordFacts.

Module InertFacts.
Import Host BrainRotTokenizer ShapeFacts LiteralFacts.

Lemma skipWhitespace_loop_inert l :
  inert l ->
  forall ln col,
    inert (rest (skipWhitespace_loop l ln col))
    /\ List.length (rest (skipWhitespace_loop l ln col)) <= List.length l
    /\ match rest (skipWhitespace_loop l ln col) with
       | [] => True
       | c :: _ => is_whitespace c = false
       end.
Proof.
  induction l as [|c r IH]; intros Hinert ln col; cbn [skipWhitespace_loop].
  - cbn. auto.
  - destruct (is_whitespace c) eqn:Hw.
    + destruct (advance_position c ln col) as [ln' col'].
      assert (Hr : inert r).
      { inversion Hinert as [|c' l' _ Hl|text l' _ _ _ Heq]; subst; [exact Hl|].
        discriminate Hw. }
      destruct (IH Hr ln' col') as (H1 & H2 & H3). cbn [List.length]. auto.
    + cbn [rest]. auto.
Qed.

Lemma skipComment_loop_text text l :
  forallb (fun c => negb (Ascii.eqb c newline)) text = true ->
  l = [] \/ (exists l', l = newline :: l') ->
  forall ln col, rest (skipComment_loop (text ++ l) ln col) = l.
Proof.
  intros Htext Hl. induction text as [|c text IH]; intros ln col.
  - cbn [app]. destruct Hl as [->|[l' ->]]; reflexivity.
  - cbn [forallb] in Htext. apply andb_true_iff in Htext as [Hc Htext].
    cbn [app skipComment_loop]. rewrite Hc.
    destruct (advance_position c ln col) as [ln' col']. apply IH. exact Htext.
Qed.

Lemma unrecognized_plain c :
  recognized c = false ->
  is_digit c = false /\ Ascii.eqb c double_quote || Ascii.eqb c "'" = false
  /\ is_identifier_start c = false /\ Ascii.eqb c "=" = false /\ Ascii.eqb c "!" = false
  /\ operators_get operators c = None.
Proof.
  destruct c as [[] [] [] [] [] [] [] []]; vm_compute; intros H;
    try discriminate H; repeat split.
Qed.

Lemma inert_not_r l : inert ("r"%char :: l) -> False.
Proof. intros H. inversion H as [|c l' Hc _|]; subst. discriminate Hc. Qed.

Lemma tokenize_loop_inert fuel :
  forall st tokens,
    inert (rest st) -> List.length (rest st) < fuel ->
    exists st', tokenize_loop fuel st tokens = Some (tokens, st').
Proof.
  induction fuel as [|fuel IH]; intros st tokens Hinert Hlt; [lia|].
  rewrite tokenize_loop_S. destruct (rest st) as [|c r] eqn:E; [eauto|].
  destruct (skipWhitespace_loop_inert (c :: r) Hinert (cur_line st) (cur_column st))
    as (Hinert1 & Hlen1 & Hhead).
  replace (skipWhitespace st)
    with (skipWhitespace_loop (c :: r) (cur_line st) (cur_column st))
    by (unfold skipWhitespace; rewrite E; reflexivity).
  set (st1 := skipWhitespace_loop (c :: r) (cur_line st) (cur_column st)) in *.
  destruct (rest st1) as [|c1 r1] eqn:E1; [eauto|].
  inversion Hinert1 as [|c' l' Hc Hl|text l Htext Hnext Hl]; subst.
  - rewrite Hhead in Hc. cbn [orb] in Hc. apply negb_true_iff in Hc.
    destruct (unrecognized_plain c1 Hc) as (Hd & Hq & Hs & Heq & Hbang & Hop).
    assert (Hcomment : at_comment st1 = false).
    { unfold at_comment, peek_is, peek. rewrite E1. cbn [nth_error].
      destruct (Ascii.eqb c1 "#"); [|reflexivity]. cbn [andb].
      destruct r1 as [|c2 r2]; [reflexivity|]. cbn [nth_error].
      destruct (Ascii.eqb_spec c2 "r") as [->|]; [|reflexivity].
      exfalso. exact (inert_not_r _ Hl). }
    rewrite Hcomment. unfold nextToken. rewrite E1, Hd, Hq, Hs, Heq, Hbang, Hop.
    cbn [andb]. apply IH.
    + unfold advance. rewrite E1.
      destruct (advance_position c1 (cur_line st1) (cur_column st1)). exact Hl.
    + unfold advance. rewrite E1.
      destruct (advance_position c1 (cur_line st1) (cur_column st1)).
      cbn [rest]. cbn [List.length] in *. lia.
  - assert (Hcomment : at_comment st1 = true).
    { unfold at_comment, peek_is, peek. rewrite E1. reflexivity. }
    rewrite Hcomment.
    assert (Hrest : rest (skipComment st1) = l).
    { unfold skipComment. rewrite E1.
      cbn [skipComment_loop]. change (negb (Ascii.eqb "#" newline)) with true.
      change (negb (Ascii.eqb "r" newline)) with true.
      change (negb (Ascii.eqb "o" newline)) with true.
      change (negb (Ascii.eqb "t" newline)) with true. cbv iota.
      repeat match goal with
             | |- context [advance_position ?c ?a ?b] =>
                 destruct (advance_position c a b)
             end.
      apply skipComment_loop_text; assumption. }
    apply IH; rewrite Hrest; [exact Hl|].
    cbn [List.length] in *. rewrite length_app in Hlen1. lia.
Qed.

End InertFacts.

(** ** The parser on the phrases of the grammar *)

Module GrammarFacts.
Import Host BrainRotParser.

Lemma kind_eqb_eq a b : kind_eqb a b = true -> a = b.
Proof.
  destruct a as [ta va], b as [tb vb]. unfold kind_eqb. cbn. intros H.
  apply andb_true_iff in H as [Ht Hv]. apply String.eqb_eq in Hv. subst vb.
  destruct ta, tb; try discriminate; reflexivity.
Qed.

Lemma is_operator_at_cases level k :
  is_operator_at level k = true -> level <= 5 /\ In k (level_operators level).
Proof.
  unfold is_operator_at. intros H. apply existsb_exists in H as (x & Hin & Hx).
  apply kind_eqb_eq in Hx. subst x. split; [|exact Hin].
  destruct level as [|[|[|[|[|[|level]]]]]]; try lia. destruct Hin.
Qed.

Lemma stops_operator level l k :
  stops level k = true -> level <= l -> l <= 5 -> is_operator_at l k = false.
Proof.
  unfold stops. intros H Hle Hl. apply andb_true_iff in H as [H _].
  apply negb_true_iff in H. destruct (is_operator_at l k) eqn:E; [|reflexivity].
  exfalso. apply not_true_iff_false in H. apply H. apply existsb_exists. exists l. split.
  - destruct l as [|[|[|[|[|[|l]]]]]]; cbn; auto 10. lia.
  - rewrite E. apply andb_true_iff. split; [apply Nat.leb_le; exact Hle|reflexivity].
Qed.

Lemma stops_call level k :
  stops level k = true -> level <= 7 -> kind_eqb k (delimiter_token "LPAREN") = false.
Proof.
  unfold stops. intros H Hle. apply andb_true_iff in H as [_ H].
  apply orb_true_iff in H as [H|H]; [apply negb_true_iff in H; exact H|].
  apply Nat.leb_le in H. lia.
Qed.

Lemma stops_tighter level k : stops level k = true -> stops (S level) k = true.
Proof.
  unfold stops. intros H. apply andb_true_iff in H as [H1 H2].
  apply andb_true_iff. split.
  - apply negb_true_iff in H1. apply negb_true_iff.
    apply not_true_iff_false. apply not_true_iff_false in H1. intros H. apply H1.
    apply existsb_exists in H as (l & Hin & Hl). apply existsb_exists. exists l.
    split; [exact Hin|]. apply andb_true_iff in Hl as [Hl1 Hl2].
    apply Nat.leb_le in Hl1. rewrite Hl2.
    apply andb_true_iff. split; [apply Nat.leb_le; lia|reflexivity].
  - apply orb_true_iff in H2 as [H2|H2]; [rewrite H2; reflexivity|].
    apply Nat.leb_le in H2. apply orb_true_iff. right. apply Nat.leb_le. lia.
Qed.

Lemma stops_at_8 k : stops 8 k = true.
Proof.
  unfold stops. cbn. destruct (kind_eqb k (delimiter_token "LPAREN")); rewrite ?orb_true_r;
    reflexivity.
Qed.

Lemma operator_stops level op :
  is_operator_at level op = true -> stops (S level) op = true.
Proof.
  intros H. apply is_operator_at_cases in H as [Hle Hin].
  destruct level as [|[|[|[|[|[|level]]]]]]; try lia; cbn in Hin;
    repeat (destruct Hin as [<-|Hin]; [reflexivity|]); destruct Hin.
Qed.

Lemma starts_expression_cases k :
  starts_expression k = true ->
  fst k = NUMBER \/ fst k = STRING \/ fst k = IDENTIFIER
  \/ In k [delimiter_token "LPAREN"; operator_token "NOT"; keyword_token "NOTROT"; operator_token "MINUS"].
Proof.
  unfold starts_expression, starts_primary, is_unary_operator. intros H.
  destruct k as [ty v]. cbn [fst] in *.
  destruct ty; auto; right; right; right;
    cbn [existsb] in H; rewrite ?orb_false_r in H;
    repeat (apply orb_true_iff in H as [H|H]);
    try (apply kind_eqb_eq in H; rewrite H; cbn; auto 6; fail);
    try discriminate H.
Qed.

Section Tokens.

Variable tokens : list Token.

Lemma reads_app pos a b :
  reads tokens pos (a ++ b) <-> reads tokens pos a /\ reads tokens (pos + List.length a) b.
Proof.
  revert pos. induction a as [|k a IH]; intros pos; cbn [app reads List.length].
  - rewrite Nat.add_0_r. tauto.
  - rewrite IH. replace (S pos + List.length a) with (pos + S (List.length a)) by lia. tauto.
Qed.

Lemma reads_head pos k ks : reads tokens pos (k :: ks) -> kind_at tokens pos k.
Proof. intros [H _]. exact H. Qed.

Lemma reads_end pos ts next :
  reads tokens pos (ts ++ [next]) ->
  reads tokens pos ts /\ kind_at tokens (pos + List.length ts) next.
Proof. intros H. apply reads_app in H as [H1 [H2 _]]. auto. Qed.

(** *** The token methods on a token of a known kind *)

Lemma accepts_on t ty val : accepts ty val t = accepts_kind ty val (kind_of t).
Proof. reflexivity. Qed.

Lemma match_on pos k ty val :
  kind_at tokens pos k ->
  match_ tokens ty val pos
  = if accepts_kind ty val k then Ok true (S pos) else Ok false pos.
Proof.
  intros (t & Et & <-). rewrite ParserTermination.match_eq, Et. reflexivity.
Qed.

Lemma check_on pos k ty val :
  kind_at tokens pos k -> check tokens ty val pos = Ok (accepts_kind ty val k) pos.
Proof.
  intros (t & Et & <-). rewrite ParserTermination.check_eq, Et. reflexivity.
Qed.

Lemma isAtEnd_on pos k :
  kind_at tokens pos k -> isAtEnd tokens pos = Ok (TokenType_eqb (fst k) EOF) pos.
Proof.
  intros (t & Et & <-). unfold isAtEnd, bind, peek, ret. rewrite Et. reflexivity.
Qed.

Lemma consume_on pos ty v message :
  kind_at tokens pos (ty, v) -> ty <> EOF -> v <> "" ->
  exists t, consume tokens ty v message pos = Ok (Some t) (S pos) /\ value t = v.
Proof.
  intros (t & Et & Hk) Hty Hv. exists t.
  rewrite (ParserTermination.consume_eq tokens ty v message pos Hty), Et.
  apply String.eqb_neq in Hv. rewrite Hv. rewrite accepts_on, Hk.
  unfold accepts_kind. cbn [fst snd]. rewrite String.eqb_refl.
  injection Hk as Htype Hvalue. split; [|exact Hvalue].
  destruct ty; try contradiction; reflexivity.
Qed.

Lemma consume_identifier pos name message :
  kind_at tokens pos (IDENTIFIER, name) ->
  exists t, consume tokens IDENTIFIER "" message pos = Ok (Some t) (S pos)
            /\ value t = name.
Proof.
  intros (t & Et & Hk). exists t.
  rewrite (ParserTermination.consume_eq tokens IDENTIFIER "" message pos ltac:(discriminate)),
    Et.
  injection Hk as Htype Hvalue. cbn [String.eqb]. rewrite Htype. auto.
Qed.

Lemma previous_value_on pos k :
  kind_at tokens pos k ->
  bind (previous tokens) (fun token => value_of token) (S pos) = Ok (snd k) (S pos).
Proof.
  intros (t & Et & <-). unfold bind, previous. rewrite Et. reflexivity.
Qed.

Lemma accepts_kind_eqb ty name k :
  ty <> EOF -> accepts_kind ty (Some name) k = kind_eqb k (ty, name).
Proof.
  intros Hty. destruct k as [t v]. unfold accepts_kind, kind_eqb. cbn [fst snd].
  destruct t, ty; cbn; try reflexivity; contradiction.
Qed.

Lemma orelse_on (a b : Parser bool) pos (x y : bool) :
  a pos = (if x then Ok true (S pos) else Ok false pos) ->
  b pos = (if y then Ok true (S pos) else Ok false pos) ->
  orelse a b pos = if x || y then Ok true (S pos) else Ok false pos.
Proof. unfold orelse, bind. intros -> Hb. destruct x; [reflexivity|]. exact Hb. Qed.

Lemma match_kind pos k ty name :
  kind_at tokens pos k -> ty <> EOF ->
  match_ tokens ty (Some name) pos
  = if kind_eqb k (ty, name) then Ok true (S pos) else Ok false pos.
Proof. intros Hk Hty. rewrite (match_on pos k _ _ Hk), accepts_kind_eqb; auto. Qed.

Lemma level_test_on level pos k :
  kind_at tokens pos k -> level <= 5 ->
  level_test tokens level pos
  = if is_operator_at level k then Ok true (S pos) else Ok false pos.
Proof.
  intros Hk Hle. unfold is_operator_at.
  destruct level as [|[|[|[|[|[|level]]]]]]; try lia;
    cbn [level_test level_operators existsb]; rewrite ?orb_false_r;
    repeat first [ apply orelse_on | apply match_kind; [exact Hk|discriminate] ].
Qed.

(** The token test of [unary]. *)
Lemma unary_test_on pos k :
  kind_at tokens pos k ->
  orelse (match_ tokens OPERATOR (Some "NOT"))
    (orelse (match_ tokens KEYWORD (Some "NOTROT")) (match_ tokens OPERATOR (Some "MINUS")))
    pos
  = if is_unary_operator k then Ok true (S pos) else Ok false pos.
Proof.
  intros Hk. unfold is_unary_operator. cbn [existsb]. rewrite ?orb_false_r.
  repeat first [ apply orelse_on | apply match_kind; [exact Hk|discriminate] ].
Qed.

(** *** Runs with enough fuel *)

Lemma bind_on {A B : Type} (m : Parser A) (k : A -> Parser B) pos a p :
  m pos = Ok a p -> bind m k pos = k a p.
Proof. unfold bind. intros ->. reflexivity. Qed.

Lemma bind_assoc_on {A B C : Type} (m : Parser A) (f : A -> Parser B) (k : B -> Parser C)
  pos :
  bind m (fun x => bind (f x) k) pos = bind (bind m f) k pos.
Proof. unfold bind. destruct (m pos); reflexivity. Qed.

Lemma method_binary level f pos :
  level <= 5 ->
  level_method tokens level (S f) pos
  = bind (level_method tokens (S level) f)
      (fun e => binary_loop tokens f (level_test tokens level)
                  (level_method tokens (S level) f) e) pos.
Proof.
  intros Hle. destruct level as [|[|[|[|[|[|level]]]]]]; try lia; reflexivity.
Qed.

Lemma loops_stop level e pos k :
  kind_at tokens pos k -> level <= 5 -> is_operator_at level k = false ->
  loops tokens level e pos (Ok e pos).
Proof.
  intros Hk Hle Hop. exists 1. intros n f Hn _. destruct n as [|n]; [lia|].
  cbn [binary_loop]. unfold bind. rewrite (level_test_on level pos k Hk Hle), Hop.
  reflexivity.
Qed.

Lemma loops_step level e pos op right p r :
  kind_at tokens pos op -> is_operator_at level op = true ->
  finishes (level_method tokens (S level)) (S pos) (Ok right p) ->
  loops tokens level (BinaryExpression (snd op) e right) p r ->
  loops tokens level e pos r.
Proof.
  intros Hk Hop [n1 H1] [n2 H2]. destruct (is_operator_at_cases level op Hop) as [Hle _].
  exists (S (Nat.max n1 n2)). intros n f Hn Hf. destruct n as [|n]; [lia|].
  cbn [binary_loop]. unfold bind at 1.
  rewrite (level_test_on level pos op Hk Hle), Hop.
  unfold bind at 1. rewrite (previous_value_on pos op Hk).
  unfold bind at 1. rewrite (H1 f ltac:(lia)). apply H2; lia.
Qed.

Lemma method_from_loop level pos e p r :
  level <= 5 ->
  finishes (level_method tokens (S level)) pos (Ok e p) ->
  loops tokens level e p r ->
  finishes (level_method tokens level) pos r.
Proof.
  intros Hle [n1 H1] [n2 H2]. exists (S (Nat.max n1 n2)). intros fuel Hfuel.
  destruct fuel as [|f]; [lia|]. rewrite (method_binary level f pos Hle).
  unfold bind. rewrite (H1 f ltac:(lia)). apply H2; lia.
Qed.

Lemma call_loops_stop e pos k :
  kind_at tokens pos k -> kind_eqb k (delimiter_token "LPAREN") = false ->
  call_loops tokens e pos (Ok e pos).
Proof.
  intros Hk Hne. exists 1. intros fuel Hfuel. destruct fuel as [|f]; [lia|].
  cbn [call_loop]. unfold bind.
  rewrite (match_kind pos k DELIMITER "LPAREN" Hk ltac:(discriminate)).
  unfold delimiter_token in Hne. rewrite Hne. reflexivity.
Qed.

Lemma call_from_loop pos e p r :
  finishes (level_method tokens 8) pos (Ok e p) ->
  call_loops tokens e p r ->
  finishes (level_method tokens 7) pos r.
Proof.
  intros [n1 H1] [n2 H2]. exists (S (Nat.max n1 n2)). intros fuel Hfuel.
  destruct fuel as [|f]; [lia|]. cbn [level_method call]. unfold bind.
  cbn [level_method] in H1. rewrite (H1 f ltac:(lia)). apply H2. lia.
Qed.

Lemma expression_from_level pos r :
  finishes (level_method tokens 0) pos r ->
  finishes (fun fuel => expression tokens fuel) pos r.
Proof.
  intros [n H]. exists (S n). intros fuel Hfuel. destruct fuel as [|f]; [lia|].
  cbn [expression]. apply (H f). lia.
Qed.

(** *** The first token of a phrase *)

Lemma expr_first level ts e :
  expr_at level ts e ->
  exists k rest,
    ts = k :: rest /\ starts_expression k = true
    /\ (7 <= level -> starts_primary k = true).
Proof.
  induction 1 using expr_at_mutual
    with (P0 := fun _ _ => True) (P1 := fun _ _ => True); auto.
  - destruct IHexpr_at as (k & rest & -> & Hs & Hp). exists k, rest.
    repeat split; auto.
  - destruct IHexpr_at1 as (k & rest & -> & Hs & Hp). exists k, (rest ++ op :: tr).
    repeat split; auto.
  - exists op, ts. repeat split; [|intros Hle; lia].
    unfold starts_expression. rewrite H. apply orb_true_r.
  - destruct IHexpr_at as (k & rest & -> & Hs & Hp). eexists k, _.
    split; [reflexivity|]. auto.
  - eexists _, _. repeat split.
  - eexists _, _. repeat split.
  - eexists _, _. repeat split.
  - eexists _, _. repeat split.
Qed.

Lemma more_args_next more rest :
  more_args_at more rest ->
  exists next tail,
    more ++ [delimiter_token "RPAREN"] = next :: tail /\ stops 0 next = true.
Proof.
  intros H. destruct H; eexists _, _; split; try reflexivity.
Qed.

Lemma starts_primary_not_unary k : starts_primary k = true -> is_unary_operator k = false.
Proof.
  destruct k as [ty v]. unfold starts_primary, is_unary_operator, kind_eqb. cbn.
  destruct ty; cbn; try reflexivity; discriminate.
Qed.

(** *** The rules of the grammar of expressions *)

(** One step of a run: the token method at the head of the run, on a token
    of a known kind. *)
Ltac token_step Hk :=
  unfold bind at 1;
  first [ rewrite (match_on _ _ _ _ Hk)
        | rewrite (check_on _ _ _ _ Hk)
        | rewrite (isAtEnd_on _ _ Hk) ];
  match goal with
  | |- context [accepts_kind ?ty ?val ?k] =>
      let b := eval cbv in (accepts_kind ty val k) in
      change (accepts_kind ty val k) with b
  | |- context [TokenType_eqb ?a ?b] =>
      let b' := eval cbv in (TokenType_eqb a b) in
      change (TokenType_eqb a b) with b'
  end; cbv iota.

Lemma parses_tighter level ts e :
  level < 8 -> expr_at (S level) ts e -> parses tokens (S level) ts e ->
  parses tokens level ts e.
Proof.
  intros Hlt Hder IH pos next Hreads Hnext.
  destruct (IH pos next Hreads Hnext) as (IHA & IHB & IHC).
  destruct (Nat.le_gt_cases level 5) as [Hle|Hgt].
  - assert (B : stops (S level) next = true ->
                forall r, loops tokens level e (pos + List.length ts) r ->
                          finishes (level_method tokens level) pos r).
    { intros Hs r Hl. eapply method_from_loop; eauto. }
    split; [|split; [auto|intros ->; lia]].
    intros Hs. apply B; [apply stops_tighter; exact Hs|].
    apply (loops_stop level e _ next Hnext Hle).
    apply (stops_operator level level next Hs); lia.
  - assert (Hlevel : level = 6 \/ level = 7) by lia. destruct Hlevel as [-> | ->].
    + split; [|split; [intros; lia|intros; lia]].
      intros Hs. destruct (IHA (stops_tighter _ _ Hs)) as [n Hn].
      destruct (expr_first _ _ _ Hder) as (k & rest & -> & _ & Hp).
      apply reads_head in Hreads as Hk.
      exists (S n). intros fuel Hfuel. destruct fuel as [|f]; [lia|].
      cbn [level_method unary]. unfold bind at 1.
      rewrite (unary_test_on pos k Hk), (starts_primary_not_unary k (Hp ltac:(lia))).
      apply (Hn f). lia.
    + pose proof (IHA (stops_at_8 next)) as Hprimary.
      split; [|split; [intros; lia|]].
      * intros Hs. eapply call_from_loop; [exact Hprimary|].
        apply (call_loops_stop e _ next Hnext). apply (stops_call 7 next Hs). lia.
      * intros _ r Hl. eapply call_from_loop; eauto.
Qed.

Lemma parses_binary level op tl l tr r :
  is_operator_at level op = true ->
  parses tokens level tl l -> parses tokens (S level) tr r ->
  parses tokens level (tl ++ op :: tr) (BinaryExpression (snd op) l r).
Proof.
  intros Hop IHl IHr pos next Hreads Hnext.
  destruct (is_operator_at_cases level op Hop) as [Hle _].
  apply reads_app in Hreads as [Hl [Hk Hr]].
  rewrite length_app in *. cbn [List.length] in *.
  replace (pos + (List.length tl + S (List.length tr)))
    with (S (pos + List.length tl) + List.length tr) in * by lia.
  destruct (IHl pos op Hl Hk) as (_ & Bl & _).
  destruct (IHr (S (pos + List.length tl)) next Hr Hnext) as (Ar & _ & _).
  assert (B : stops (S level) next = true ->
              forall r0,
                loops tokens level (BinaryExpression (snd op) l r)
                  (S (pos + List.length tl) + List.length tr) r0 ->
                finishes (level_method tokens level) pos r0).
  { intros Hs r0 Hloop. apply (Bl Hle (operator_stops level op Hop)).
    eapply loops_step; eauto. }
  split; [|split; [auto|intros ->; lia]].
  intros Hs. apply B; [apply stops_tighter; exact Hs|].
  apply (loops_stop level _ _ next Hnext Hle).
  apply (stops_operator level level next Hs); lia.
Qed.

Lemma parses_unary op ts e :
  is_unary_operator op = true -> parses tokens 6 ts e ->
  parses tokens 6 (op :: ts) (UnaryExpression (snd op) e).
Proof.
  intros Hop IH pos next [Hk Hreads] Hnext. cbn [List.length] in *.
  replace (pos + S (List.length ts)) with (S pos + List.length ts) in * by lia.
  destruct (IH (S pos) next Hreads Hnext) as (A & _ & _).
  split; [|split; intros; lia].
  intros Hs. destruct (A Hs) as [n Hn].
  exists (S n). intros fuel Hfuel. destruct fuel as [|f]; [lia|].
  cbn [level_method unary]. unfold bind at 1. rewrite (unary_test_on pos op Hk), Hop.
  unfold bind at 1. rewrite (previous_value_on pos op Hk).
  unfold bind at 1. cbn [level_method] in Hn. rewrite (Hn f ltac:(lia)). reflexivity.
Qed.

Lemma parses_call tc callee tas args :
  parses tokens 7 tc callee -> parses_arguments tokens tas args ->
  parses tokens 7 (tc ++ delimiter_token "LPAREN" :: tas ++ [delimiter_token "RPAREN"])
    (CallExpression (callee_name callee) args).
Proof.
  intros IHc IHargs pos next Hreads Hnext.
  apply reads_app in Hreads as [Hc [Hk Hargs]].
  rewrite length_app in *. cbn [List.length] in *. rewrite length_app in *.
  cbn [List.length] in *.
  replace (pos + (List.length tc + S (List.length tas + 1)))
    with (S (pos + List.length tc) + List.length tas + 1) in * by lia.
  destruct (IHc pos _ Hc Hk) as (_ & _ & Cc).
  destruct (IHargs (S (pos + List.length tc)) callee Hargs) as [n1 H1].
  assert (C : forall r,
             call_loops tokens (CallExpression (callee_name callee) args)
               (S (pos + List.length tc) + List.length tas + 1) r ->
             finishes (level_method tokens 7) pos r).
  { intros r [n2 H2]. apply (Cc eq_refl).
    exists (S (Nat.max n1 n2)). intros fuel Hfuel. destruct fuel as [|f]; [lia|].
    cbn [call_loop]. token_step Hk.
    unfold bind at 1. rewrite (H1 f ltac:(lia)). apply H2. lia. }
  split; [|split; [intros; lia|auto]].
  intros Hs. apply C. apply (call_loops_stop _ _ next Hnext).
  apply (stops_call 7 next Hs). lia.
Qed.

Lemma parses_number text :
  parses tokens 8 [(NUMBER, text)]
    (Literal (VNumber (if BrainRotTokenizer.includes "." text
                       then parseFloat text else parseInt text))).
Proof.
  intros pos next [Hk _] Hnext. cbn [List.length].
  replace (pos + 1) with (S pos) by lia.
  split; [|split; intros; lia].
  intros _. exists 1. intros fuel Hfuel. destruct fuel as [|f]; [lia|].
  cbn [level_method primary]. token_step Hk.
  unfold bind at 1. rewrite (previous_value_on pos _ Hk). reflexivity.
Qed.

Lemma parses_string s : parses tokens 8 [(STRING, s)] (Literal (VString s)).
Proof.
  intros pos next [Hk _] Hnext. cbn [List.length].
  replace (pos + 1) with (S pos) by lia.
  split; [|split; intros; lia].
  intros _. exists 1. intros fuel Hfuel. destruct fuel as [|f]; [lia|].
  cbn [level_method primary]. do 2 token_step Hk.
  unfold bind at 1. rewrite (previous_value_on pos _ Hk). reflexivity.
Qed.

Lemma parses_identifier name : parses tokens 8 [(IDENTIFIER, name)] (Identifier name).
Proof.
  intros pos next [Hk _] Hnext. cbn [List.length].
  replace (pos + 1) with (S pos) by lia.
  split; [|split; intros; lia].
  intros _. exists 1. intros fuel Hfuel. destruct fuel as [|f]; [lia|].
  cbn [level_method primary]. do 3 token_step Hk.
  unfold bind at 1. rewrite (previous_value_on pos _ Hk). reflexivity.
Qed.

Lemma parses_parenthesized ts e :
  parses tokens 0 ts e ->
  parses tokens 8 (delimiter_token "LPAREN" :: ts ++ [delimiter_token "RPAREN"]) e.
Proof.
  intros IH pos next [Hk Hreads] Hnext.
  apply reads_end in Hreads as [Hreads Hclose].
  cbn [List.length] in *. rewrite length_app in *. cbn [List.length] in *.
  replace (pos + S (List.length ts + 1)) with (S (S pos + List.length ts)) in * by lia.
  destruct (IH (S pos) _ Hreads Hclose) as (A & _ & _).
  destruct (expression_from_level _ _ (A eq_refl)) as [n Hn].
  destruct (consume_on (S pos + List.length ts) DELIMITER "RPAREN"
              "Expected ) after expression" Hclose ltac:(discriminate) ltac:(discriminate))
    as (t & Ht & _).
  split; [|split; intros; lia].
  intros _. exists (S n). intros fuel Hfuel. destruct fuel as [|f]; [lia|].
  cbn [level_method primary]. do 4 token_step Hk.
  unfold bind at 1. rewrite (Hn f ltac:(lia)).
  unfold bind at 1. rewrite Ht. reflexivity.
Qed.

Lemma expression_start_not_closing k :
  starts_expression k = true ->
  accepts_kind DELIMITER (Some "RPAREN") k = false.
Proof.
  intros H. destruct k as [ty v].
  destruct (starts_expression_cases _ H) as [E|[E|[E|E]]]; cbn [fst] in E;
    try (subst ty; reflexivity).
  cbn in E. repeat (destruct E as [E|E]; [injection E as <- <-; reflexivity|]).
  destruct E.
Qed.

Lemma parses_no_argument : parses_arguments tokens [] [].
Proof.
  intros pos callee [Hk _]. cbn [List.length].
  destruct (consume_on pos DELIMITER "RPAREN" "Expected ) after arguments" Hk
              ltac:(discriminate) ltac:(discriminate)) as (t & Ht & _).
  exists 1. intros fuel Hfuel. destruct fuel as [|f]; [lia|].
  cbn [finishCall]. token_step Hk. unfold bind at 1. unfold ret at 1.
  unfold bind at 1. rewrite Ht. replace (pos + 0 + 1) with (S pos) by lia. reflexivity.
Qed.

Lemma parses_first_argument ts e more rest :
  expr_at 0 ts e -> more_args_at more rest ->
  parses tokens 0 ts e -> parses_more_arguments tokens more rest ->
  parses_arguments tokens (ts ++ more) (e :: rest).
Proof.
  intros Hder Hmore IH IHmore pos callee Hreads.
  rewrite <- app_assoc in Hreads. apply reads_app in Hreads as [Hts Hrest].
  destruct (expr_first _ _ _ Hder) as (k & tail & Ek & Hs & _).
  destruct (more_args_next _ _ Hmore) as (next & tail' & Enext & Hstops).
  assert (Hk : kind_at tokens pos k) by (subst ts; apply (reads_head _ _ _ Hts)).
  assert (Hnext : kind_at tokens (pos + List.length ts) next).
  { rewrite Enext in Hrest. apply (reads_head _ _ _ Hrest). }
  destruct (IH pos next Hts Hnext) as (A & _ & _).
  destruct (expression_from_level _ _ (A Hstops)) as [n1 H1].
  destruct (IHmore (pos + List.length ts) ([] ++ [e]) Hrest) as [n2 H2].
  apply reads_end in Hrest as [_ Hclose].
  destruct (consume_on _ DELIMITER "RPAREN" "Expected ) after arguments" Hclose
              ltac:(discriminate) ltac:(discriminate)) as (t & Ht & _).
  exists (S (S (Nat.max n1 n2))). intros fuel Hfuel.
  destruct fuel as [|[|f]]; try lia.
  cbn [finishCall]. unfold bind at 1.
  rewrite (check_on pos k _ _ Hk), (expression_start_not_closing k Hs).
  unfold bind at 1. cbn [arguments_loop]. unfold bind at 1.
  rewrite (H1 f ltac:(lia)). rewrite (H2 f ltac:(lia)).
  unfold bind at 1. rewrite Ht. rewrite length_app.
  replace (pos + (List.length ts + List.length more) + 1)
    with (S (pos + List.length ts + List.length more)) by lia.
  reflexivity.
Qed.

Lemma parses_last_argument : parses_more_arguments tokens [] [].
Proof.
  intros pos args [Hk _]. exists 0. intros fuel _. token_step Hk.
  rewrite app_nil_r. cbn [List.length]. rewrite Nat.add_0_r. reflexivity.
Qed.

Lemma parses_next_argument ts e more rest :
  expr_at 0 ts e -> more_args_at more rest ->
  parses tokens 0 ts e -> parses_more_arguments tokens more rest ->
  parses_more_arguments tokens (delimiter_token "COMMA" :: ts ++ more) (e :: rest).
Proof.
  intros Hder Hmore IH IHmore pos args [Hk Hreads].
  rewrite <- app_assoc in Hreads. apply reads_app in Hreads as [Hts Hrest].
  destruct (more_args_next _ _ Hmore) as (next & tail' & Enext & Hstops).
  assert (Hnext : kind_at tokens (S pos + List.length ts) next).
  { rewrite Enext in Hrest. apply (reads_head _ _ _ Hrest). }
  destruct (IH (S pos) next Hts Hnext) as (A & _ & _).
  destruct (expression_from_level _ _ (A Hstops)) as [n1 H1].
  destruct (IHmore (S pos + List.length ts) (args ++ [e]) Hrest) as [n2 H2].
  exists (S (Nat.max n1 n2)). intros fuel Hfuel.
  destruct fuel as [|f]; [lia|].
  token_step Hk. cbn [arguments_loop]. unfold bind at 1.
  rewrite (H1 f ltac:(lia)). rewrite (H2 f ltac:(lia)). cbn [List.length]. rewrite length_app, <- app_assoc.
  replace (pos + S (List.length ts + List.length more))
    with (S pos + List.length ts + List.length more) by lia.
  reflexivity.
Qed.

(** The parser follows the grammar of expressions. *)
Lemma grammar_parses :
  (forall level ts e, expr_at level ts e -> parses tokens level ts e)
  /\ (forall tas args, args_at tas args -> parses_arguments tokens tas args)
  /\ (forall more rest, more_args_at more rest -> parses_more_arguments tokens more rest).
Proof.
  apply grammar_induction.
  - exact parses_tighter.
  - intros; apply parses_binary; assumption.
  - intros; apply parses_unary; assumption.
  - intros; apply parses_call; assumption.
  - exact parses_number.
  - exact parses_string.
  - exact parses_identifier.
  - intros; apply parses_parenthesized; assumption.
  - exact parses_no_argument.
  - intros; apply parses_first_argument; assumption.
  - exact parses_last_argument.
  - intros; apply parses_next_argument; assumption.
Qed.

(** [expression] on an expression of the grammar that is followed by a
    token that goes on no expression. *)
Lemma expression_parses ts e pos next :
  expr_at 0 ts e -> reads tokens pos ts ->
  kind_at tokens (pos + List.length ts) next -> stops 0 next = true ->
  finishes (fun fuel => expression tokens fuel) pos (Ok e (pos + List.length ts)).
Proof.
  intros Hder Hreads Hnext Hstops. apply expression_from_level.
  destruct grammar_parses as (H & _ & _).
  destruct (H 0 ts e Hder pos next Hreads Hnext) as (A & _ & _). auto.
Qed.

(** *** The rules of the grammar of statements *)

Lemma starts_statement_cases k :
  starts_statement k = true ->
  In k [keyword_token "MOLD"; keyword_token "ROTT"; keyword_token "SPIN"; keyword_token "IFROT"; keyword_token "FNROT"]
  \/ starts_expression k = true.
Proof.
  unfold starts_statement. intros H. apply orb_true_iff in H as [H|H]; [left|right; exact H].
  apply existsb_exists in H as (x & Hin & Hx). apply kind_eqb_eq in Hx. subst x. exact Hin.
Qed.

Lemma statement_start_plain k :
  starts_statement k = true ->
  accepts_kind DELIMITER (Some "RBRACE") k = false
  /\ TokenType_eqb (fst k) EOF = false
  /\ kind_eqb k (keyword_token "ELSED") = false.
Proof.
  intros H. destruct (starts_statement_cases k H) as [Hin|Hs].
  - cbn in Hin. repeat (destruct Hin as [<-|Hin]; [repeat split|]). destruct Hin.
  - destruct k as [ty v].
    destruct (starts_expression_cases _ Hs) as [E|[E|[E|E]]]; cbn [fst] in E;
      try (subst ty; repeat split).
    cbn in E. repeat (destruct E as [E|E]; [injection E as <- <-; repeat split|]).
    destruct E.
Qed.

Lemma expression_start_no_keyword k name :
  starts_expression k = true -> name <> "NOTROT" ->
  accepts_kind KEYWORD (Some name) k = false.
Proof.
  intros Hs Hname. destruct k as [ty v].
  destruct (starts_expression_cases _ Hs) as [E|[E|[E|E]]]; cbn [fst] in E;
    try (subst ty; reflexivity).
  cbn in E. destruct E as [E|[E|[E|[E|[]]]]]; injection E as <- <-; try reflexivity.
  unfold accepts_kind. cbn [fst snd TokenType_eqb negb andb].
  apply String.eqb_neq. congruence.
Qed.

Lemma stmt_first ts s :
  stmt_at ts s -> exists k rest, ts = k :: rest /\ starts_statement k = true.
Proof.
  intros H. destruct H; try (eexists _, _; split; reflexivity).
  destruct (expr_first _ _ _ H) as (k & rest & -> & Hs & _).
  eexists k, _. split; [reflexivity|]. unfold starts_statement. rewrite Hs.
  apply orb_true_r.
Qed.

Lemma block_next tb rest closer :
  block_at tb rest -> closer = delimiter_token "RBRACE" \/ fst closer = EOF ->
  exists next tail,
    tb ++ [closer] = next :: tail /\ kind_eqb next (keyword_token "ELSED") = false.
Proof.
  intros H Hc. destruct H as [|ts s tb rest Hs Hb].
  - exists closer, []. split; [reflexivity|]. destruct Hc as [->|Hc]; [reflexivity|].
    destruct closer as [ty v]. cbn in Hc. subst ty. reflexivity.
  - destruct (stmt_first _ _ Hs) as (k & tail & -> & Hk).
    eexists k, _. split; [reflexivity|]. apply (statement_start_plain k Hk).
Qed.

Lemma consume_then {A : Type} pos ty v message (k : Parser A) :
  kind_at tokens pos (ty, v) -> ty <> EOF -> v <> "" ->
  bind (consume tokens ty v message) (fun _ => k) pos = k (S pos).
Proof.
  intros Hk Hty Hv. destruct (consume_on pos ty v message Hk Hty Hv) as (t & Ht & _).
  unfold bind. rewrite Ht. reflexivity.
Qed.

Lemma consume_name pos name :
  kind_at tokens pos (IDENTIFIER, name) ->
  exists t,
    value t = name
    /\ forall (A : Type) message (k : option Token -> Parser A),
         bind (consume tokens IDENTIFIER "" message) k pos = k (Some t) (S pos).
Proof.
  intros (t & Et & Hk). exists t. injection Hk as Htype Hvalue. split; [exact Hvalue|].
  intros A message k. unfold bind.
  rewrite (ParserTermination.consume_eq tokens IDENTIFIER "" message pos ltac:(discriminate)),
    Et.
  cbn [String.eqb]. rewrite Htype. reflexivity.
Qed.

Ltac consume_step Hk := rewrite (consume_then _ _ _ _ _ Hk) by discriminate.

Ltac expression_step H := unfold bind at 1; rewrite H by lia.

Ltac finish_run :=
  cbn [app]; repeat first [rewrite length_app | progress cbn [List.length]];
  f_equal; lia.

Lemma parameters_loop_on ps :
  forall pos acc next,
    ps <> [] -> reads tokens pos (parameters_tokens ps) ->
    kind_at tokens (pos + List.length (parameters_tokens ps)) next ->
    accepts_kind DELIMITER (Some "COMMA") next = false ->
    finishes (fun fuel => parameters_loop tokens fuel acc) pos
      (Ok (acc ++ ps) (pos + List.length (parameters_tokens ps))).
Proof.
  induction ps as [|a ps IH]; intros pos acc next Hne Hreads Hnext Hcomma; [congruence|].
  destruct ps as [|b ps'].
  - cbn [parameters_tokens List.length] in *. destruct Hreads as [Hk _].
    replace (pos + 1) with (S pos) in * by lia.
    destruct (consume_name pos a Hk) as (t & Hval & Hcons).
    exists 1. intros fuel Hfuel. destruct fuel as [|f]; [lia|].
    cbn [parameters_loop]. rewrite Hcons. cbn [value_of]. unfold bind at 1, ret at 1.
    unfold bind at 1. rewrite (match_on _ _ _ _ Hnext), Hcomma, Hval. reflexivity.
  - change (parameters_tokens (a :: b :: ps'))
      with ((IDENTIFIER, a) :: delimiter_token "COMMA" :: parameters_tokens (b :: ps')) in *.
    destruct Hreads as [Hk [Hc Hreads]]. cbn [List.length] in *.
    replace (pos + S (S (List.length (parameters_tokens (b :: ps')))))
      with (S (S pos) + List.length (parameters_tokens (b :: ps'))) in * by lia.
    destruct (consume_name pos a Hk) as (t & Hval & Hcons).
    destruct (IH (S (S pos)) (acc ++ [a]) next ltac:(discriminate) Hreads Hnext Hcomma)
      as [n Hn].
    exists (S n). intros fuel Hfuel. destruct fuel as [|f]; [lia|].
    cbn [parameters_loop]. rewrite Hcons. cbn [value_of]. unfold bind at 1, ret at 1.
    token_step Hc. rewrite Hval, (Hn f) by lia. rewrite <- app_assoc. reflexivity.
Qed.

Lemma parameters_on ps pos :
  reads tokens pos (parameters_tokens ps) ->
  kind_at tokens (pos + List.length (parameters_tokens ps)) (delimiter_token "RPAREN") ->
  finishes
    (fun fuel =>
       bind (check tokens DELIMITER (Some "RPAREN"))
         (fun empty => if empty then ret [] else parameters_loop tokens fuel []))
    pos (Ok ps (pos + List.length (parameters_tokens ps))).
Proof.
  intros Hreads Hclose. destruct ps as [|a ps].
  - cbn [parameters_tokens List.length] in *. rewrite Nat.add_0_r in *.
    exists 0. intros fuel _. token_step Hclose. reflexivity.
  - destruct (parameters_loop_on (a :: ps) pos [] _ ltac:(discriminate) Hreads Hclose eq_refl)
      as [n Hn].
    assert (Hk : kind_at tokens pos (IDENTIFIER, a)).
    { destruct ps; apply (reads_head _ _ _ Hreads). }
    exists n. intros fuel Hfuel. token_step Hk. apply Hn. exact Hfuel.
Qed.

Lemma parses_declaration name ts e :
  expr_at 0 ts e ->
  parses_statement tokens
    (keyword_token "MOLD" :: (IDENTIFIER, name) :: operator_token "ASSIGN"
     :: ts ++ [delimiter_token "SEMICOLON"])
    (VariableDeclaration name e).
Proof.
  intros Hder pos next [K1 [K2 [K3 Hreads]]] _ _.
  apply reads_end in Hreads as [Hts Hsemi].
  destruct (expression_parses ts e _ _ Hder Hts Hsemi eq_refl) as [n Hn].
  destruct (consume_name _ name K2) as (t & Hval & Hcons).
  exists (S (S n)). intros fuel Hfuel. destruct fuel as [|[|f]]; try lia.
  cbn [statement]. token_step K1. cbn [variableDeclaration].
  rewrite Hcons. consume_step K3. expression_step Hn. consume_step Hsemi.
  cbn [value_of]. unfold bind, ret. rewrite Hval. finish_run.
Qed.

Lemma parses_print ts e :
  expr_at 0 ts e ->
  parses_statement tokens (keyword_token "ROTT" :: ts ++ [delimiter_token "SEMICOLON"])
    (PrintStatement e).
Proof.
  intros Hder pos next [K1 Hreads] _ _.
  apply reads_end in Hreads as [Hts Hsemi].
  destruct (expression_parses ts e _ _ Hder Hts Hsemi eq_refl) as [n Hn].
  exists (S (S n)). intros fuel Hfuel. destruct fuel as [|[|f]]; try lia.
  cbn [statement]. do 2 token_step K1. cbn [printStatement].
  expression_step Hn. consume_step Hsemi. unfold ret. finish_run.
Qed.

Lemma parses_expression_statement ts e :
  expr_at 0 ts e ->
  parses_statement tokens (ts ++ [delimiter_token "SEMICOLON"]) e.
Proof.
  intros Hder pos next Hreads _ _.
  apply reads_end in Hreads as [Hts Hsemi].
  destruct (expression_parses ts e _ _ Hder Hts Hsemi eq_refl) as [n Hn].
  destruct (expr_first _ _ _ Hder) as (k & rest & Ek & Hs & _).
  assert (Hk : kind_at tokens pos k) by (subst ts; apply (reads_head _ _ _ Hts)).
  exists (S n). intros fuel Hfuel. destruct fuel as [|f]; [lia|].
  cbn [statement].
  do 5 (unfold bind at 1;
        rewrite (match_on _ _ _ _ Hk);
        rewrite expression_start_no_keyword by (exact Hs || discriminate)).
  expression_step Hn. consume_step Hsemi. unfold ret. finish_run.
Qed.

Lemma parses_while tc c tb body :
  expr_at 0 tc c -> parses_block tokens tb body ->
  parses_statement tokens
    (keyword_token "SPIN" :: tc ++ delimiter_token "LBRACE" :: tb ++ [delimiter_token "RBRACE"])
    (WhileLoop c body).
Proof.
  intros Hder IH pos next [K1 Hreads] _ _.
  apply reads_app in Hreads as [Htc [Kopen Hreads]].
  apply reads_end in Hreads as [Htb Kclose].
  destruct (expression_parses tc c _ _ Hder Htc Kopen eq_refl) as [n1 H1].
  destruct (IH _ _ Htb Kclose) as [Hblock _].
  destruct (Hblock eq_refl []) as [n2 H2].
  exists (S (S (Nat.max n1 n2))). intros fuel Hfuel. destruct fuel as [|[|f]]; try lia.
  cbn [statement]. do 3 token_step K1. cbn [whileLoop].
  expression_step H1. consume_step Kopen. expression_step H2. consume_step Kclose.
  unfold ret. finish_run.
Qed.

Lemma parses_if tc c tb body :
  expr_at 0 tc c -> parses_block tokens tb body ->
  parses_statement tokens
    (keyword_token "IFROT" :: tc ++ delimiter_token "LBRACE" :: tb ++ [delimiter_token "RBRACE"])
    (IfStatement c body None).
Proof.
  intros Hder IH pos next [K1 Hreads] Hnext Helse.
  apply reads_app in Hreads as [Htc [Kopen Hreads]].
  apply reads_end in Hreads as [Htb Kclose].
  destruct (expression_parses tc c _ _ Hder Htc Kopen eq_refl) as [n1 H1].
  destruct (IH _ _ Htb Kclose) as [Hblock _].
  destruct (Hblock eq_refl []) as [n2 H2].
  assert (Hnext' : kind_at tokens (S (S (S pos + List.length tc) + List.length tb)) next).
  { revert Hnext. cbn [List.length]. rewrite !length_app. cbn [List.length].
    rewrite length_app. cbn [List.length].
    match goal with |- kind_at _ ?a _ -> kind_at _ ?b _ => replace a with b by lia end.
    auto. }
  exists (S (S (Nat.max n1 n2))). intros fuel Hfuel. destruct fuel as [|[|f]]; try lia.
  cbn [statement]. do 4 token_step K1. cbn [ifStatement].
  expression_step H1. consume_step Kopen. expression_step H2. consume_step Kclose.
  unfold bind at 1.
  rewrite (match_kind _ _ KEYWORD "ELSED" Hnext' ltac:(discriminate)).
  unfold keyword_token in Helse. rewrite Helse. unfold ret. finish_run.
Qed.

Lemma parses_if_else tc c tb body te elseBody :
  expr_at 0 tc c -> parses_block tokens tb body -> parses_block tokens te elseBody ->
  parses_statement tokens
    (keyword_token "IFROT" :: tc ++ delimiter_token "LBRACE" :: tb
     ++ delimiter_token "RBRACE" :: keyword_token "ELSED" :: delimiter_token "LBRACE"
     :: te ++ [delimiter_token "RBRACE"])
    (IfStatement c body (Some elseBody)).
Proof.
  intros Hder IH IHelse pos next [K1 Hreads] _ _.
  apply reads_app in Hreads as [Htc [Kopen Hreads]].
  apply reads_app in Hreads as [Htb [Kclose [Kelse [Kopen' Hreads]]]].
  apply reads_end in Hreads as [Hte Kclose'].
  destruct (expression_parses tc c _ _ Hder Htc Kopen eq_refl) as [n1 H1].
  destruct (IH _ _ Htb Kclose) as [Hblock _].
  destruct (Hblock eq_refl []) as [n2 H2].
  destruct (IHelse _ _ Hte Kclose') as [Hblock' _].
  destruct (Hblock' eq_refl []) as [n3 H3].
  exists (S (S (Nat.max n1 (Nat.max n2 n3)))). intros fuel Hfuel.
  destruct fuel as [|[|f]]; try lia.
  cbn [statement]. do 4 token_step K1. cbn [ifStatement].
  expression_step H1. consume_step Kopen. expression_step H2. consume_step Kclose.
  token_step Kelse. consume_step Kopen'. expression_step H3. consume_step Kclose'.
  unfold ret. finish_run.
Qed.

Lemma parses_function name parameters tb body :
  parses_block tokens tb body ->
  parses_statement tokens
    (keyword_token "FNROT" :: (IDENTIFIER, name) :: delimiter_token "LPAREN"
     :: parameters_tokens parameters
     ++ delimiter_token "RPAREN" :: delimiter_token "LBRACE" :: tb ++ [delimiter_token "RBRACE"])
    (FunctionDeclaration name parameters body).
Proof.
  intros IH pos next [K1 [K2 [K3 Hreads]]] _ _.
  apply reads_app in Hreads as [Hps [Kclose [Kopen Hreads]]].
  apply reads_end in Hreads as [Htb Kend].
  destruct (consume_name _ name K2) as (t & Hval & Hcons).
  destruct (parameters_on parameters _ Hps Kclose) as [n1 H1].
  destruct (IH _ _ Htb Kend) as [Hblock _].
  destruct (Hblock eq_refl []) as [n2 H2].
  exists (S (S (Nat.max n1 n2))). intros fuel Hfuel. destruct fuel as [|[|f]]; try lia.
  cbn [statement]. do 5 token_step K1. cbn [functionDeclaration].
  rewrite Hcons. consume_step K3.
  rewrite bind_assoc_on. unfold bind at 1. rewrite H1 by lia.
  consume_step Kclose. consume_step Kopen. expression_step H2. consume_step Kend.
  cbn [value_of]. unfold bind, ret. rewrite Hval. finish_run.
Qed.

Lemma parses_no_statement : parses_block tokens [] [].
Proof.
  intros pos closer _ Hk. cbn [List.length] in *. rewrite Nat.add_0_r in *. split.
  - intros -> acc. exists 1. intros fuel Hfuel. destruct fuel as [|f]; [lia|].
    cbn [block]. token_step Hk. unfold bind, ret. rewrite app_nil_r. reflexivity.
  - intros Hend acc. exists 1. intros fuel Hfuel. destruct fuel as [|f]; [lia|].
    cbn [parse_loop]. unfold bind at 1. rewrite (isAtEnd_on _ _ Hk), Hend.
    unfold ret. rewrite app_nil_r. reflexivity.
Qed.

Lemma parses_first_statement ts s tb rest :
  stmt_at ts s -> block_at tb rest ->
  parses_statement tokens ts s -> parses_block tokens tb rest ->
  parses_block tokens (ts ++ tb) (s :: rest).
Proof.
  intros Hs Hb IHs IHb pos closer Hreads Hclose.
  apply reads_app in Hreads as [Hts Htb]. rewrite length_app in *.
  replace (pos + (List.length ts + List.length tb))
    with (pos + List.length ts + List.length tb) in * by lia.
  destruct (IHb _ _ Htb Hclose) as [Hblock Hloop].
  destruct (stmt_first _ _ Hs) as (k & tail & Ek & Hk).
  destruct (statement_start_plain k Hk) as (Hbrace & Hend & _).
  assert (Kfirst : kind_at tokens pos k) by (subst ts; apply (reads_head _ _ _ Hts)).
  assert (Hstatement : closer = delimiter_token "RBRACE" \/ fst closer = EOF ->
                       finishes (statement tokens) pos (Ok s (pos + List.length ts))).
  { intros Hc. destruct (block_next tb rest closer Hb Hc) as (next & tail' & Enext & Helse).
    apply (IHs pos next Hts); [|exact Helse].
    assert (Hall : reads tokens (pos + List.length ts) (tb ++ [closer])).
    { apply reads_app. split; [exact Htb|]. split; [exact Hclose|exact I]. }
    rewrite Enext in Hall. apply (reads_head _ _ _ Hall). }
  split.
  - intros Hc acc. destruct (Hstatement (or_introl Hc)) as [n1 H1].
    destruct (Hblock Hc (acc ++ [s])) as [n2 H2].
    exists (S (Nat.max n1 n2)). intros fuel Hfuel. destruct fuel as [|f]; [lia|].
    cbn [block]. unfold bind at 1. rewrite (check_on _ _ _ _ Kfirst), Hbrace.
    unfold bind at 1. rewrite (isAtEnd_on _ _ Kfirst), Hend.
    expression_step H1. rewrite H2 by lia. rewrite <- app_assoc. reflexivity.
  - intros Hc acc. destruct (Hstatement (or_intror Hc)) as [n1 H1].
    destruct (Hloop Hc (acc ++ [s])) as [n2 H2].
    exists (S (Nat.max n1 n2)). intros fuel Hfuel. destruct fuel as [|f]; [lia|].
    cbn [parse_loop]. unfold bind at 1. rewrite (isAtEnd_on _ _ Kfirst), Hend.
    rewrite H1 by lia. rewrite H2 by lia. rewrite <- app_assoc. reflexivity.
Qed.

(** The parser follows the grammar of statements. *)
Lemma statements_parse :
  (forall ts s, stmt_at ts s -> parses_statement tokens ts s)
  /\ (forall ts body, block_at ts body -> parses_block tokens ts body).
Proof.
  apply statements_induction.
  - intros; apply parses_declaration; assumption.
  - intros; apply parses_print; assumption.
  - intros; apply parses_while; assumption.
  - intros; apply parses_if; assumption.
  - intros; apply parses_if_else; assumption.
  - intros; apply parses_function; assumption.
  - intros; apply parses_expression_statement; assumption.
  - exact parses_no_statement.
  - intros; apply parses_first_statement; assumption.
Qed.

End Tokens.

Lemma reads_self pre body post :
  reads (pre ++ body ++ post) (List.length pre) (map kind_of body).
Proof.
  revert pre. induction body as [|t body IH]; intros pre; [exact I|].
  cbn [map reads]. split.
  - exists t. split; [|reflexivity].
    rewrite nth_error_app2 by lia. rewrite Nat.sub_diag. reflexivity.
  - specialize (IH (pre ++ [t])). rewrite <- app_assoc, length_app in IH.
    cbn [List.length app] in IH. replace (List.length pre + 1) with (S (List.length pre)) in IH
      by lia.
    exact IH.
Qed.

Lemma expr_at_looser level level' ts e :
  level <= level' -> level' <= 8 -> expr_at level' ts e -> expr_at level ts e.
Proof.
  intros Hle H8 H. induction Hle as [|m Hle IH]; [exact H|].
  apply IH; [lia|]. apply at_tighter; [lia|exact H].
Qed.

(** Every token of a phrase of the grammar is a token before the end
    token. *)
Lemma operator_plain level op : is_operator_at level op = true -> fst op <> EOF.
Proof.
  intros H. apply is_operator_at_cases in H as [Hle Hin].
  destruct level as [|[|[|[|[|[|level]]]]]]; try lia; cbn in Hin;
    repeat (destruct Hin as [<-|Hin]; [discriminate|]); destruct Hin.
Qed.

Lemma unary_operator_plain op : is_unary_operator op = true -> fst op <> EOF.
Proof.
  unfold is_unary_operator. intros H. apply existsb_exists in H as (x & Hin & Hx).
  apply kind_eqb_eq in Hx. subst x. cbn in Hin.
  repeat (destruct Hin as [<-|Hin]; [discriminate|]). destruct Hin.
Qed.

Ltac plain_tokens :=
  repeat first
    [ assumption
    | apply List.Forall_nil
    | apply List.Forall_cons; [first [discriminate | assumption]|]
    | apply List.Forall_app; split ].

Lemma expression_tokens_plain :
  (forall level ts e,
      expr_at level ts e -> List.Forall (fun k : TokenKind => fst k <> EOF) ts)
  /\ (forall tas args,
         args_at tas args -> List.Forall (fun k : TokenKind => fst k <> EOF) tas)
  /\ (forall more rest,
         more_args_at more rest -> List.Forall (fun k : TokenKind => fst k <> EOF) more).
Proof.
  apply grammar_induction; intros;
    try match goal with
        | H : is_operator_at _ _ = true |- _ => apply operator_plain in H
        | H : is_unary_operator _ = true |- _ => apply unary_operator_plain in H
        end;
    plain_tokens.
Qed.

Lemma parameters_tokens_plain parameters :
  List.Forall (fun k : TokenKind => fst k <> EOF) (parameters_tokens parameters).
Proof.
  induction parameters as [|p ps IH]; [constructor|].
  destruct ps as [|q ps]; [plain_tokens|].
  change (parameters_tokens (p :: q :: ps))
    with ((IDENTIFIER, p) :: delimiter_token "COMMA" :: parameters_tokens (q :: ps)).
  plain_tokens.
Qed.

Lemma statement_tokens_plain :
  (forall ts s, stmt_at ts s -> List.Forall (fun k : TokenKind => fst k <> EOF) ts)
  /\ (forall ts body,
         block_at ts body -> List.Forall (fun k : TokenKind => fst k <> EOF) ts).
Proof.
  apply statements_induction; intros;
    repeat match goal with
           | H : expr_at _ _ _ |- _ => apply (proj1 expression_tokens_plain) in H
           end;
    try (pose proof (parameters_tokens_plain parameters));
    plain_tokens.
Qed.

Lemma program_well_formed body eof program :
  block_at (map kind_of body) program -> type eof = EOF ->
  well_formed (body ++ [eof]) (List.length body).
Proof.
  intros Hder Hend. split.
  - exists eof. split; [|exact Hend].
    rewrite nth_error_app2 by lia. rewrite Nat.sub_diag. reflexivity.
  - intros i Hi. apply (proj2 statement_tokens_plain) in Hder.
    destruct (nth_error body i) as [t|] eqn:E.
    + exists t. split; [rewrite nth_error_app1 by exact Hi; exact E|].
      rewrite List.Forall_forall in Hder.
      apply (Hder (kind_of t)). apply in_map. eapply nth_error_In. exact E.
    + apply nth_error_None in E. lia.
Qed.

(** [parse] on a program of the grammar, with enough fuel. *)
Lemma program_parses body eof program :
  block_at (map kind_of body) program -> type eof = EOF ->
  exists n, forall fuel,
    n <= fuel ->
    BrainRotParser.parse (body ++ [eof]) fuel
    = BrainRotParser.Ok program (List.length body).
Proof.
  intros Hder Hend.
  destruct (statements_parse (body ++ [eof])) as [_ Hblock].
  pose proof (reads_self [] body [eof]) as Hreads. cbn [app List.length] in Hreads.
  assert (Hlast : kind_at (body ++ [eof]) (0 + List.length (map kind_of body)) (kind_of eof)).
  { exists eof. split; [|reflexivity]. rewrite length_map.
    rewrite nth_error_app2 by lia. cbn [Nat.add]. rewrite Nat.sub_diag. reflexivity. }
  destruct (Hblock _ _ Hder 0 (kind_of eof) Hreads Hlast) as [_ Hloop].
  destruct (Hloop Hend []) as [n Hn]. exists n. intros fuel Hfuel.
  unfold BrainRotParser.parse. rewrite (Hn fuel Hfuel). rewrite length_map. reflexivity.
Qed.

End GrammarFacts.

Lemma count_down_derivation : block_at (map kind_of count_down_body) count_down_tree.
Proof.
  pose (x := at_identifier "x").
  apply (first_statement
           [keyword_token "SPIN"; (IDENTIFIER, "x"); operator_token "GT"; (NUMBER, "0");
            delimiter_token "LBRACE"; keyword_token "MOLD"; (IDENTIFIER, "x"); operator_token "ASSIGN";
            (IDENTIFIER, "x"); operator_token "MINUS"; (NUMBER, "1"); delimiter_token "SEMICOLON";
            delimiter_token "RBRACE"] _ [] []); [|constructor].
  apply (at_while [(IDENTIFIER, "x"); operator_token "GT"; (NUMBER, "0")] _
           [keyword_token "MOLD"; (IDENTIFIER, "x"); operator_token "ASSIGN";
            (IDENTIFIER, "x"); operator_token "MINUS"; (NUMBER, "1"); delimiter_token "SEMICOLON"]).
  - apply (GrammarFacts.expr_at_looser 0 3); [lia|lia|].
    apply (at_binary 3 (operator_token "GT") [(IDENTIFIER, "x")] _ [(NUMBER, "0")]);
      [reflexivity| |].
    + apply (GrammarFacts.expr_at_looser 3 8); [lia|lia|exact x].
    + apply (GrammarFacts.expr_at_looser 4 8); [lia|lia|exact (at_number "0")].
  - apply (first_statement
             [keyword_token "MOLD"; (IDENTIFIER, "x"); operator_token "ASSIGN";
              (IDENTIFIER, "x"); operator_token "MINUS"; (NUMBER, "1"); delimiter_token "SEMICOLON"]
             _ [] []); [|constructor].
    apply (at_declaration "x" [(IDENTIFIER, "x"); operator_token "MINUS"; (NUMBER, "1")]).
    apply (GrammarFacts.expr_at_looser 0 4); [lia|lia|].
    apply (at_binary 4 (operator_token "MINUS") [(IDENTIFIER, "x")] _ [(NUMBER, "1")]);
      [reflexivity| |].
    + apply (GrammarFacts.expr_at_looser 4 8); [lia|lia|exact x].
    + apply (GrammarFacts.expr_at_looser 5 8); [lia|lia|exact (at_number "1")].
Qed.

(** ** The evaluator *)

Import OutputFacts FrameFacts LoopFacts.

(** X1. Executing a node never removes or rewrites a line that was already
    printed: whether the run returns or throws, the output it ends with is
    the output it started from, with the lines it printed after it. *)
Theorem printed_lines_are_kept node st out st' :
  executes node st out -> final_state out = Some st' -> output_extends st st'.
Proof.
  intros (fuel & H & _) Hfinal. subst out.
  exact (proj1 (execution_grows fuel) node st st' Hfinal).
Qed.

Lemma printed_lines_are_kept_witness :
  output_extends printed_a (BrainRotInterpreter.mkState ∅ ∅ ["a"; "a"]).
Proof.
  apply (printed_lines_are_kept prints_a printed_a
           (BrainRotInterpreter.Return (Host.VString "a")
              (BrainRotInterpreter.mkState ∅ ∅ ["a"; "a"]))).
  - exists 3. split; [vm_compute; reflexivity|discriminate].
  - reflexivity.
Defined.

(** X2. When the statements [before] run without an error and the next
    statement throws, [interpret] returns the RUNTIME error of that
    statement together with the lines printed up to the failure, those of
    [before] first; the statements [after] are never run, whatever they
    are. *)
Theorem a_failure_ends_the_run before failing after st0 v st1 message st2 :
  runs before Host.VUndefined (fresh_output st0) (BrainRotInterpreter.Return v st1) ->
  executes failing st1 (BrainRotInterpreter.Throw message st2) ->
  (exists n, forall fuel, n <= fuel ->
      BrainRotInterpreter.interpret fuel (before ++ failing :: after) st0
      = Normal (failed (BrainRotInterpreter.output st2) message))
  /\ output_extends st1 st2.
Proof.
  intros (n1 & H1 & _) (n2 & H2 & _). split.
  - exists (Nat.max n1 n2). intros fuel Hle.
    apply (run_statements_more_fuel n1 fuel) in H1; [|discriminate|lia].
    apply (execute_more_fuel n2 fuel) in H2; [|discriminate|lia].
    unfold BrainRotInterpreter.interpret.
    change (BrainRotInterpreter.mkState (BrainRotInterpreter.variables st0)
              (BrainRotInterpreter.functions st0) []) with (fresh_output st0).
    rewrite run_statements_split. unfold BrainRotInterpreter.bind at 1. rewrite H1.
    cbn [BrainRotInterpreter.run_statements]. unfold BrainRotInterpreter.bind at 1.
    rewrite H2. reflexivity.
  - apply (proj1 (execution_grows n2) failing st1 st2). rewrite H2. reflexivity.
Qed.

Lemma a_failure_ends_the_run_witness :
  (exists n, forall fuel, n <= fuel ->
      BrainRotInterpreter.interpret fuel ([prints_a] ++ reads_y :: [prints_a])
        BrainRotInterpreter.initial
      = Normal (failed ["a"] "Undefined variable: y"))
  /\ output_extends printed_a printed_a.
Proof.
  apply (a_failure_ends_the_run [prints_a] reads_y [prints_a] BrainRotInterpreter.initial
           (Host.VString "a") printed_a "Undefined variable: y" printed_a).
  - exists 3. split; [vm_compute; reflexivity|discriminate].
  - exists 3. split; [vm_compute; reflexivity|discriminate].
Defined.

(** X3. Evaluating an expression that returns leaves the variables as they
    were, whatever the expression: a literal, a variable, a binary
    expression or a call, with calls nested in it. Only the statements of
    the running body change variables. *)
Theorem evaluation_keeps_the_variables expr st v st' :
  evaluates expr st (BrainRotInterpreter.Return v st') ->
  BrainRotInterpreter.variables st' = BrainRotInterpreter.variables st.
Proof. intros (fuel & H & _). exact (evaluate_frames fuel expr st v st' H). Qed.

Lemma evaluation_keeps_the_variables_witness :
  BrainRotInterpreter.variables (pair_called "5" "6")
  = BrainRotInterpreter.variables pair_declared.
Proof.
  apply (evaluation_keeps_the_variables
           (BinaryExpression "PLUS"
              (CallExpression (Some "pair")
                 [Literal (Host.VNumber 5); Literal (Host.VNumber 6)])
              (Identifier "a"))
           pair_declared (Host.VNumber 7) (pair_called "5" "6")).
  exists 6. split; [vm_compute; reflexivity|discriminate].
Defined.

(** X4. A call evaluates as many arguments as the function has parameters:
    the arguments after them are never evaluated, so the call behaves as
    the call without them, in its result, its effects and its errors. *)
Theorem surplus_arguments_are_not_evaluated fuel name parameters body arguments surplus st :
  BrainRotInterpreter.functions_get name st = Some (parameters, body) ->
  List.length parameters <= List.length arguments ->
  BrainRotInterpreter.evaluate fuel (CallExpression name (arguments ++ surplus)) st
  = BrainRotInterpreter.evaluate fuel (CallExpression name arguments) st.
Proof.
  intros Hget Hle. destruct fuel as [|fuel]; [reflexivity|].
  cbn [BrainRotInterpreter.evaluate]. rewrite Hget.
  unfold BrainRotInterpreter.bind at 1 5. cbn [BrainRotInterpreter.get_variables].
  unfold BrainRotInterpreter.bind at 1 4.
  rewrite bind_parameters_surplus by exact Hle. reflexivity.
Qed.

Lemma surplus_arguments_are_not_evaluated_witness :
  BrainRotInterpreter.evaluate 6
    (CallExpression (Some "pair")
       ([Literal (Host.VNumber 5); Literal (Host.VNumber 6)] ++ [Identifier "nowhere"]))
    pair_declared
  = BrainRotInterpreter.evaluate 6
      (CallExpression (Some "pair") [Literal (Host.VNumber 5); Literal (Host.VNumber 6)])
      pair_declared.
Proof.
  apply (surplus_arguments_are_not_evaluated 6 (Some "pair") ["a"; "b"]
           [PrintStatement (Identifier "a"); PrintStatement (Identifier "b")]).
  - vm_compute. reflexivity.
  - simpl. lia.
Defined.

(** X5. A parameter that has no argument is bound to [undefined]: a call
    with fewer arguments than parameters has the outcomes of the call in
    which each missing argument is written as the literal [undefined]. *)
Theorem missing_arguments_are_undefined name parameters body arguments st out :
  BrainRotInterpreter.functions_get name st = Some (parameters, body) ->
  List.length arguments <= List.length parameters ->
  evaluates (CallExpression name arguments) st out
  <-> evaluates
        (CallExpression name
           (arguments
            ++ undefined_arguments (List.length parameters - List.length arguments)))
        st out.
Proof.
  intros Hget Hle. split; intros (fuel & H & Hne).
  - destruct fuel as [|fuel]; [now (exfalso; apply Hne; rewrite <- H)|].
    exists (S (S fuel)). split; [|exact Hne].
    symmetry. apply below_finished; [|exact Hne]. rewrite <- H.
    cbn [BrainRotInterpreter.evaluate]. rewrite Hget.
    apply bind_below; [apply below_refl|]. intros prevVars st1.
    apply bind_below; [apply (bind_parameters_missing fuel parameters arguments st1 Hle)|].
    intros [] st2. apply bind_below; [|intros; apply below_refl].
    apply run_statements_below. apply (fuel_below fuel (S fuel)). lia.
  - destruct fuel as [|fuel]; [now (exfalso; apply Hne; rewrite <- H)|].
    exists (S fuel). split; [|exact Hne].
    symmetry. apply below_finished; [|exact Hne]. rewrite <- H.
    cbn [BrainRotInterpreter.evaluate]. rewrite Hget.
    apply bind_below; [apply below_refl|]. intros prevVars st1.
    apply bind_below; [apply (bind_parameters_missing fuel parameters arguments st1 Hle)|].
    intros; apply below_refl.
Qed.

Lemma missing_arguments_are_undefined_witness :
  evaluates (CallExpression (Some "pair") [Literal (Host.VNumber 5)]) pair_declared
    (BrainRotInterpreter.Return Host.VUndefined (pair_called "5" "undefined"))
  <-> evaluates
        (CallExpression (Some "pair")
           ([Literal (Host.VNumber 5)] ++ undefined_arguments (2 - 1)))
        pair_declared
        (BrainRotInterpreter.Return Host.VUndefined (pair_called "5" "undefined")).
Proof.
  apply (missing_arguments_are_undefined (Some "pair") ["a"; "b"]
           [PrintStatement (Identifier "a"); PrintStatement (Identifier "b")]
           [Literal (Host.VNumber 5)] pair_declared).
  - vm_compute. reflexivity.
  - simpl. lia.
Defined.

(** X6. The arguments of a call are evaluated one at a time, each after
    the parameters before it have been bound in the live variables: an
    argument that is the name of an earlier parameter reads the value just
    bound to that parameter, not the caller's variable of that name. *)
Theorem arguments_are_bound_one_at_a_time p q e st v st1 :
  evaluates e st (BrainRotInterpreter.Return v st1) ->
  binds [p; q] [e; Identifier p] st
    (BrainRotInterpreter.Return tt
       (BrainRotInterpreter.mkState
          (<[q := v]> (<[p := v]> (BrainRotInterpreter.variables st1)))
          (BrainRotInterpreter.functions st1) (BrainRotInterpreter.output st1))).
Proof.
  intros (n & H & _). exists (S n). split; [|discriminate].
  apply (evaluate_more_fuel n (S n)) in H; [|discriminate|lia].
  cbn [BrainRotInterpreter.bind_parameters]. unfold BrainRotInterpreter.bind at 1.
  rewrite H. cbv [BrainRotInterpreter.bind BrainRotInterpreter.variables_set].
  cbn [BrainRotInterpreter.evaluate BrainRotInterpreter.variables].
  rewrite lookup_insert_eq. reflexivity.
Qed.

Lemma arguments_are_bound_one_at_a_time_witness :
  binds ["a"; "b"] [Literal (Host.VNumber 5); Identifier "a"] pair_declared
    (BrainRotInterpreter.Return tt
       (BrainRotInterpreter.mkState
          (<["b" := Host.VNumber 5]>
             (<["a" := Host.VNumber 5]> (BrainRotInterpreter.variables pair_declared)))
          (BrainRotInterpreter.functions pair_declared)
          (BrainRotInterpreter.output pair_declared))).
Proof.
  apply (arguments_are_bound_one_at_a_time "a" "b" (Literal (Host.VNumber 5))
           pair_declared (Host.VNumber 5) pair_declared).
  exists 1. split; [reflexivity|discriminate].
Defined.

(** X7. A while loop is its first unrolling: [spin c { body }] and
    [ifrot c { body spin c { body } }] have the same outcomes from every
    state, the same result, final state and error. *)
Theorem while_loop_unrolls condition body st out :
  executes (WhileLoop condition body) st out
  <-> executes (IfStatement condition (body ++ [WhileLoop condition body]) None) st out.
Proof.
  split; intros (fuel & H & Hne).
  - destruct fuel as [|[|fuel]]; [now (exfalso; apply Hne; rewrite <- H)..|].
    exists (S (S (S fuel))). split; [|exact Hne].
    symmetry. apply below_finished; [|exact Hne]. rewrite <- H.
    rewrite while_steps, unrolled_steps.
    destruct (fuel_below fuel (S (S fuel)) ltac:(lia)) as (Hx & He & _).
    apply bind_below; [apply He|]. intros v st1.
    destruct (BrainRotInterpreter.isTruthy v); [|apply below_refl].
    apply bind_below; [apply run_statements_below; exact Hx|]. intros _ st2.
    apply nested_loop_below. lia.
  - destruct fuel as [|fuel]; [now (exfalso; apply Hne; rewrite <- H)|].
    exists (S (S fuel)). split; [|exact Hne].
    symmetry. apply below_finished; [|exact Hne]. rewrite <- H.
    rewrite while_steps, unrolled_steps.
    apply bind_below; [apply below_refl|]. intros v st1.
    destruct (BrainRotInterpreter.isTruthy v); [|apply below_refl].
    apply bind_below; [apply below_refl|]. intros _ st2.
    destruct fuel as [|fuel]; [left; reflexivity|].
    apply loop_below_nested. lia.
Qed.

(** ** The parser and the errors of a run *)

(** X8. Whatever the token array, the statements [parse] returns are trees
    of the declared shapes: a statement holds expressions and statements
    where its interface has them, every binary expression carries one of
    the ten operators [evaluate] has a case for, every unary expression one
    of NOT, NOTROT and MINUS, and every literal is a number or a string. *)
Theorem parser_builds_statement_trees tokens fuel ast position :
  BrainRotParser.parse tokens fuel = BrainRotParser.Ok ast position ->
  forallb is_statement ast = true.
Proof. apply TreeFacts.parse_typed. Qed.

Lemma parser_builds_statement_trees_witness :
  forallb is_statement count_down_tree = true.
Proof.
  apply (parser_builds_statement_trees (tokens_of count_down_loop) 40 count_down_tree 13).
  vm_compute. reflexivity.
Defined.

(** X9. [executeBrainRot] never reports a SYNTAX error, never an unknown
    operator, and no unknown expression type other than UnaryExpression:
    the handler of the [try] of [executeBrainRot] is never reached, because
    [tokenize] does not throw and [parse] drops what fails, and the trees
    [parse] builds hold only operators and expressions [evaluate] has a
    case for, unary expressions apart. *)
Theorem syntax_and_operator_errors_are_never_reported code r e :
  returns code r -> ExecutionResult.error r = Some e ->
  BrainRotError.type e = BrainRotError.RUNTIME
  /\ (forall name,
        BrainRotError.message e <> "Brain rot detected: Unknown operator: " +:+ name)
  /\ (forall name,
        BrainRotError.message e = "Brain rot detected: Unknown expression type: " +:+ name ->
        name = "UnaryExpression").
Proof.
  intros Hr He.
  destruct (SoundFacts.reported_error code r e Hr He) as (message & -> & Hm).
  split; [reflexivity|].
  destruct Hm as [[x ->]|[[x ->]| ->]]; split; intros name H; cbv in H;
    try discriminate H.
  injection H as <-. reflexivity.
Qed.

Lemma syntax_and_operator_errors_are_never_reported_witness :
  BrainRotError.type (BrainRotInterpreter.runtime_error "Undefined variable: y")
  = BrainRotError.RUNTIME
  /\ (forall name,
        BrainRotError.message (BrainRotInterpreter.runtime_error "Undefined variable: y")
        <> "Brain rot detected: Unknown operator: " +:+ name)
  /\ (forall name,
        BrainRotError.message (BrainRotInterpreter.runtime_error "Undefined variable: y")
        = "Brain rot detected: Unknown expression type: " +:+ name ->
        name = "UnaryExpression").
Proof.
  apply (syntax_and_operator_errors_are_never_reported "rott y;"
           (failed [] "Undefined variable: y")).
  - apply (returns_with 50). vm_compute. reflexivity.
  - reflexivity.
Defined.

(** X10. On a token array whose one EOF token is its last token, at index
    [last], [parse] returns a list of statements when it is given fuel
    [32 * last + 17], and the same list with any more: no token sequence
    makes it throw, and none makes it loop. *)
Theorem parse_returns_on_every_token_array tokens last :
  well_formed tokens last ->
  exists ast position,
    forall fuel, fuel_per_token * last + 17 <= fuel ->
      BrainRotParser.parse tokens fuel = BrainRotParser.Ok ast position.
Proof.
  intros Hwf.
  destruct (ParserTermination.parse_finishes tokens last Hwf
              (fuel_per_token * last + 17) ltac:(lia)) as (ast & position & H).
  exists ast, position. intros fuel Hle.
  eapply ParserFacts.parse_more_fuel; [exact H|discriminate|exact Hle].
Qed.

Lemma parse_returns_on_every_token_array_witness :
  exists ast position,
    forall fuel, fuel_per_token * 2 + 17 <= fuel ->
      BrainRotParser.parse (tokens_of "mold x") fuel = BrainRotParser.Ok ast position.
Proof.
  apply (parse_returns_on_every_token_array (tokens_of "mold x") 2).
  split.
  - eexists. split; reflexivity.
  - intros i Hi. destruct i as [|[|i]]; [| |lia];
      (eexists; split; [reflexivity|discriminate]).
Defined.

(** ** The tokenizer *)

Import PositionFacts ShapeFacts LiteralFacts WordFacts InertFacts.

(** X11. Every token carries the line and the column of a character of the
    source, counted from 1, a newline ending a line: the tokens start at
    strictly increasing offsets, and the EOF token carries the place just
    after the last character. *)
Theorem tokens_carry_their_places code :
  exists offsets,
    Forall2 (placed (list_ascii_of_string code)) (tokens_of code) offsets
    /\ StronglySorted lt offsets
    /\ last offsets = Some (String.length code).
Proof.
  unfold tokens_of, BrainRotTokenizer.tokenize.
  set (input := list_ascii_of_string code).
  destruct (TokenizerFacts.tokenize_loop_total (S (List.length input))
              (BrainRotTokenizer.mkState input 1 1) [])
    as (more & st' & Heq & _ & Hend); [simpl; lia|].
  rewrite Heq. cbn [app] in *.
  assert (Hstart : located input (BrainRotTokenizer.mkState input 1 1)).
  { exists []. repeat split. }
  destruct (tokenize_loop_placed input _ _ _ _ _ [] Heq Hstart
              ltac:(constructor) ltac:(constructor) ltac:(constructor))
    as (Hloc & offsets & Hplaced & Hsorted & Hbelow).
  destruct (located_offset input st' Hloc) as [_ Hplace].
  exists (offsets ++ [offset_of input st']). split; [|split].
  - apply List.Forall2_app; [exact Hplaced|]. constructor; [|constructor].
    apply Hplace; reflexivity.
  - apply sorted_snoc; assumption.
  - rewrite last_snoc. f_equal. unfold offset_of. rewrite Hend. cbn [List.length].
    rewrite Nat.sub_0_r. subst input. clear.
    induction code as [|c s IH]; cbn; [reflexivity|]. f_equal. exact IH.
Qed.

(** X12. The value of every token fits its type: a keyword token holds one
    of the ten upper-case keyword names, an operator or delimiter token
    one of the names of its table, a number token a digit followed by
    digits with at most one dot among them, an identifier token a word
    that is no keyword in any letter case, and the EOF token the empty
    text. *)
Theorem tokens_are_well_shaped code : forallb token_shape (tokens_of code) = true.
Proof.
  unfold tokens_of, BrainRotTokenizer.tokenize.
  destruct (BrainRotTokenizer.tokenize_loop _ _ []) as [[tokens st]|] eqn:E; [|reflexivity].
  apply forallb_forall. apply List.Forall_forall. apply List.Forall_app. split.
  - eapply (tokenize_loop_forall (fun t => token_shape t = true)); [|exact E|constructor].
    apply nextToken_shape.
  - constructor; [reflexivity|constructor].
Qed.

(** X13. A string literal is read back as the text it was written from:
    the text with a backslash before each backslash and each quote, put
    between two double quotes or two single quotes, tokenizes to one STRING
    token whose value is that text. *)
Theorem string_literal_round_trip quote s :
  is_quote quote = true ->
  exists ln col,
    tokens_of (String quote (escaped quote s +:+ String quote ""))
    = [mkToken STRING s 1 1; mkToken EOF "" ln col].
Proof.
  intros Hq. destruct (tokenize_literal quote s (String quote "") Hq) as (ln & col & H);
    [auto|].
  exists ln, col. unfold tokens_of. rewrite H. reflexivity.
Qed.

Lemma string_literal_round_trip_witness :
  exists ln col,
    tokens_of "'it\'s a \\ path'"
    = [mkToken STRING "it's a \ path" 1 1; mkToken EOF "" ln col].
Proof. exact (string_literal_round_trip "'"%char "it's a \ path" eq_refl). Defined.

(** X14. A string literal without its closing quote is no error: it runs to
    the end of the source and is the STRING token of the text read. *)
Theorem unterminated_string_reads_to_the_end quote s :
  is_quote quote = true ->
  exists ln col,
    tokens_of (String quote (escaped quote s))
    = [mkToken STRING s 1 1; mkToken EOF "" ln col].
Proof.
  intros Hq. destruct (tokenize_literal quote s "" Hq) as (ln & col & H); [auto|].
  rewrite append_empty in H.
  exists ln, col. unfold tokens_of. rewrite H. reflexivity.
Qed.

Lemma unterminated_string_reads_to_the_end_witness :
  exists ln col,
    tokens_of "'it\'s open"
    = [mkToken STRING "it's open" 1 1; mkToken EOF "" ln col].
Proof. exact (unterminated_string_reads_to_the_end "'"%char "it's open" eq_refl). Defined.

(** X15. Keywords are recognised in any letter case: a word is a KEYWORD
    token, holding the upper-case name of the keyword, when the word in
    lower case is in the keyword table; any other word is an IDENTIFIER
    token that keeps its spelling. *)
Theorem keywords_are_read_in_any_case word :
  identifier_text word = true ->
  tokens_of word
  = [ match BrainRotTokenizer.keywords_get BrainRotTokenizer.keywords
              (BrainRotTokenizer.toLowerCase word) with
      | Some keyword => mkToken KEYWORD keyword 1 1
      | None => mkToken IDENTIFIER word 1 1
      end;
      mkToken EOF "" 1 (S (String.length word)) ].
Proof.
  destruct word as [|c word]; [discriminate|]. cbn [identifier_text]. intros H.
  apply andb_true_iff in H as [Hs Hall].
  destruct (identifier_start_plain c Hs) as (Hd & Hq & Hw & Hhash).
  unfold tokens_of, BrainRotTokenizer.tokenize. cbn [list_ascii_of_string List.length].
  rewrite tokenize_loop_S. cbn [BrainRotTokenizer.rest].
  assert (Hskip : BrainRotTokenizer.skipWhitespace
                    (BrainRotTokenizer.mkState (c :: list_ascii_of_string word) 1 1)
                  = BrainRotTokenizer.mkState (c :: list_ascii_of_string word) 1 1).
  { unfold BrainRotTokenizer.skipWhitespace.
    cbn [BrainRotTokenizer.rest BrainRotTokenizer.cur_line BrainRotTokenizer.cur_column
           BrainRotTokenizer.skipWhitespace_loop].
    rewrite Hw. reflexivity. }
  rewrite Hskip. cbn [BrainRotTokenizer.rest].
  assert (Hc : BrainRotTokenizer.at_comment
                 (BrainRotTokenizer.mkState (c :: list_ascii_of_string word) 1 1) = false).
  { unfold BrainRotTokenizer.at_comment, BrainRotTokenizer.peek_is, BrainRotTokenizer.peek.
    cbn [BrainRotTokenizer.rest nth_error]. rewrite Hhash. reflexivity. }
  rewrite Hc. unfold BrainRotTokenizer.nextToken.
  cbn [BrainRotTokenizer.rest BrainRotTokenizer.cur_line BrainRotTokenizer.cur_column].
  rewrite Hd, Hq, Hs. unfold BrainRotTokenizer.readIdentifier.
  cbn [BrainRotTokenizer.rest BrainRotTokenizer.cur_line BrainRotTokenizer.cur_column].
  change (c :: list_ascii_of_string word) with (list_ascii_of_string (String c word)).
  rewrite readIdentifier_loop_word.
  2:{ cbn [all_chars]. rewrite (identifier_start_part c Hs), Hall. reflexivity. }
  change ("" +:+ String c word) with (String c word).
  destruct (BrainRotTokenizer.keywords_get _ _); rewrite tokenize_loop_S; reflexivity.
Qed.

Lemma keywords_are_read_in_any_case_witness :
  tokens_of "MoLd" = [mkToken KEYWORD "MOLD" 1 1; mkToken EOF "" 1 5].
Proof. exact (keywords_are_read_in_any_case "MoLd" eq_refl). Defined.

(** X16. Source text with nothing to run, made of whitespace, of
    characters the tokenizer has no rule for and of comments, runs to no
    line of output and no error; the empty source is one such text. *)
Theorem blank_program_prints_nothing code :
  inert (list_ascii_of_string code) -> prints code [].
Proof.
  intros Hinert.
  destruct (tokenize_loop_inert (S (List.length (list_ascii_of_string code)))
              (BrainRotTokenizer.mkState (list_ascii_of_string code) 1 1) [] Hinert)
    as [st' H]; [cbn; lia|].
  apply (returns_with 1). unfold executeBrainRot, run_pipeline, BrainRotTokenizer.tokenize.
  rewrite H. reflexivity.
Qed.

Lemma blank_program_prints_nothing_witness : prints only_comments [].
Proof.
  apply (blank_program_prints_nothing only_comments).
  do 2 (apply inert_character; [reflexivity|]).
  refine (inert_comment (list_ascii_of_string " nothing to see")
            (list_ascii_of_string (String BrainRotTokenizer.newline "@ ~"))
            eq_refl (or_intror (ex_intro _ _ eq_refl)) _).
  repeat (apply inert_character; [reflexivity|]). apply inert_end.
Defined.

(** ** The parser *)

Import GrammarFacts.

(** X17. [parse] accepts every program of the grammar and returns its
    tree: on the tokens of a list of statements of the grammar, followed by
    the end token, it returns the statements of the derivation, none
    dropped, and stops at the end token. The fuel bounds how deep the calls
    of the methods nest: for [n] tokens a depth of [32 * n + 17] is
    enough. *)
Theorem parse_follows_the_grammar body eof program :
  block_at (map kind_of body) program -> type eof = EOF ->
  forall fuel,
    fuel_per_token * List.length body + 17 <= fuel ->
    BrainRotParser.parse (body ++ [eof]) fuel
    = BrainRotParser.Ok program (List.length body).
Proof.
  intros Hder Hend fuel Hfuel.
  destruct (program_parses body eof program Hder Hend) as [n Hn].
  destruct (ParserTermination.parse_finishes _ _ (program_well_formed body eof program Hder Hend)
              fuel Hfuel) as (ast & position & H).
  rewrite H. rewrite <- (Hn (Nat.max n fuel) ltac:(lia)). symmetry.
  eapply ParserFacts.parse_more_fuel; [exact H|discriminate|lia].
Qed.

Lemma parse_follows_the_grammar_witness :
  BrainRotParser.parse (count_down_body ++ [mkToken EOF "" 1 31]) (fuel_per_token * 13 + 17)
  = BrainRotParser.Ok count_down_tree 13.
Proof.
  exact (parse_follows_the_grammar count_down_body (mkToken EOF "" 1 31) count_down_tree
           count_down_derivation eq_refl (fuel_per_token * 13 + 17) (le_n _)).
Defined.
